(** * Wordle plugin: scoring engine, pinyin parser, session store, leaderboard

    A shallow embedding of the JavaScript sources of the plugin and the
    properties of its specification that were checked against them.

    Conventions of the embedding.
    - A JavaScript string is the list of its UTF-16 code units ([jsstring]);
      [s[i]] is [s !! i], [undefined] when [i] is out of range.
    - [null] and [undefined] are [None].
    - Counters ([wins], [gamesPlayed], [attempts], frequencies) are [Z]; the
      doubles of the source agree with them below 2^53.
    - Loops [for (let i = 0; i < n; i++)] over an array are recursions on the
      list, the [i]-th step of the recursion being the [i]-th iteration. *)

From Stdlib Require Import ZArith NArith List Ascii String Lia Permutation Sorted.
From stdpp Require Import base option list gmap.
Import ListNotations.

Local Open Scope Z_scope.

(** ** JavaScript strings *)

Module JS.

(** A UTF-16 code unit. *)
Definition codeunit := N.
Definition jsstring := list codeunit.

(** An ASCII literal as a JavaScript string. *)
Definition js (s : string) : jsstring :=
  List.map N_of_ascii (list_ascii_of_string s).

(** [WhiteSpace] and [LineTerminator] of ECMAScript: what [trim] strips and
    what [\s] matches. *)
Definition isWhiteSpace (c : codeunit) : bool :=
  ((9 <=? c)%N && (c <=? 13)%N)
  || (c =? 32)%N || (c =? 160)%N || (c =? 5760)%N
  || ((8192 <=? c)%N && (c <=? 8202)%N)
  || (c =? 8232)%N || (c =? 8233)%N || (c =? 8239)%N || (c =? 8287)%N
  || (c =? 12288)%N || (c =? 65279)%N.

Fixpoint trimStart (s : jsstring) : jsstring :=
  match s with
  | [] => []
  | c :: s' => if isWhiteSpace c then trimStart s' else s
  end.

Definition trim (s : jsstring) : jsstring :=
  rev (trimStart (rev (trimStart s))).

(** [s.split(/\s+/)]: [cur] is the piece being read, [inSep] says that the
    previous code unit belonged to a separator. *)
Fixpoint splitWhitespace_go (inSep : bool) (cur s : jsstring) : list jsstring :=
  match s with
  | [] => [cur]
  | c :: s' =>
      if isWhiteSpace c then
        if inSep then splitWhitespace_go true cur s'
        else cur :: splitWhitespace_go true [] s'
      else splitWhitespace_go false (cur ++ [c]) s'
  end.

Definition splitWhitespace (s : jsstring) : list jsstring :=
  splitWhitespace_go false [] s.

Fixpoint startsWith (s p : jsstring) : bool :=
  match p, s with
  | [], _ => true
  | _ :: _, [] => false
  | a :: p', b :: s' => (a =? b)%N && startsWith s' p'
  end.

(** [s.substring(n)] for [0 <= n]. *)
Definition substring (s : jsstring) (n : nat) : jsstring := drop n s.

(** [String.prototype.toLowerCase] is a built-in of the host: the scorer
    takes it as a parameter.  [asciiLower] is its restriction to ASCII
    strings, on which the two agree; it is used to run the scorer on
    concrete ASCII inputs. *)
Definition asciiLowerChar (c : codeunit) : codeunit :=
  if ((65 <=? c)%N && (c <=? 90)%N) then (c + 32)%N else c.

Definition asciiLower (s : jsstring) : jsstring := List.map asciiLowerChar s.

(** Truthiness of a string value that may be [null]/[undefined]. *)
Definition truthy (s : option jsstring) : bool :=
  match s with
  | Some (_ :: _) => true
  | _ => false
  end.

(** [String(x)] and string concatenation of a possibly [null] string. *)
Definition toStr (s : option jsstring) : jsstring :=
  match s with
  | Some x => x
  | None => js "null"
  end.

End JS.

Import JS.

(** ** Pinyin parser ([utils/data/pinyin.js]) *)

Module Pinyin.

Record Syllable := { initial : jsstring; final : jsstring; tone : Z }.

#[global] Instance Syllable_eq_dec : EqDecision Syllable.
Proof. solve_decision. Defined.

Definition toneMap (c : codeunit) : option Z :=
  match c with
  | 257%N => Some 1 | 225%N => Some 2 | 462%N => Some 3 | 224%N => Some 4
  | 275%N => Some 1 | 233%N => Some 2 | 283%N => Some 3 | 232%N => Some 4
  | 299%N => Some 1 | 237%N => Some 2 | 464%N => Some 3 | 236%N => Some 4
  | 333%N => Some 1 | 243%N => Some 2 | 466%N => Some 3 | 242%N => Some 4
  | 363%N => Some 1 | 250%N => Some 2 | 468%N => Some 3 | 249%N => Some 4
  | 470%N => Some 1 | 472%N => Some 2 | 474%N => Some 3 | 476%N => Some 4
  | _ => None
  end.

Definition baseMap (c : codeunit) : option codeunit :=
  match c with
  | 257%N | 225%N | 462%N | 224%N => Some 97%N
  | 275%N | 233%N | 283%N | 232%N => Some 101%N
  | 299%N | 237%N | 464%N | 236%N => Some 105%N
  | 333%N | 243%N | 466%N | 242%N => Some 111%N
  | 363%N | 250%N | 468%N | 249%N => Some 117%N
  | 470%N | 472%N | 474%N | 476%N => Some 117%N
  | _ => None
  end.

(** The loop [for (const char of pinyin)]: returns the cleaned text and the
    tone recorded so far. *)
Fixpoint stripTones (pinyin cleaned : jsstring) (tone : Z) : jsstring * Z :=
  match pinyin with
  | [] => (cleaned, tone)
  | c :: rest =>
      match toneMap c with
      | Some t => stripTones rest (cleaned ++ [default c (baseMap c)]) t
      | None => stripTones rest (cleaned ++ [c]) tone
      end
  end.

Definition isToneDigit (c : codeunit) : bool := (49 <=? c)%N && (c <=? 52)%N.

(** [pinyin.match(/([1-4])$/)]: the digit the text ends with, if any. *)
Definition toneMatch (pinyin : jsstring) : option Z :=
  match last pinyin with
  | Some c => if isToneDigit c then Some (Z.of_N c - 48) else None
  | None => None
  end.

(** [cleanedPinyin.replace(/[1-4]$/, '')]. *)
Definition dropToneDigit (s : jsstring) : jsstring :=
  match last s with
  | Some c => if isToneDigit c then removelast s else s
  | None => s
  end.

Definition initials : list jsstring :=
  List.map js ["b"; "p"; "m"; "f"; "d"; "t"; "n"; "l"; "g"; "k"; "h";
               "j"; "q"; "x"; "zh"; "ch"; "sh"; "r"; "z"; "c"; "s"; "y"; "w"]%string.

(** The loop over [initials], with its [break]. *)
Fixpoint matchInitial (inits : list jsstring) (cleaned : jsstring)
  : jsstring * jsstring :=
  match inits with
  | [] => ([], cleaned)
  | init :: rest =>
      if startsWith cleaned init
      then (init, substring cleaned (length init))
      else matchInitial rest cleaned
  end.

Definition parsePinyin (pinyin : jsstring) : Syllable :=
  match pinyin with
  | [] => {| initial := []; final := []; tone := 0 |}
  | _ =>
      let pinyin := trim pinyin in
      let '(cleaned, tone) := stripTones pinyin [] 0 in
      let '(cleaned, tone) :=
        if tone =? 0 then
          match toneMatch pinyin with
          | Some t => (dropToneDigit cleaned, t)
          | None => (cleaned, tone)
          end
        else (cleaned, tone) in
      let '(initial, cleaned) := matchInitial initials cleaned in
      {| initial := initial; final := cleaned; tone := tone |}
  end.

Definition parsePinyinString (pinyinString : jsstring) : list Syllable :=
  match pinyinString with
  | [] => []
  | _ => List.map parsePinyin (splitWhitespace (trim pinyinString))
  end.

End Pinyin.

(** ** Scoring engine *)

Module Scoring.

Inductive Status := correct | present | absent | pending.

#[global] Instance Status_eq_dec : EqDecision Status.
Proof. solve_decision. Defined.

(** The [pinyin] member of an idiom cell; every field starts as [null]. *)
Record PinyinInfo := {
  initial : option Status;
  final : option Status;
  tone : option Status
}.

(** One entry of a scoring result.  The word and equation scorers build
    [{letter, status}]: their cells have no [char] and no [pinyin] member
    ([None]).  The idiom scorers add [char] (the same value as [letter]); the
    scorer of the idiom game adds [pinyin] as well.  [letter] is [guess[i]],
    which is [undefined] ([None]) past the end of the guess. *)
Record Cell := {
  char : option (option codeunit);
  letter : option codeunit;
  status : Status;
  pinyin : option PinyinInfo
}.

(** [freq[k]] read as a number: a missing key, and the key [undefined], give
    [undefined], which [|| 0] turns into 0 and which [> 0] rejects. *)
Definition freqGet (freq : gmap codeunit Z) (k : option codeunit) : Z :=
  match k with
  | Some c => default 0 (freq !! c)
  | None => 0
  end.

Section TwoPasses.

(** What distinguishes the four copies of the algorithm: whether the cell
    carries [char], and the [pinyin] member of the cell at position [i]. *)
Variable withChar : bool.
Variable pinyinAt : nat -> option PinyinInfo.

Definition mkCell (i : nat) (g : option codeunit) (st : Status) : Cell :=
  {| char := if withChar then Some g else None;
     letter := g; status := st; pinyin := pinyinAt i |}.

(** First loop: [guess] and [target] are the suffixes from position [i]. *)
Fixpoint firstPass (i : nat) (guess target : jsstring) (freq : gmap codeunit Z)
  : list Cell * gmap codeunit Z :=
  match target with
  | [] => ([], freq)
  | t :: target' =>
      let g := head guess in
      if decide (g = Some t) then
        let '(result, freq') := firstPass (S i) (tail guess) target' freq in
        (mkCell i g correct :: result, freq')
      else
        let '(result, freq') :=
          firstPass (S i) (tail guess) target'
                    (<[t := freqGet freq (Some t) + 1]> freq) in
        (mkCell i g pending :: result, freq')
  end.

End TwoPasses.

Definition setStatus (c : Cell) (st : Status) : Cell :=
  {| char := char c; letter := letter c; status := st; pinyin := pinyin c |}.

(** Second loop: [guess] and [result] are the suffixes from position [i]. *)
Fixpoint secondPass (guess : jsstring) (result : list Cell) (freq : gmap codeunit Z)
  : list Cell :=
  match result with
  | [] => []
  | r :: result' =>
      if decide (status r = pending) then
        let g := head guess in
        if 0 <? freqGet freq g then
          setStatus r present
            :: secondPass (tail guess) result'
                 (match g with
                  | Some c => <[c := freqGet freq g - 1]> freq
                  | None => freq
                  end)
        else setStatus r absent :: secondPass (tail guess) result' freq
      else r :: secondPass (tail guess) result' freq
  end.

Definition twoPass (withChar : bool) (pinyinAt : nat -> option PinyinInfo)
    (guess target : jsstring) : list Cell :=
  let '(result, freq) := firstPass withChar pinyinAt 0 guess target ∅ in
  secondPass guess result freq.

(** The guard [!guess || !target || guess.length !== target.length]. *)
Definition rejected (guess target : jsstring) : bool :=
  match guess, target with
  | [], _ | _, [] => true
  | _, _ => negb (length guess =? length target)%nat
  end.

End Scoring.

(** [checkGuess] of [utils/data/equation.js]. *)
Module Equation.
Import Scoring.

Definition checkGuess (guess target : jsstring) : list Cell :=
  if rejected guess target then []
  else twoPass false (fun _ => None) guess target.

End Equation.

(** ** Objects used as maps

    A plain object (or a [Map]) keyed by strings, as the list of its entries
    in insertion order: what [Object.entries] enumerates.  Assigning to an
    existing key keeps its place, assigning to a new key appends.  (For keys
    that are canonical array indices [Object.entries] of a plain object
    enumerates them first, in numeric order; no property below depends on
    the order of the entries.)  Keys are taken not to be names of
    [Object.prototype] members. *)

Module Obj.

Definition t (V : Type) := list (jsstring * V).

Fixpoint get {V} (k : jsstring) (o : t V) : option V :=
  match o with
  | [] => None
  | (k', v) :: o' => if decide (k' = k) then Some v else get k o'
  end.

Fixpoint set {V} (k : jsstring) (v : V) (o : t V) : t V :=
  match o with
  | [] => [(k, v)]
  | (k', v') :: o' =>
      if decide (k' = k) then (k, v) :: o' else (k', v') :: set k v o'
  end.

Definition keys {V} (o : t V) : list jsstring := List.map fst o.

End Obj.

(** ** Leaderboard ([utils/data/leaderboard.js]) *)

Module Leaderboard.

Record Entry := { nickname : jsstring; wins : Z; gamesPlayed : Z }.

(** A participant handed to [recordGameResult]; [userId] may be [null],
    [nickname] may be missing or not a string ([None]). *)
Record Participant := { p_userId : option jsstring; p_nickname : option jsstring }.

(** A row of a ranking.  [winRate] is kept as its number of hundredths. *)
Record Player := {
  userId : jsstring;
  pl_nickname : jsstring;
  pl_wins : Z;
  pl_gamesPlayed : Z;
  winRate : Z
}.

Definition Table := Obj.t Entry.

(** The leaderboard files of the data directory, keyed by the id in
    [leaderboard_<id>.json], in directory order.  Reads and writes of the
    file system are taken to succeed. *)
Definition Files := Obj.t Table.

Definition fileId (groupId : option jsstring) : jsstring :=
  match groupId with
  | Some g => g
  | None => js "global"
  end.

Definition _readLeaderboard (files : Files) (groupId : option jsstring) : Table :=
  default [] (Obj.get (fileId groupId) files).

Definition _writeLeaderboard (files : Files) (groupId : option jsstring) (data : Table)
  : Files :=
  Obj.set (fileId groupId) data files.

Definition _normalizeNickname (nickname : option jsstring) (fallback : jsstring)
  : jsstring :=
  match nickname with
  | Some n => match trim n with
              | [] => [29609%N; 23478%N] ++ fallback
              | n' => n'
              end
  | None => [29609%N; 23478%N] ++ fallback
  end.

(** [if (!leaderboard[id]) leaderboard[id] = { nickname, wins: 0, gamesPlayed: 0 }] *)
Definition ensureEntry (id nickname : jsstring) (leaderboard : Table) : Table :=
  match Obj.get id leaderboard with
  | Some _ => leaderboard
  | None => Obj.set id {| nickname := nickname; wins := 0; gamesPlayed := 0 |} leaderboard
  end.

(** In-place update of the members of [leaderboard[id]]. *)
Definition update (id : jsstring) (f : Entry -> Entry) (leaderboard : Table) : Table :=
  match Obj.get id leaderboard with
  | Some e => Obj.set id (f e) leaderboard
  | None => leaderboard
  end.

(** One iteration of the loop over [participants]. *)
Definition recordParticipant (st : Table * gset jsstring) (participant : Participant)
  : Table * gset jsstring :=
  let '(leaderboard, participantSet) := st in
  match p_userId participant with
  | None => st
  | Some id =>
      if decide (id ∈ participantSet) then st
      else
        let participantSet := participantSet ∪ {[ id ]} in
        let name := _normalizeNickname (p_nickname participant) id in
        let leaderboard := ensureEntry id name leaderboard in
        let leaderboard :=
          update id (fun e => {| nickname := name; wins := wins e;
                                 gamesPlayed := gamesPlayed e + 1 |}) leaderboard in
        (leaderboard, participantSet)
  end.

(** The [if (winnerId != null)] block. *)
Definition recordWinner (leaderboard : Table) (participantSet : gset jsstring)
    (id winnerName : jsstring) : Table :=
  let name :=
    _normalizeNickname
      (match winnerName with
       | [] => nickname <$> Obj.get id leaderboard
       | _ => Some winnerName
       end) id in
  let leaderboard := ensureEntry id name leaderboard in
  let leaderboard :=
    update id (fun e => {| nickname := name; wins := wins e + 1;
                           gamesPlayed := gamesPlayed e |}) leaderboard in
  if decide (id ∈ participantSet) then leaderboard
  else update id (fun e => {| nickname := nickname e; wins := wins e;
                              gamesPlayed := gamesPlayed e + 1 |}) leaderboard.

(** The table [recordGameResult] writes back, from the table it read. *)
Definition recordedTable (leaderboard : Table) (participants : list Participant)
    (winnerId : option jsstring) (winnerName : jsstring) : Table :=
  let '(leaderboard, participantSet) :=
    foldl recordParticipant (leaderboard, ∅) participants in
  match winnerId with
  | Some id => recordWinner leaderboard participantSet id winnerName
  | None => leaderboard
  end.

Definition recordGameResult (files : Files) (groupId : option jsstring)
    (participants : list Participant) (winnerId : option jsstring)
    (winnerName : jsstring) : Files :=
  let leaderboard := _readLeaderboard files groupId in
  _writeLeaderboard files groupId
    (recordedTable leaderboard participants winnerId winnerName).

(** *** The arithmetic of [_calculateWinRate]

    The counters are integers that a double holds exactly, and a finite
    double is a dyadic rational, kept here as [(m, e)] for [m * 2^e].  The
    quotient [wins / games] and the product by [100] are rounded as the host
    rounds them: to 53 significant bits, to the nearest, to the even one of
    two nearest (the exponents met are far from the ends of the range). *)

(** The integer nearest to [n / d], the even one of two, for [0 <= n] and
    [0 < d]. *)
Definition roundHalfEven (n d : Z) : Z :=
  let q := n / d in
  let r := n mod d in
  if 2 * r <? d then q
  else if d <? 2 * r then q + 1
  else if Z.even q then q else q + 1.

(** The fraction [(n / d) / 2^e]. *)
Definition scaled (n d e : Z) : Z * Z :=
  if 0 <=? e then (n, d * 2 ^ e) else (n * 2 ^ (- e), d).

(** The double nearest to [n / d], for [0 < n] and [0 < d]: the exponent
    [e] puts [(n / d) / 2^e] between [2^52] and [2^53]. *)
Definition nearestDouble (n d : Z) : Z * Z :=
  let k := Z.log2 n - Z.log2 d in
  let '(n', d') := scaled n d k in
  let k := if n' <? d' then k - 1 else k in
  let e := k - 52 in
  let '(n', d') := scaled n d e in
  (roundHalfEven n' d', e).

(** [x.toFixed(2)] for a double [x >= 0], as a number of hundredths: the
    integer [n] with [n / 100] nearest to the exact value of [x], the larger
    one of two. *)
Definition toFixed2 (x : Z * Z) : Z :=
  let '(m, e) := x in
  let '(n, d) := scaled m 1 (- e) in
  (200 * n + d) / (2 * d).

(** [((wins / games) * 100).toFixed(2)] for [0 <= wins] and [0 < games]. *)
Definition percent (wins games : Z) : Z :=
  if wins =? 0 then 0
  else
    let '(m, e) := nearestDouble wins games in
    let '(n, d) := scaled (m * 100) 1 (- e) in
    toFixed2 (nearestDouble n d).

(** The result is kept as its number of hundredths: [Number] of the text
    with two decimals is the double nearest to that many hundredths, and two
    such doubles compare as their numbers of hundredths do.  Division,
    product and [toFixed] treat a negative number as its absolute value with
    the sign put back. *)
Definition _calculateWinRate (wins games : Z) : Z :=
  if games =? 0 then 0
  else Z.sgn wins * Z.sgn games * percent (Z.abs wins) (Z.abs games).

Definition toPlayer (kv : jsstring * Entry) : Player :=
  let '(userId, data) := kv in
  {| userId := userId; pl_nickname := nickname data;
     pl_wins := wins data; pl_gamesPlayed := gamesPlayed data;
     winRate := _calculateWinRate (wins data) (gamesPlayed data) |}.

(** [Array.prototype.sort] with a comparator: the sort is stable, and for a
    consistent comparator its result is the stable insertion sort. *)
Section Sort.
Context {A : Type} (cmp : A -> A -> Z).

Fixpoint insertSorted (x : A) (l : list A) : list A :=
  match l with
  | [] => [x]
  | y :: l' => if cmp x y <=? 0 then x :: l else y :: insertSorted x l'
  end.

Definition sort (l : list A) : list A := foldr insertSorted [] l.
End Sort.

(** [a.slice(0, limit)]; a negative [limit] counts from the end. *)
Definition slice0 {A} (l : list A) (limit : Z) : list A :=
  let len := Z.of_nat (length l) in
  let stop := if limit <? 0 then Z.max (len + limit) 0 else Z.min limit len in
  take (Z.to_nat stop) l.

Section Ranking.
(** [a.localeCompare(b, 'zh-Hans-CN')], the collation of the host. *)
Variable localeCompare : jsstring -> jsstring -> Z.

Definition cmpGames (a b : Player) : Z :=
  if negb (pl_gamesPlayed b =? pl_gamesPlayed a) then pl_gamesPlayed b - pl_gamesPlayed a
  else if negb (pl_wins b =? pl_wins a) then pl_wins b - pl_wins a
  else localeCompare (userId a) (userId b).

Definition cmpRate (a b : Player) : Z :=
  if negb (winRate b =? winRate a) then winRate b - winRate a
  else if negb (pl_gamesPlayed b =? pl_gamesPlayed a) then pl_gamesPlayed b - pl_gamesPlayed a
  else localeCompare (userId a) (userId b).

Definition cmpWins (a b : Player) : Z :=
  if negb (pl_wins b =? pl_wins a) then pl_wins b - pl_wins a
  else if negb (pl_gamesPlayed b =? pl_gamesPlayed a) then pl_gamesPlayed b - pl_gamesPlayed a
  else localeCompare (userId a) (userId b).

(** The [switch (sortBy)] and the final [slice], which [getLeaderboard] and
    [getGlobalLeaderboard] both spell out. *)
Definition ranked (players : list Player) (sortBy : jsstring) (limit : Z)
  : list Player :=
  let sorted :=
    if decide (sortBy = js "games") then sort cmpGames players
    else if decide (sortBy = js "rate") then
      sort cmpRate (List.filter (fun player => 3 <=? pl_gamesPlayed player) players)
    else sort cmpWins players in
  slice0 sorted limit.

Definition getLeaderboard (files : Files) (groupId : option jsstring)
    (sortBy : jsstring) (limit : Z) : list Player :=
  let leaderboard := _readLeaderboard files groupId in
  ranked (List.map toPlayer leaderboard) sortBy limit.

(** Ids of the leaderboard files other than the global one. *)
Definition _getAllGroupIds (files : Files) : list jsstring :=
  List.filter (fun id => negb (bool_decide (id = js "global"))) (Obj.keys files).

(** The body of the inner loop of [getGlobalLeaderboard]. *)
Definition mergeEntry (globalStats : Obj.t Entry) (kv : jsstring * Entry)
  : Obj.t Entry :=
  let '(userId, data) := kv in
  let stats :=
    default {| nickname := nickname data; wins := 0; gamesPlayed := 0 |}
            (Obj.get userId globalStats) in
  Obj.set userId
    {| nickname := match nickname data with [] => nickname stats | n => n end;
       wins := wins stats + wins data;
       gamesPlayed := gamesPlayed stats + gamesPlayed data |}
    globalStats.

Definition globalStats (files : Files) : Obj.t Entry :=
  foldl (fun stats groupId =>
           foldl mergeEntry stats (_readLeaderboard files (Some groupId)))
        [] (_getAllGroupIds files).

Definition getGlobalLeaderboard (files : Files) (sortBy : jsstring) (limit : Z)
  : list Player :=
  ranked (List.map toPlayer (globalStats files)) sortBy limit.

End Ranking.

End Leaderboard.

(** ** Session store ([utils/data/db.js]) *)

Module DB.

(** The game record kept per scope.  [participants] maps a player id to the
    nickname of its [{nickname}] object. *)
Record GameData := {
  targetWord : jsstring;
  targetPinyin : option jsstring;
  guesses : list jsstring;
  guessesPinyin : option (list jsstring);
  attempts : Z;
  maxAttempts : Z;
  finished : bool;
  startTime : Z;
  letterCount : Z;
  gameType : option jsstring;
  participants : Obj.t jsstring
}.

(** [global.redis]: [None] when no client is installed; otherwise the game
    records by key.  A record stands for the JSON text it is stored as.  The
    expiry set on every write is not modelled, and the calls to the client
    are taken to succeed. *)
Definition Redis := option (gmap jsstring GameData).

Definition GAME_KEY_PREFIX : jsstring := js "wordle:game:".

(** All three functions declare the single parameter [groupId]; a second
    argument passed by a caller is dropped.  [GAME_KEY_PREFIX + groupId]
    turns a [null] into the text [null]. *)
Definition gameKeyOf (groupId : option jsstring) : jsstring :=
  GAME_KEY_PREFIX ++ toStr groupId.

Definition getGameData (redis : Redis) (groupId : option jsstring) : option GameData :=
  match redis with
  | None => None
  | Some store => store !! gameKeyOf groupId
  end.

Definition saveGameData (redis : Redis) (groupId : option jsstring)
    (gameData : GameData) : Redis * bool :=
  match redis with
  | None => (None, false)
  | Some store => (Some (<[gameKeyOf groupId := gameData]> store), true)
  end.

Definition deleteGameData (redis : Redis) (groupId : option jsstring) : Redis * bool :=
  match redis with
  | None => (None, true)
  | Some store => (Some (delete (gameKeyOf groupId) store), true)
  end.

End DB.

(** [utils/utils.js]: the word scorer, its dispatch on the game type and its
    own idiom scorer (characters only). *)
Module Utils.
Import Scoring.

Inductive GameType := word | equation | idiom.

Definition checkIdiomGuess (guess target : jsstring) : list Cell :=
  if rejected guess target then []
  else twoPass true (fun _ => None) guess target.

Section WithToLowerCase.
Variable toLowerCase : jsstring -> jsstring.

Definition checkGuess (guess target : jsstring) (gameType : GameType) : list Cell :=
  match gameType with
  | equation => Equation.checkGuess guess target
  | idiom => checkIdiomGuess guess target
  | word =>
      let guess := toLowerCase guess in
      let target := toLowerCase target in
      twoPass false (fun _ => None) guess target
  end.
End WithToLowerCase.

End Utils.

(** ** Game orchestrators ([utils/games/base.js], the word and idiom games) *)

Module GameBase.
Import DB.

(** The members of the message event that the games read. *)
Record Event := {
  group_id : option jsstring;
  user_id : option jsstring;
  sender_user_id : option jsstring;
  sender_card : option jsstring;
  sender_nickname : option jsstring
}.

(** What the games act on: the key-value store and the leaderboard files. *)
Record World := { redis : Redis; files : Leaderboard.Files }.

(** [x || null] *)
Definition orNull (x : option jsstring) : option jsstring :=
  if truthy x then x else None.

Record GameContext := {
  groupId : option jsstring;
  userId : option jsstring;
  gameKey : option jsstring
}.

Definition _getGameContext (e : Event) : GameContext :=
  let groupId := orNull (group_id e) in
  let userId := orNull (user_id e) in
  {| groupId := groupId; userId := userId;
     gameKey := if truthy groupId then groupId
                else match userId with
                     | Some u => Some (js "private_" ++ u)
                     | None => None
                     end |}.

Definition _getUserId (e : Event) : option jsstring :=
  match user_id e with
  | Some u => Some u
  | None => sender_user_id e
  end.

Definition trimmedNonEmpty (x : option jsstring) : option jsstring :=
  match x with
  | Some s => match trim s with [] => None | s' => Some s' end
  | None => None
  end.

Definition _getDisplayName (e : Event) : jsstring :=
  match trimmedNonEmpty (sender_card e) with
  | Some card => card
  | None =>
      match trimmedNonEmpty (sender_nickname e) with
      | Some nickname => nickname
      | None =>
          match _getUserId e with
          | Some userId => [29609%N; 23478%N] ++ userId
          | None => [26410%N; 30693%N; 29609%N; 23478%N]
          end
      end
  end.

Definition _updateLeaderboardStats (files : Leaderboard.Files) (e : Event)
    (gameData : GameData) (winnerId : option jsstring) : Leaderboard.Files :=
  if negb (truthy (group_id e)) then files
  else
    let participants := participants gameData in
    let participantsArray :=
      List.map (fun '(userId, nickname) =>
                  {| Leaderboard.p_userId := Some userId;
                     Leaderboard.p_nickname :=
                       Some (match nickname with
                             | [] => [29609%N; 23478%N] ++ userId
                             | n => n
                             end) |}) participants in
    let resolvedWinnerId := winnerId in
    let winnerName :=
      if truthy resolvedWinnerId then
        match Obj.get (toStr resolvedWinnerId) participants with
        | Some (c :: n) => c :: n
        | _ => _getDisplayName e
        end
      else [] in
    match participantsArray, truthy resolvedWinnerId with
    | [], false => files
    | _, _ =>
        Leaderboard.recordGameResult files (group_id e) participantsArray
          resolvedWinnerId winnerName
    end.

(** What a call of [processGuess] came to.  [Guessed] carries [isWin], the
    new [finished] flag (on which the deletion of the record is scheduled)
    and the scored rounds handed to the renderer. *)
Inductive Outcome :=
  | NoActiveGame
  | InvalidGuess
  | Guessed (isWin finished : bool) (results : list (list Scoring.Cell)).

(** [x || y] on ids *)
Definition orElse (x y : option jsstring) : option jsstring :=
  if truthy x then x else y.

(** The statements shared by the [processGuess] of every game, from the
    registration of the participant to [finished]. *)
Definition applyGuess (e : Event) (guess : jsstring)
    (guessPinyin : option (option jsstring)) (currentGame : GameData)
  : GameData * bool :=
  let currentUserId := _getUserId e in
  let nickname := _getDisplayName e in
  let participants :=
    if truthy currentUserId
    then Obj.set (toStr currentUserId) nickname (participants currentGame)
    else participants currentGame in
  let guesses := guesses currentGame ++ [guess] in
  let guessesPinyin :=
    match guessPinyin with
    | Some gp => Some (default [] (guessesPinyin currentGame) ++ [default [] gp])
    | None => guessesPinyin currentGame
    end in
  let attempts := attempts currentGame + 1 in
  let isWin := bool_decide (trim guess = trim (targetWord currentGame)) in
  let finished := isWin || (maxAttempts currentGame <=? attempts) in
  ({| targetWord := targetWord currentGame;
      targetPinyin := targetPinyin currentGame;
      guesses := guesses;
      guessesPinyin := guessesPinyin;
      attempts := attempts;
      maxAttempts := maxAttempts currentGame;
      finished := finished;
      startTime := startTime currentGame;
      letterCount := letterCount currentGame;
      gameType := gameType currentGame;
      participants := participants |}, isWin).

End GameBase.

(** The word game ([utils/games/word.js]). *)
Module WordGame.
Import DB GameBase.

Section WithCorpus.
Variable toLowerCase : jsstring -> jsstring.
(** [utils.word.isValidWord(guess, letterCount)], a lookup in the loaded
    dictionaries. *)
Variable isValidWord : jsstring -> Z -> bool.

Definition processGuess (w : World) (e : Event) (guess : jsstring)
    (groupId userId : option jsstring) : World * Outcome :=
  let ctx := _getGameContext e in
  let finalGroupId := orElse groupId (GameBase.groupId ctx) in
  let finalUserId := orElse userId (GameBase.userId ctx) in
  match getGameData (redis w) finalGroupId with
  | None => (w, NoActiveGame)
  | Some currentGame =>
      if finished currentGame then (w, NoActiveGame)
      else if negb (isValidWord guess (letterCount currentGame)) then (w, InvalidGuess)
      else
        let '(currentGame, isWin) := applyGuess e guess None currentGame in
        let redis := fst (saveGameData (redis w) finalGroupId currentGame) in
        let results :=
          List.map (fun g => Utils.checkGuess toLowerCase g (targetWord currentGame) Utils.word)
                   (guesses currentGame) in
        let files :=
          if finished currentGame
          then _updateLeaderboardStats (files w) e currentGame
                 (if isWin then userId else None)
          else files w in
        ({| redis := redis; files := files |},
         Guessed isWin (finished currentGame) results)
  end.
End WithCorpus.

End WordGame.

(** [checkIdiomGuess] of the idiom game. *)
Module IdiomGame.
Import Scoring.

(** The inner loops [for (let j = 0; j < length; j++)] with their [break]:
    some [j] other than [i], below [length] and inside the target's pinyin
    array, whose syllable satisfies [p]. *)
Definition existsOther (length i : nat) (targetPinyinArray : list Pinyin.Syllable)
    (p : Pinyin.Syllable -> bool) : bool :=
  existsb (fun j => negb (j =? i)%nat
                    && match targetPinyinArray !! j with
                       | Some s => p s
                       | None => false
                       end)
          (seq 0 length).

Definition presentOrAbsent (b : bool) : Status := if b then present else absent.

Definition pinyinInfo (length : nat) (guessPinyinArray targetPinyinArray : list Pinyin.Syllable)
    (i : nat) : PinyinInfo :=
  match guessPinyinArray !! i, targetPinyinArray !! i with
  | Some guessPy, Some targetPy =>
      {| initial :=
           Some (if bool_decide (Pinyin.initial guessPy = Pinyin.initial targetPy)
                 then correct
                 else presentOrAbsent
                        (existsOther length i targetPinyinArray
                           (fun s => bool_decide (Pinyin.initial s = Pinyin.initial guessPy))));
         final :=
           Some (if bool_decide (Pinyin.final guessPy = Pinyin.final targetPy)
                 then correct
                 else presentOrAbsent
                        (existsOther length i targetPinyinArray
                           (fun s => bool_decide (Pinyin.final s = Pinyin.final guessPy))));
         tone :=
           Some (if bool_decide (Pinyin.tone guessPy = Pinyin.tone targetPy) then
                   if bool_decide (Pinyin.final guessPy = Pinyin.final targetPy)
                   then correct
                   else if existsOther length i targetPinyinArray
                             (fun s => bool_decide (Pinyin.tone s = Pinyin.tone guessPy)
                                       && bool_decide (Pinyin.final s = Pinyin.final guessPy))
                        then present else correct
                 else presentOrAbsent
                        (existsOther length i targetPinyinArray
                           (fun s => bool_decide (Pinyin.tone s = Pinyin.tone guessPy)))) |}
  | _, _ => {| initial := None; final := None; tone := None |}
  end.

Definition checkIdiomGuess (guess target guessPinyin targetPinyin : jsstring)
  : list Cell :=
  if rejected guess target then []
  else
    let guessPinyinArray :=
      match guessPinyin with [] => [] | _ => Pinyin.parsePinyinString guessPinyin end in
    let targetPinyinArray :=
      match targetPinyin with [] => [] | _ => Pinyin.parsePinyinString targetPinyin end in
    twoPass true
      (fun i => Some (pinyinInfo (length target) guessPinyinArray targetPinyinArray i))
      guess target.



Import DB GameBase.

(** The constants set by the constructor. *)
Definition idiomLength : Z := 4.
Definition maxAttempts : Z := 10.

(** What a call of [startNewIdiomGame] came to. *)
Inductive StartOutcome := AlreadyRunning | NoIdiom | Started.

Section WithCorpus.
(** [utils.idiom.isValidIdiom] and [utils.idiom.getIdiomPinyin], lookups
    in the loaded idiom list. *)
Variable isValidIdiom : jsstring -> bool.
Variable getIdiomPinyin : jsstring -> option jsstring.

(** [targetIdiom] is what [getRandomIdiom()] returned, [now] is
    [Date.now()]. *)
Definition startNewIdiomGame (w : World) (e : Event)
    (targetIdiom : option jsstring) (now : Z) : World * StartOutcome :=
  let ctx := _getGameContext e in
  let running :=
    match getGameData (redis w) (GameBase.groupId ctx) with
    | Some existingGame => negb (finished existingGame)
    | None => false
    end in
  if running then (w, AlreadyRunning)
  else if negb (truthy targetIdiom) then (w, NoIdiom)
  else
    let targetIdiom := toStr targetIdiom in
    let gameData :=
      {| targetWord := targetIdiom;
         targetPinyin := getIdiomPinyin targetIdiom;
         guesses := [];
         guessesPinyin := Some [];
         attempts := 0;
         DB.maxAttempts := maxAttempts;
         finished := false;
         startTime := now;
         letterCount := idiomLength;
         gameType := Some (js "idiom");
         participants := [] |} in
    ({| redis := fst (saveGameData (redis w) (GameBase.groupId ctx) gameData);
        files := files w |}, Started).

Definition processGuess (w : World) (e : Event) (guess : jsstring)
    (groupId userId : option jsstring) : World * Outcome :=
  let ctx := _getGameContext e in
  let finalGroupId := orElse groupId (GameBase.groupId ctx) in
  let finalUserId := orElse userId (GameBase.userId ctx) in
  match getGameData (redis w) finalGroupId with
  | None => (w, NoActiveGame)
  | Some currentGame =>
      if finished currentGame then (w, NoActiveGame)
      else if negb (isValidIdiom guess) then (w, InvalidGuess)
      else
        let '(currentGame, isWin) :=
          applyGuess e guess (Some (getIdiomPinyin guess)) currentGame in
        let redis := fst (saveGameData (redis w) finalGroupId currentGame) in
        let results :=
          List.map (fun '(g, gp) =>
                      checkIdiomGuess g (targetWord currentGame) gp
                        (default [] (targetPinyin currentGame)))
                   (zip_with (fun g gp => (g, gp)) (guesses currentGame)
                      (default [] (guessesPinyin currentGame)
                       ++ replicate (length (guesses currentGame)) [])) in
        let files :=
          if finished currentGame
          then _updateLeaderboardStats (files w) e currentGame
                 (if isWin then userId else None)
          else files w in
        ({| redis := redis; files := files |},
         Guessed isWin (finished currentGame) results)
  end.
End WithCorpus.

End IdiomGame.

(** ** Vocabulary of the properties *)

Module Props.
Import Scoring.

(** The cell is marked [correct] or [present] and carries the symbol [c]. *)
Definition isMark (c : codeunit) (x : Cell) : bool :=
  bool_decide (letter x = Some c)
  && (bool_decide (status x = correct) || bool_decide (status x = present)).

Definition isCorrectMark (c : codeunit) (x : Cell) : bool :=
  bool_decide (letter x = Some c) && bool_decide (status x = correct).

Definition marks (c : codeunit) (result : list Cell) : nat :=
  length (List.filter (isMark c) result).

Definition correctMarks (c : codeunit) (result : list Cell) : nat :=
  length (List.filter (isCorrectMark c) result).

Definition occurrences (c : codeunit) (target : jsstring) : nat :=
  length (List.filter (fun t => bool_decide (t = c)) target).

(** The cells of [result] carry the symbols of [guess], position by
    position ([undefined] past its end). *)
Fixpoint aligned (result : list Cell) (guess : jsstring) : Prop :=
  match result with
  | [] => True
  | r :: result' => letter r = head guess /\ aligned result' (tail guess)
  end.

Definition final_status (st : Status) : Prop :=
  st = correct \/ st = present \/ st = absent.

(** What the result of a scorer has to look like on a guess as long as the
    target. *)
Definition well_scored (result : list Cell) (guess target : jsstring) : Prop :=
  length result = length target /\
  forall i, (i < length target)%nat ->
    exists x g, result !! i = Some x /\ guess !! i = Some g /\
                letter x = Some g /\ final_status (status x).

(** The pinyin array the idiom scorer makes of a pinyin text. *)
Definition pinyinArray (text : jsstring) : list Pinyin.Syllable :=
  Pinyin.parsePinyinString text.

(** Some position [j] of the idiom other than [i] whose target syllable
    satisfies [P]. *)
Definition otherPosition (target : jsstring) (T : list Pinyin.Syllable) (i : nat)
    (P : Pinyin.Syllable -> Prop) : Prop :=
  exists j Tj, (j < length target)%nat /\ j <> i /\ T !! j = Some Tj /\ P Tj.

(** ** Examples used below *)

(** The idioms U+4E00 U+5E06 U+98CE U+987A and U+98CE U+8C03 U+96E8 U+987A
    with their pinyin. *)
Definition yiFanFengShun : jsstring := [19968; 24070; 39118; 39034]%N.
Definition yiFanFengShun_pinyin : jsstring :=
  js "y" ++ [299%N] ++ js " f" ++ [257%N] ++ js "n f" ++ [275%N] ++ js "ng sh"
     ++ [249%N] ++ js "n".
Definition fengTiaoYuShun : jsstring := [39118; 35843; 38632; 39034]%N.
Definition fengTiaoYuShun_pinyin : jsstring :=
  js "f" ++ [275%N] ++ js "ng ti" ++ [225%N] ++ js "o y" ++ [468%N] ++ js " sh"
     ++ [249%N] ++ js "n".

(** Code-unit order, the order [localeCompare] gives to ids written with
    ASCII digits; it stands for the collation of the host in the examples. *)
Fixpoint codeUnitCompare (a b : jsstring) : Z :=
  match a, b with
  | [], [] => 0
  | [], _ :: _ => -1
  | _ :: _, [] => 1
  | x :: a', y :: b' =>
      if (x <? y)%N then -1 else if (y <? x)%N then 1 else codeUnitCompare a' b'
  end.

(** A collation is consistent when it is a total preorder. *)
Definition consistent (localeCompare : jsstring -> jsstring -> Z) : Prop :=
  (forall a b, localeCompare a b <= 0 \/ localeCompare b a <= 0) /\
  (forall a b c, localeCompare a b <= 0 -> localeCompare b c <= 0 ->
                 localeCompare a c <= 0).

(** The order of the ranking under the key [games]. *)
Definition gamesOrder (localeCompare : jsstring -> jsstring -> Z)
    (a b : Leaderboard.Player) : Prop :=
  Leaderboard.pl_gamesPlayed b < Leaderboard.pl_gamesPlayed a \/
  (Leaderboard.pl_gamesPlayed a = Leaderboard.pl_gamesPlayed b /\
   (Leaderboard.pl_wins b < Leaderboard.pl_wins a \/
    (Leaderboard.pl_wins a = Leaderboard.pl_wins b /\
     localeCompare (Leaderboard.userId a) (Leaderboard.userId b) <= 0))).

(** [ranking] lists its rows in the order [R]. *)
Definition orderedBy (R : Leaderboard.Player -> Leaderboard.Player -> Prop)
    (ranking : list Leaderboard.Player) : Prop :=
  forall i j a b, (i < j)%nat -> ranking !! i = Some a -> ranking !! j = Some b -> R a b.

(** Two group tables with the players "1" and "2", who played three games
    each; "2" won once. *)
Definition tieTable : Leaderboard.Table :=
  [ (js "1", {| Leaderboard.nickname := js "A"; Leaderboard.wins := 0;
                Leaderboard.gamesPlayed := 3 |});
    (js "2", {| Leaderboard.nickname := js "B"; Leaderboard.wins := 1;
                Leaderboard.gamesPlayed := 3 |}) ].
Definition tieFiles : Leaderboard.Files := [ (js "g1", tieTable) ].

(** ** Vocabulary of [recordGameResult] *)

(** The ids of the participants that have one. *)
Definition participantIds (participants : list Leaderboard.Participant)
  : list jsstring :=
  omap Leaderboard.p_userId participants.

(** The nickname given by the first participant with the id [id]. *)
Fixpoint firstNickname (id : jsstring) (participants : list Leaderboard.Participant)
  : option jsstring :=
  match participants with
  | [] => None
  | p :: rest =>
      if decide (Leaderboard.p_userId p = Some id) then Leaderboard.p_nickname p
      else firstNickname id rest
  end.

(** The counters of a player in a table, 0 for a player without entry. *)
Definition gamesOf (id : jsstring) (t : Leaderboard.Table) : Z :=
  default 0 (Leaderboard.gamesPlayed <$> Obj.get id t).
Definition winsOf (id : jsstring) (t : Leaderboard.Table) : Z :=
  default 0 (Leaderboard.wins <$> Obj.get id t).
Definition nicknameOf (id : jsstring) (t : Leaderboard.Table) : option jsstring :=
  Leaderboard.nickname <$> Obj.get id t.

(** The entry a participant met for the first time in the call gets. *)
Definition played (t : Leaderboard.Table) (id : jsstring) (nick : option jsstring)
  : Leaderboard.Entry :=
  {| Leaderboard.nickname := Leaderboard._normalizeNickname nick id;
     Leaderboard.wins := winsOf id t;
     Leaderboard.gamesPlayed := gamesOf id t + 1 |}.

Definition indicator (P : Prop) `{Decision P} : Z := if decide P then 1 else 0.

(** The name that a table is to show for the player [id] who came with the
    nickname [given]: the nickname without the white space around it, and
    the two characters U+73A9 U+5BB6 followed by the id when no nickname
    came or it is blank. *)
Definition displayName (given : option jsstring) (id : jsstring) : jsstring :=
  match given with
  | Some n => if decide (trim n = []) then [29609%N; 23478%N] ++ id else trim n
  | None => [29609%N; 23478%N] ++ id
  end.

(** What one call of [recordGameResult] does to the entry of [id]. *)
Definition recorded (t t' : Leaderboard.Table)
    (participants : list Leaderboard.Participant)
    (winnerId : option jsstring) (winnerName id : jsstring) : Prop :=
  let ids := participantIds participants in
  gamesOf id t' = gamesOf id t + indicator (id ∈ ids)
                  + indicator (winnerId = Some id /\ id ∉ ids) /\
  winsOf id t' = winsOf id t + indicator (winnerId = Some id) /\
  (id ∈ ids -> winnerId <> Some id ->
   nicknameOf id t' = Some (displayName (firstNickname id participants) id)) /\
  (winnerId = Some id ->
   nicknameOf id t'
   = Some (displayName
             (match winnerName with
              | [] => if decide (id ∈ ids)
                      then Some (displayName (firstNickname id participants) id)
                      else nicknameOf id t
              | _ => Some winnerName
              end) id)) /\
  (id ∉ ids -> winnerId <> Some id -> Obj.get id t' = Obj.get id t) /\
  (id ∈ ids \/ winnerId = Some id -> is_Some (Obj.get id t')).

(** ** Examples for the session store *)

(** Private messages of the users 10001 and 10002 (no group). *)
Definition privateEvent (user : jsstring) : GameBase.Event :=
  {| GameBase.group_id := None; GameBase.user_id := Some user;
     GameBase.sender_user_id := Some user; GameBase.sender_card := None;
     GameBase.sender_nickname := None |}.
Definition alice : GameBase.Event := privateEvent (js "10001").
Definition bob : GameBase.Event := privateEvent (js "10002").

(** A message of the user 10001 in the group 777. *)
Definition groupEvent : GameBase.Event :=
  {| GameBase.group_id := Some (js "777"); GameBase.user_id := Some (js "10001");
     GameBase.sender_user_id := Some (js "10001"); GameBase.sender_card := Some (js "Al");
     GameBase.sender_nickname := None |}.

(** A store with a client and no record, and no leaderboard file. *)
Definition emptyWorld : GameBase.World :=
  {| GameBase.redis := Some ∅; GameBase.files := [] |}.

(** The world after 10001 has started an idiom game in private. *)
Definition aliceStarted : GameBase.World :=
  (IdiomGame.startNewIdiomGame (fun _ => None) emptyWorld alice
     (Some yiFanFengShun) 0).1.

(** A running five-letter word game. *)
Definition eraseGame : DB.GameData :=
  {| DB.targetWord := js "erase"; DB.targetPinyin := None; DB.guesses := [js "speed"];
     DB.guessesPinyin := None; DB.attempts := 1; DB.maxAttempts := 8;
     DB.finished := false; DB.startTime := 0; DB.letterCount := 5;
     DB.gameType := None; DB.participants := [(js "10001", js "Al")] |}.

(** The group 777 in the middle of that game. *)
Definition groupWorld : GameBase.World :=
  {| GameBase.redis := Some {[ DB.gameKeyOf (Some (js "777")) := eraseGame ]};
     GameBase.files := [] |}.

End Props.

(** ** Vocabulary of the further properties of the scorers *)

Module ScoreProps.
Import Scoring.

Definition isPresentMark (c : codeunit) (x : Cell) : bool :=
  bool_decide (letter x = Some c) && bool_decide (status x = present).

Definition isPendingCell (c : codeunit) (x : Cell) : bool :=
  bool_decide (letter x = Some c) && bool_decide (status x = pending).

Definition presentMarks (c : codeunit) (result : list Cell) : nat :=
  length (List.filter (isPresentMark c) result).

Definition pendingCells (c : codeunit) (result : list Cell) : nat :=
  length (List.filter (isPendingCell c) result).

(** Positions of the target where the guess and the target both have [c]. *)
Fixpoint matched (c : codeunit) (guess target : jsstring) : nat :=
  match target with
  | [] => 0
  | t :: target' =>
      ((if bool_decide (head guess = Some c) && bool_decide (t = c) then 1 else 0)
       + matched c (tail guess) target')%nat
  end.

(** Positions of the target where the guess has [c] and the target has
    another symbol. *)
Fixpoint unmatchedInGuess (c : codeunit) (guess target : jsstring) : nat :=
  match target with
  | [] => 0
  | t :: target' =>
      ((if bool_decide (head guess = Some c) && negb (bool_decide (t = c)) then 1 else 0)
       + unmatchedInGuess c (tail guess) target')%nat
  end.

(** Positions of the target where the target has [c] and the guess has not. *)
Fixpoint unmatchedInTarget (c : codeunit) (guess target : jsstring) : nat :=
  match target with
  | [] => 0
  | t :: target' =>
      ((if bool_decide (t = c) && negb (bool_decide (head guess = Some c)) then 1 else 0)
       + unmatchedInTarget c (tail guess) target')%nat
  end.

(** The counts of a scored result are the ones of the game: [correct] where
    guess and target agree, and [present] for as many of the remaining
    occurrences in the guess as the target has remaining occurrences. *)
Definition exact_counts (result : list Cell) (guess target : jsstring) : Prop :=
  forall c,
    Props.correctMarks c result = matched c guess target /\
    presentMarks c result
    = Nat.min (unmatchedInGuess c guess target) (unmatchedInTarget c guess target).

(** What a cell shows on the board: its symbol and its colour. *)
Definition shown (x : Cell) : option (option codeunit) * option codeunit * Status :=
  (char x, letter x, status x).

End ScoreProps.

Module ScoreProps2.
Import Scoring.

(** The cell at [i] is [correct] exactly when guess and target agree at
    [i]. *)
Definition correct_in_place (result : list Cell) (guess target : jsstring) : Prop :=
  forall i x, result !! i = Some x ->
    (status x = correct <-> guess !! i = target !! i).

Definition all_correct (result : list Cell) : Prop :=
  Forall (fun x => status x = correct) result.

(** No symbol of the guess occurs in the target. *)
Definition disjoint_symbols (guess target : jsstring) : Prop :=
  forall c, c ∈ guess -> c ∉ target.

(** The feedback on one component of the syllables (initial or final) at a
    position: [correct] when guess and target agree there, else [present]
    when the guess's component is the one of the target syllable of another
    position, else [absent]. *)
Definition component_feedback {A} (proj : Pinyin.Syllable -> A)
    (target : jsstring) (T : list Pinyin.Syllable) (i : nat)
    (Gi Ti : Pinyin.Syllable) (st : option Status) : Prop :=
  (proj Gi = proj Ti -> st = Some correct) /\
  (proj Gi <> proj Ti ->
     (Props.otherPosition target T i (fun Tj => proj Tj = proj Gi) -> st = Some present) /\
     (~ Props.otherPosition target T i (fun Tj => proj Tj = proj Gi) -> st = Some absent)).

End ScoreProps2.

(** ** Vocabulary of the properties of the pinyin parser *)

Module PinyinProps.
Import Pinyin.

(** A toned vowel without its mark; any other code unit as it is. *)
Definition unmark (c : codeunit) : codeunit := default c (baseMap c).

(** The tone of the last toned vowel of a text. *)
Definition lastTone (text : jsstring) : option Z := last (omap toneMap text).

(** The tone the parser is to find: the one of the last toned vowel, else
    the trailing digit 1 to 4, else 0. *)
Definition expectedTone (text : jsstring) : Z :=
  match lastTone text with
  | Some t => t
  | None => default 0 (toneMatch text)
  end.

(** The letters the parser is to split: the text without tone marks, or,
    when it has none, without its trailing tone digit. *)
Definition plainLetters (text : jsstring) : jsstring :=
  match lastTone text with
  | Some _ => List.map unmark text
  | None => match toneMatch text with
            | Some _ => removelast text
            | None => text
            end
  end.

(** No entry of the table hides a longer, later entry that extends it. *)
Fixpoint noShadow (inits : list jsstring) : bool :=
  match inits with
  | [] => true
  | p :: rest =>
      forallb (fun q => negb (startsWith q p && (length p <? length q)%nat)) rest
      && noShadow rest
  end.

Definition isBlank (text : jsstring) : Prop :=
  Forall (fun c => isWhiteSpace c = true) text.

Definition blankFree (text : jsstring) : Prop :=
  Forall (fun c => isWhiteSpace c = false) text.

Definition emptySyllable : Syllable := {| initial := []; final := []; tone := 0 |}.

End PinyinProps.

Module PinyinProps2.
Import Pinyin PinyinProps.

(** The syllable of a text that is already trimmed. *)
Definition parsed (text : jsstring) : Syllable :=
  let '(initial, final) := matchInitial initials (plainLetters text) in
  {| initial := initial; final := final; tone := expectedTone text |}.

(** [text] neither starts nor ends with white space. *)
Definition startsNonBlank (text : jsstring) : Prop :=
  match text with
  | [] => False
  | c :: _ => isWhiteSpace c = false
  end.

Definition endsNonBlank (text : jsstring) : Prop :=
  match last text with
  | Some c => isWhiteSpace c = false
  | None => False
  end.

End PinyinProps2.

(** ** Further leaderboard code and its vocabulary *)

Module LeaderboardMore.
Import Leaderboard.

(** What [getPlayerStats] returns for a player with an entry. *)
Record Stats := {
  st_nickname : jsstring;
  st_wins : Z;
  st_gamesPlayed : Z;
  st_winRate : Z
}.

Definition getPlayerStats (files : Files) (groupId : option jsstring)
    (userId : jsstring) : option Stats :=
  let leaderboard := _readLeaderboard files groupId in
  match Obj.get userId leaderboard with
  | None => None
  | Some data =>
      Some {| st_nickname := nickname data;
              st_wins := wins data;
              st_gamesPlayed := gamesPlayed data;
              st_winRate := _calculateWinRate (wins data) (gamesPlayed data) |}
  end.

(** Every entry has won at most as often as it has played. *)
Definition sound (t : Table) : Prop :=
  forall id e, Obj.get id t = Some e -> 0 <= wins e <= gamesPlayed e.

(** The order of the ranking under the key [wins], which is also the order
    for any key other than [games] and [rate]. *)
Definition winsOrder (localeCompare : jsstring -> jsstring -> Z) (a b : Player) : Prop :=
  pl_wins b < pl_wins a \/
  (pl_wins a = pl_wins b /\
   (pl_gamesPlayed b < pl_gamesPlayed a \/
    (pl_gamesPlayed a = pl_gamesPlayed b /\
     localeCompare (userId a) (userId b) <= 0))).

(** The order of the ranking under the key [rate]. *)
Definition rateOrder (localeCompare : jsstring -> jsstring -> Z) (a b : Player) : Prop :=
  winRate b < winRate a \/
  (winRate a = winRate b /\
   (pl_gamesPlayed b < pl_gamesPlayed a \/
    (pl_gamesPlayed a = pl_gamesPlayed b /\
     localeCompare (userId a) (userId b) <= 0))).

(** The rows a ranking chooses from. *)
Definition eligible (sortBy : jsstring) (players : list Player) : list Player :=
  if decide (sortBy = js "rate")
  then List.filter (fun player => 3 <=? pl_gamesPlayed player) players
  else players.

(** [ranking] holds the first [limit] rows, or all of them, of some
    arrangement of [rows]. *)
Definition top_of (ranking rows : list Player) (limit : Z) : Prop :=
  Z.of_nat (length ranking) = Z.min limit (Z.of_nat (length rows)) /\
  exists rest, Permutation (ranking ++ rest) rows.




End LeaderboardMore.

(** ** Starting and ending a game, and runs of commands *)

(** [startNewGame] of the word game ([utils/games/word.js]). *)
Module WordStart.
Import DB GameBase.

(** [this.adaptiveAttempts[letterCount] || 6] *)
Definition adaptiveAttempts (letterCount : Z) : Z :=
  match letterCount with
  | 3 => 5 | 4 => 6 | 5 => 8 | 6 => 8 | 7 => 10 | 8 => 12 | 9 => 13 | 10 => 15
  | _ => 6
  end.

(** What a call of [startNewGame] came to.  [Crashed]: the list of
    dictionaries is empty, and reading [currentDictInfo.name] throws before
    anything is saved. *)
Inductive StartOutcome := AlreadyRunning | NoWord | Crashed | Started.

(** [randomWord] is what [getRandomWord(letterCount, groupId)] returns,
    [noDictionary] tells whether [getAvailableDictionaries()] is empty, [now]
    is [Date.now()]. *)
Definition startNewGame (w : World) (e : Event) (letterCount : Z)
    (targetWord randomWord : option jsstring) (noDictionary : bool) (now : Z)
  : World * StartOutcome :=
  let ctx := _getGameContext e in
  let running :=
    match getGameData (redis w) (GameBase.groupId ctx) with
    | Some existingGame => negb (finished existingGame)
    | None => false
    end in
  if running then (w, AlreadyRunning)
  else
    let targetWord := if truthy targetWord then targetWord else randomWord in
    if negb (truthy targetWord) then (w, NoWord)
    else if noDictionary then (w, Crashed)
    else
      let gameData :=
        {| targetWord := toStr targetWord;
           targetPinyin := None;
           guesses := [];
           guessesPinyin := None;
           attempts := 0;
           maxAttempts := adaptiveAttempts letterCount;
           finished := false;
           startTime := now;
           letterCount := letterCount;
           gameType := None;
           participants := [] |} in
      ({| redis := fst (saveGameData (redis w) (GameBase.groupId ctx) gameData);
          files := files w |}, Started).

End WordStart.

(** [giveUpGame], the same in the word game and in the idiom game up to the
    text of the reply.  The deletion it schedules is the command
    [TimerDelete] below. *)
Module GiveUp.
Import DB GameBase.

Definition giveUpGame (w : World) (e : Event) : World * bool :=
  let ctx := _getGameContext e in
  match getGameData (redis w) (GameBase.groupId ctx) with
  | None => (w, false)
  | Some currentGame =>
      if finished currentGame then (w, false)
      else
        let currentGame :=
          {| targetWord := targetWord currentGame;
             targetPinyin := targetPinyin currentGame;
             guesses := guesses currentGame;
             guessesPinyin := guessesPinyin currentGame;
             attempts := attempts currentGame;
             maxAttempts := maxAttempts currentGame;
             finished := true;
             startTime := startTime currentGame;
             letterCount := letterCount currentGame;
             gameType := gameType currentGame;
             participants := participants currentGame |} in
        ({| redis := fst (saveGameData (redis w) (GameBase.groupId ctx) currentGame);
            files := _updateLeaderboardStats (files w) e currentGame None |}, true)
  end.

End GiveUp.

(** What the handlers of the word game and of the idiom game do to the
    world, one call after the other. *)
Module Sessions.
Import DB GameBase.

Inductive Command :=
  | StartIdiom (e : Event) (targetIdiom : option jsstring) (now : Z)
  | StartWord (e : Event) (letterCount : Z) (targetWord randomWord : option jsstring)
              (noDictionary : bool) (now : Z)
  | GuessIdiom (e : Event) (guess : jsstring) (groupId userId : option jsstring)
  | GuessWord (e : Event) (guess : jsstring) (groupId userId : option jsstring)
  | GiveUpGame (e : Event)
  (** the [deleteGameData] that a finished game schedules with [setTimeout] *)
  | TimerDelete (groupId : option jsstring).

Section WithCorpus.
Variable toLowerCase : jsstring -> jsstring.
Variable isValidWord : jsstring -> Z -> bool.
Variable isValidIdiom : jsstring -> bool.
Variable getIdiomPinyin : jsstring -> option jsstring.

Definition step (w : World) (c : Command) : World :=
  match c with
  | StartIdiom e targetIdiom now =>
      (IdiomGame.startNewIdiomGame getIdiomPinyin w e targetIdiom now).1
  | StartWord e letterCount targetWord randomWord noDictionary now =>
      (WordStart.startNewGame w e letterCount targetWord randomWord noDictionary now).1
  | GuessIdiom e guess groupId userId =>
      (IdiomGame.processGuess isValidIdiom getIdiomPinyin w e guess groupId userId).1
  | GuessWord e guess groupId userId =>
      (WordGame.processGuess toLowerCase isValidWord w e guess groupId userId).1
  | GiveUpGame e => (GiveUp.giveUpGame w e).1
  | TimerDelete groupId =>
      {| redis := (deleteGameData (redis w) groupId).1; files := files w |}
  end.

Definition run (w : World) (commands : list Command) : World :=
  foldl step w commands.

End WithCorpus.

(** The scope whose record a command reads and writes. *)
Definition scopeOf (c : Command) : option jsstring :=
  match c with
  | StartIdiom e _ _ | StartWord e _ _ _ _ _ | GiveUpGame e =>
      GameBase.groupId (_getGameContext e)
  | GuessIdiom e _ groupId _ | GuessWord e _ groupId _ =>
      orElse groupId (GameBase.groupId (_getGameContext e))
  | TimerDelete groupId => groupId
  end.


Definition isTimer (c : Command) : bool :=
  match c with TimerDelete _ => true | _ => false end.

(** A record is in order: its guesses are counted, and it is finished once
    the attempts are used up. *)
Definition session_ok (g : GameData) : Prop :=
  attempts g = Z.of_nat (length (guesses g)) /\
  attempts g <= maxAttempts g /\
  (finished g = false -> attempts g < maxAttempts g).

Definition store_ok (r : Redis) : Prop :=
  match r with
  | None => True
  | Some store => map_Forall (fun _ g => session_ok g) store
  end.

(** The counters of the group's table move as a finished game with the
    participants [ps] and the winner [winnerId] asks for. *)
Definition credited (t t' : Leaderboard.Table) (ps : Obj.t jsstring)
    (winnerId : option jsstring) : Prop :=
  forall id,
    Props.winsOf id t' = Props.winsOf id t + Props.indicator (winnerId = Some id) /\
    Props.gamesOf id t'
    = Props.gamesOf id t
      + Props.indicator (id ∈ Obj.keys ps \/ winnerId = Some id).

End Sessions.

(** ** Group settings ([utils/data/db.js]) *)

(** The entries of [global.redis] that hold plain strings: the whitelist and
    the choice of the word bank.  They live in the same store as the game
    records, under prefixes of their own. *)
Module Settings.

Definition Store := option (gmap jsstring jsstring).

Definition WORDBANK_KEY_PREFIX : jsstring := js "wordle:wordbank:".
Definition WHITELIST_KEY_PREFIX : jsstring := js "wordle:whitelist:".

Definition getWordbankSelection (redis : Store) (groupId : option jsstring) : jsstring :=
  match redis with
  | None => js "CET4"
  | Some store =>
      let key := WORDBANK_KEY_PREFIX ++ toStr groupId in
      let wordbank := store !! key in
      if truthy wordbank then toStr wordbank else js "CET4"
  end.

Definition setWordbankSelection (redis : Store) (groupId : option jsstring)
    (dictionaryName : jsstring) : Store * bool :=
  match redis with
  | None => (None, false)
  | Some store =>
      let key := WORDBANK_KEY_PREFIX ++ toStr groupId in
      (Some (<[key := dictionaryName]> store), true)
  end.

Definition isGroupEnabled (redis : Store) (groupId : option jsstring) : bool :=
  match redis with
  | None => false
  | Some store =>
      let key := WHITELIST_KEY_PREFIX ++ toStr groupId in
      let enabled := store !! key in
      bool_decide (enabled = Some (js "1"))
  end.

Definition enableGroup (redis : Store) (groupId : option jsstring) : Store * bool :=
  match redis with
  | None => (None, false)
  | Some store =>
      let key := WHITELIST_KEY_PREFIX ++ toStr groupId in
      (Some (<[key := js "1"]> store), true)
  end.

Definition disableGroup (redis : Store) (groupId : option jsstring) : Store * bool :=
  match redis with
  | None => (None, true)
  | Some store =>
      let key := WHITELIST_KEY_PREFIX ++ toStr groupId in
      (Some (delete key store), true)
  end.

End Settings.

(** ** The format check of equations ([utils/data/equation.js]) *)

Module EquationFormat.

Definition equalsSign : codeunit := 61%N.

(** The class [[0-9+\-*/\*\*=]]. *)
Definition inClass (c : codeunit) : bool :=
  ((48 <=? c) && (c <=? 57))%N
  || bool_decide (c ∈ [43%N; 45%N; 42%N; 47%N; 61%N]).

(** [/^[0-9+\-*/\*\*=]+$/.test(s)] *)
Definition test (s : jsstring) : bool :=
  match s with
  | [] => false
  | _ => forallb inClass s
  end.

(** [s.includes(c)] for a one-unit [c]. *)
Definition includes (s : jsstring) (c : codeunit) : bool :=
  existsb (fun x => bool_decide (x = c)) s.

(** [s.split(sep)] for a one-unit separator. *)
Fixpoint split (s : jsstring) (sep : codeunit) : list jsstring :=
  match s with
  | [] => [[]]
  | c :: s' =>
      if decide (c = sep) then [] :: split s' sep
      else match split s' sep with
           | part :: parts => (c :: part) :: parts
           | [] => [[c]]
           end
  end.

(** [equation] is [None] for a value that is not a string. *)
Definition isValidEquation (equation : option jsstring) : bool :=
  if negb (truthy equation) then false
  else
    let equation := toStr equation in
    if negb (includes equation equalsSign) then false
    else if negb (test equation) then false
    else
      let parts := split equation equalsSign in
      if negb (length parts =? 2)%nat then false else true.

(** The digits and the four operator signs. *)
Definition isTerm (s : jsstring) : Prop :=
  Forall (fun c => (48 <= c <= 57)%N \/ c ∈ [43%N; 45%N; 42%N; 47%N]) s.

End EquationFormat.

(** ** The status of the letters of the keyboard ([utils/utils.js]) *)

Module LetterStatus.
Import Scoring.

(** The values of the map: the strings [unknown], [correct], [present] and
    [absent]. *)
Inductive Value := Unknown | Correct | Present | Absent.

#[global] Instance Value_eq_dec : EqDecision Value.
Proof. solve_decision. Defined.

Definition alphabet : jsstring := js "abcdefghijklmnopqrstuvwxyz".

(** [for (const letter of alphabet) letterStatus.set(letter, 'unknown')] *)
Definition initialStatus : gmap codeunit Value :=
  foldl (fun letterStatus letter => <[letter := Unknown]> letterStatus) ∅ alphabet.

(** The three-way [if] on the status of a cell; [None] is a missing status,
    which like [pending] meets no branch. *)
Definition noteCell (letterStatus : gmap codeunit Value) (letter : codeunit)
    (status : option Status) : gmap codeunit Value :=
  match status with
  | Some correct => <[letter := Correct]> letterStatus
  | Some present =>
      if decide (letterStatus !! letter = Some Correct) then letterStatus
      else <[letter := Present]> letterStatus
  | Some absent =>
      if decide (letterStatus !! letter = Some Unknown)
      then <[letter := Absent]> letterStatus
      else letterStatus
  | _ => letterStatus
  end.

(** The inner loop of [getLetterStatus]; [guess] and [result] are the
    suffixes from position [i].  [None]: [result[i]] is [undefined], and
    reading its [status] throws. *)
Fixpoint noteGuess (guess : jsstring) (result : list Cell)
    (letterStatus : gmap codeunit Value) : option (gmap codeunit Value) :=
  match guess with
  | [] => Some letterStatus
  | letter :: guess' =>
      match result with
      | [] => None
      | cell :: result' =>
          noteGuess guess' result' (noteCell letterStatus letter (Some (status cell)))
      end
  end.

(** The inner loop of [getLetterStatusFromResults], which reads
    [res[i]?.status || 'unknown']. *)
Fixpoint noteResult (guess : jsstring) (res : list Cell)
    (letterStatus : gmap codeunit Value) : gmap codeunit Value :=
  match guess with
  | [] => letterStatus
  | letter :: guess' =>
      noteResult guess' (tail res) (noteCell letterStatus letter (status <$> head res))
  end.

(** The outer loop of [getLetterStatusFromResults]; [results] is the suffix
    from [gi], and [resultsArray[gi] || []] its head. *)
Fixpoint resultsLoop (guesses : list jsstring) (results : list (list Cell))
    (letterStatus : gmap codeunit Value) : gmap codeunit Value :=
  match guesses with
  | [] => letterStatus
  | guess :: rest =>
      resultsLoop rest (tail results)
        (noteResult guess (default [] (head results)) letterStatus)
  end.

Definition getLetterStatusFromResults (guesses : list jsstring)
    (results : list (list Cell)) : gmap codeunit Value :=
  resultsLoop guesses results initialStatus.

Section WithToLowerCase.
Variable toLowerCase : jsstring -> jsstring.

Fixpoint guessesLoop (guesses : list jsstring) (targetWord : jsstring)
    (letterStatus : gmap codeunit Value) : option (gmap codeunit Value) :=
  match guesses with
  | [] => Some letterStatus
  | guess :: rest =>
      let result := Utils.checkGuess toLowerCase guess targetWord Utils.word in
      match noteGuess guess result letterStatus with
      | Some letterStatus => guessesLoop rest targetWord letterStatus
      | None => None
      end
  end.

Definition getLetterStatus (guesses : list jsstring) (targetWord : jsstring)
  : option (gmap codeunit Value) :=
  guessesLoop guesses targetWord initialStatus.

End WithToLowerCase.

(** *** Vocabulary *)

(** Some guess has [c] where the target has it. *)
Definition inPlace (c : codeunit) (guesses : list jsstring) (target : jsstring) : bool :=
  existsb (fun guess =>
             existsb (fun '(g, t) => bool_decide (g = c) && bool_decide (t = c))
                     (zip guess target))
          guesses.

(** Some guess has [c]. *)
Definition guessed (c : codeunit) (guesses : list jsstring) : bool :=
  existsb (fun guess => bool_decide (c ∈ guess)) guesses.

(** The colour a key of the keyboard is to have. *)
Definition keyboard (c : codeunit) (guesses : list jsstring) (target : jsstring)
  : option Value :=
  if inPlace c guesses target then Some Correct
  else if guessed c guesses && bool_decide (c ∈ target) then Some Present
  else if bool_decide (c ∈ alphabet)
       then Some (if guessed c guesses then Absent else Unknown)
       else None.

(** What [noteCell] does to the value of a letter. *)
Definition upd (v : option Value) (st : Status) : option Value :=
  match st with
  | correct => Some Correct
  | present => if decide (v = Some Correct) then v else Some Present
  | absent => if decide (v = Some Unknown) then Some Absent else v
  | pending => v
  end.

(** The statuses of the cells of [result] at the positions where [guess]
    has [c]. *)
Fixpoint seen (c : codeunit) (guess : jsstring) (result : list Cell) : list Status :=
  match guess, result with
  | letter :: guess', cell :: result' =>
      (if decide (letter = c) then [status cell] else []) ++ seen c guess' result'
  | _, _ => []
  end.

End LetterStatus.

(** ** The two passes *)

Section TwoPassFacts.
Import Scoring Props.
Variable withChar : bool.
Variable pinyinAt : nat -> option PinyinInfo.

Lemma freqGet_insert_eq freq c v : freqGet (<[c := v]> freq) (Some c) = v.
Proof. simpl. by rewrite lookup_insert_eq. Qed.

Lemma freqGet_insert_ne freq c c' v :
  c <> c' -> freqGet (<[c := v]> freq) (Some c') = freqGet freq (Some c').
Proof. intros H. simpl. by rewrite lookup_insert_ne. Qed.

Lemma firstPass_length target : forall i guess freq,
  length (firstPass withChar pinyinAt i guess target freq).1 = length target.
Proof.
  induction target as [|t target IH]; intros i guess freq; simpl; [done|].
  case_decide.
  - specialize (IH (S i) (tail guess) freq).
    destruct (firstPass _ _ _ _ _ _); simpl in *. by rewrite IH.
  - specialize (IH (S i) (tail guess) (<[t := freqGet freq (Some t) + 1]> freq)).
    destruct (firstPass _ _ _ _ _ _); simpl in *. by rewrite IH.
Qed.

Lemma firstPass_aligned target : forall i guess freq,
  aligned (firstPass withChar pinyinAt i guess target freq).1 guess.
Proof.
  induction target as [|t target IH]; intros i guess freq; simpl; [done|].
  case_decide.
  - specialize (IH (S i) (tail guess) freq).
    destruct (firstPass _ _ _ _ _ _); simpl in *. done.
  - specialize (IH (S i) (tail guess) (<[t := freqGet freq (Some t) + 1]> freq)).
    destruct (firstPass _ _ _ _ _ _); simpl in *. done.
Qed.

Lemma firstPass_pinyin target : forall i guess freq k x,
  (firstPass withChar pinyinAt i guess target freq).1 !! k = Some x ->
  pinyin x = pinyinAt (i + k)%nat /\
  char x = (if withChar then Some (letter x) else None).
Proof.
  induction target as [|t target IH]; intros i guess freq k x; simpl; [done|].
  case_decide.
  - specialize (IH (S i) (tail guess) freq).
    destruct (firstPass _ _ _ _ _ _) as [res f]; simpl in *.
    destruct k as [|k]; simpl.
    + intros [= <-]. simpl. by rewrite Nat.add_0_r.
    + intros Hk. apply IH in Hk. by rewrite Nat.add_succ_r.
  - specialize (IH (S i) (tail guess) (<[t := freqGet freq (Some t) + 1]> freq)).
    destruct (firstPass _ _ _ _ _ _) as [res f]; simpl in *.
    destruct k as [|k]; simpl.
    + intros [= <-]. simpl. by rewrite Nat.add_0_r.
    + intros Hk. apply IH in Hk. by rewrite Nat.add_succ_r.
Qed.

Lemma count_cons {A} (f : A -> bool) (x : A) (l : list A) :
  length (List.filter f (x :: l))
  = ((if f x then 1 else 0) + length (List.filter f l))%nat.
Proof. simpl. by destruct (f x). Qed.

(** After the first pass every cell is [correct] or [pending], and for
    each symbol the counter has grown by the number of its occurrences in
    the target that were not matched in place. *)
Lemma firstPass_count c target : forall i guess freq,
  let '(result, freq') := firstPass withChar pinyinAt i guess target freq in
  Forall (fun x => status x = correct \/ status x = pending) result /\
  freqGet freq (Some c) <= freqGet freq' (Some c) /\
  freqGet freq' (Some c) + Z.of_nat (correctMarks c result)
    = freqGet freq (Some c) + Z.of_nat (occurrences c target).
Proof.
  induction target as [|t target IH]; intros i guess freq.
  - cbn [firstPass]. split; [constructor|]. unfold correctMarks, occurrences.
    cbn [List.filter length]. lia.
  - cbn [firstPass]. case_decide as Hg.
    + specialize (IH (S i) (tail guess) freq).
      destruct (firstPass _ _ _ _ _ _) as [res f].
      destruct IH as (Hst & Hle & Heq). split; [|split]; [|done|].
      * constructor; [by left | done].
      * unfold correctMarks, occurrences in *. rewrite !count_cons.
        unfold isCorrectMark at 1. cbn [mkCell letter status]. rewrite Hg.
        destruct (decide (t = c)) as [->|Hne].
        -- rewrite !bool_decide_eq_true_2 by done. cbn [andb]. lia.
        -- rewrite (bool_decide_eq_false_2 (Some t = Some c)) by congruence.
           rewrite (bool_decide_eq_false_2 (t = c)) by done. cbn [andb]. lia.
    + specialize (IH (S i) (tail guess) (<[t := freqGet freq (Some t) + 1]> freq)).
      destruct (firstPass _ _ _ _ _ _) as [res f].
      destruct IH as (Hst & Hle & Heq).
      assert (Hc : correctMarks c (mkCell withChar pinyinAt i (head guess) pending :: res)
                   = correctMarks c res).
      { unfold correctMarks. rewrite count_cons. unfold isCorrectMark at 1.
        cbn [mkCell letter status].
        rewrite (bool_decide_eq_false_2 (pending = correct)) by done.
        by rewrite andb_false_r. }
      rewrite Hc. split; [|split].
      * constructor; [by right | done].
      * destruct (decide (t = c)) as [->|Hne].
        -- rewrite freqGet_insert_eq in Hle. lia.
        -- by rewrite freqGet_insert_ne in Hle.
      * unfold occurrences in *. rewrite count_cons.
        destruct (decide (t = c)) as [->|Hne].
        -- rewrite freqGet_insert_eq in Heq.
           rewrite bool_decide_eq_true_2 by done. lia.
        -- rewrite freqGet_insert_ne in Heq by done.
           rewrite bool_decide_eq_false_2 by done. lia.
Qed.

(** The second pass turns every [pending] cell into [present] or
    [absent], and hands out at most [freq[c]] marks [present] for [c]. *)
Lemma secondPass_count c result : forall guess freq,
  aligned result guess ->
  Forall (fun x => status x = correct \/ status x = pending) result ->
  0 <= freqGet freq (Some c) ->
  Z.of_nat (marks c (secondPass guess result freq))
    <= Z.of_nat (correctMarks c result) + freqGet freq (Some c).
Proof.
  induction result as [|r result IH]; intros guess freq Hal Hst Hf.
  - unfold marks, correctMarks. cbn [secondPass List.filter length]. lia.
  - destruct Hal as [Hl Hal]. inversion Hst as [|? ? Hr Hst']; subst.
    cbn [secondPass]. case_decide as Hp.
    + assert (Hc : correctMarks c (r :: result) = correctMarks c result).
      { unfold correctMarks. rewrite count_cons. unfold isCorrectMark at 1.
        rewrite Hp. rewrite (bool_decide_eq_false_2 (pending = correct)) by done.
        by rewrite andb_false_r. }
      rewrite Hc. destruct (0 <? freqGet freq (head guess)) eqn:Hpos.
      * apply Z.ltb_lt in Hpos. destruct (head guess) as [g|] eqn:Hg;
          [|simpl in Hpos; lia].
        unfold marks. rewrite count_cons. fold (marks c).
        unfold isMark at 1. cbn [setStatus letter status]. rewrite Hl.
        destruct (decide (g = c)) as [->|Hne].
        -- specialize (IH (tail guess) (<[c := freqGet freq (Some c) - 1]> freq) Hal Hst').
           rewrite freqGet_insert_eq in IH.
           rewrite (bool_decide_eq_true_2 (Some c = Some c)) by done.
           rewrite (bool_decide_eq_true_2 (present = present)) by done.
           rewrite orb_true_r. cbn [andb]. unfold marks in *. lia.
        -- specialize (IH (tail guess) (<[g := freqGet freq (Some g) - 1]> freq) Hal Hst').
           rewrite freqGet_insert_ne in IH by done.
           rewrite (bool_decide_eq_false_2 (Some g = Some c)) by congruence.
           cbn [andb]. unfold marks in *. lia.
      * unfold marks. rewrite count_cons. unfold isMark at 1.
        cbn [setStatus letter status].
        rewrite (bool_decide_eq_false_2 (absent = correct)) by done.
        rewrite (bool_decide_eq_false_2 (absent = present)) by done.
        rewrite andb_false_r. specialize (IH (tail guess) freq Hal Hst' Hf).
        unfold marks in IH. lia.
    + destruct Hr as [Hr|Hr]; [|done].
      specialize (IH (tail guess) freq Hal Hst' Hf).
      unfold marks, correctMarks in *. rewrite !count_cons.
      unfold isMark at 1, isCorrectMark at 1. rewrite Hr.
      rewrite (bool_decide_eq_true_2 (correct = correct)) by done.
      cbn [orb]. destruct (bool_decide (letter r = Some c)); cbn [andb]; lia.
Qed.

Lemma secondPass_length result : forall guess freq,
  length (secondPass guess result freq) = length result.
Proof.
  induction result as [|r result IH]; intros guess freq; [done|].
  cbn [secondPass]. case_decide; [destruct (0 <? _)|]; simpl; by rewrite IH.
Qed.

(** Position by position the second pass keeps everything of a cell but a
    [pending] status, which it replaces. *)
Lemma secondPass_lookup result : forall guess freq k x,
  secondPass guess result freq !! k = Some x ->
  exists r, result !! k = Some r /\ letter x = letter r /\ char x = char r /\
            pinyin x = pinyin r /\
            (status r = pending -> status x = present \/ status x = absent) /\
            (status r <> pending -> status x = status r).
Proof.
  induction result as [|r result IH]; intros guess freq k x; [done|].
  cbn [secondPass]. case_decide as Hp.
  - destruct (0 <? _); destruct k as [|k]; simpl.
    + intros [= <-]. exists r. simpl. naive_solver.
    + apply IH.
    + intros [= <-]. exists r. simpl. naive_solver.
    + apply IH.
  - destruct k as [|k]; simpl.
    + intros [= <-]. eexists. split; [done|]. naive_solver.
    + apply IH.
Qed.

Lemma aligned_lookup result : forall guess k x,
  aligned result guess -> result !! k = Some x -> letter x = guess !! k.
Proof.
  induction result as [|r result IH]; intros guess k x Hal; [done|].
  destruct Hal as [Hl Hal]. destruct k as [|k]; simpl.
  - intros [= <-]. rewrite Hl. by destruct guess.
  - intros Hk. rewrite (IH _ _ _ Hal Hk). by destruct guess.
Qed.

(** Duplicate-symbol fairness of the two passes, for any guess. *)
Lemma twoPass_fair c guess target :
  (marks c (twoPass withChar pinyinAt guess target) <= occurrences c target)%nat.
Proof.
  unfold twoPass.
  pose proof (firstPass_count c target 0 guess ∅) as H.
  pose proof (firstPass_aligned target 0 guess ∅) as Hal.
  destruct (firstPass _ _ _ _ _ _) as [res f]. destruct H as (Hst & Hle & Heq).
  simpl in Hal. pose proof (secondPass_count c res guess f Hal Hst) as H2.
  simpl in Hle, Heq. rewrite lookup_empty in Hle, Heq. simpl in *. lia.
Qed.

Lemma twoPass_well_scored guess target :
  length guess = length target ->
  well_scored (twoPass withChar pinyinAt guess target) guess target.
Proof.
  intros Hlen. unfold twoPass, well_scored.
  pose proof (firstPass_count 0%N target 0 guess ∅) as H.
  pose proof (firstPass_aligned target 0 guess ∅) as Hal.
  pose proof (firstPass_length target 0 guess ∅) as Hl1.
  destruct (firstPass _ _ _ _ _ _) as [res f]. destruct H as (Hst & _).
  simpl in Hal, Hl1. split; [by rewrite secondPass_length|].
  intros i Hi.
  destruct (lookup_lt_is_Some_2 (secondPass guess res f) i) as [x Hx];
    [rewrite secondPass_length; lia|].
  destruct (lookup_lt_is_Some_2 guess i) as [g Hg]; [lia|].
  exists x, g. split; [done|]. split; [done|].
  destruct (secondPass_lookup _ _ _ _ _ Hx) as (r & Hr & Hlet & _ & _ & Hpe & Hnp).
  split.
  - rewrite Hlet, (aligned_lookup _ _ _ _ Hal Hr). done.
  - rewrite Forall_forall in Hst.
    assert (Hin : r ∈ res) by (eapply list_elem_of_lookup_2; eauto).
    destruct (Hst r Hin) as [Hc|Hc]; unfold final_status.
    + rewrite Hnp by (rewrite Hc; done). auto.
    + destruct (Hpe Hc); auto.
Qed.

Lemma twoPass_pinyin guess target k x :
  twoPass withChar pinyinAt guess target !! k = Some x ->
  pinyin x = pinyinAt k /\ char x = (if withChar then Some (letter x) else None).
Proof.
  unfold twoPass.
  pose proof (firstPass_pinyin target 0 guess ∅ k) as H.
  destruct (firstPass _ _ _ _ _ _) as [res f]. simpl in H.
  intros Hx. destruct (secondPass_lookup _ _ _ _ _ Hx) as (r & Hr & Hl & Hc & Hp & _).
  destruct (H _ Hr) as [H1 H2]. rewrite Hp, Hc, Hl. done.
Qed.

End TwoPassFacts.

(** ** The scorers *)

Section ScorerFacts.
Import Scoring Props.

Lemma rejected_of_length_mismatch (guess target : jsstring) :
  length guess <> length target -> rejected guess target = true.
Proof.
  intros H. unfold rejected. destruct guess, target; try done.
  apply negb_true_iff, Nat.eqb_neq. done.
Qed.

Lemma guarded_fair c (scored : list Cell) (guess target : jsstring) :
  (marks c scored <= occurrences c target)%nat ->
  (marks c (if rejected guess target then [] else scored) <= occurrences c target)%nat.
Proof. destruct (rejected guess target); [unfold marks; simpl; lia | done]. Qed.

Lemma guarded_well_scored (scored : list Cell) (guess target : jsstring) :
  length guess = length target ->
  well_scored scored guess target ->
  well_scored (if rejected guess target then [] else scored) guess target.
Proof.
  intros Hlen Hw. destruct (rejected guess target) eqn:Hr; [|done].
  assert (target = []) as ->.
  { unfold rejected in Hr. destruct guess, target; try done.
    apply negb_true_iff, Nat.eqb_neq in Hr. done. }
  split; [done|]. simpl. lia.
Qed.

(** The scorers with a guard return the empty array when the lengths
    differ. *)
Lemma guarded_scorers_reject (guess target guessPinyin targetPinyin : jsstring) :
  length guess <> length target ->
  Equation.checkGuess guess target = [] /\
  Utils.checkIdiomGuess guess target = [] /\
  IdiomGame.checkIdiomGuess guess target guessPinyin targetPinyin = [].
Proof.
  intros H. unfold Equation.checkGuess, Utils.checkIdiomGuess, IdiomGame.checkIdiomGuess.
  by rewrite (rejected_of_length_mismatch _ _ H).
Qed.

(** C1.  Duplicate-symbol fairness.  For every guess and target, for each of
    the scorers (the word scorer, which works on the case-folded strings, the
    equation scorer and the idiom character scorers) and for every symbol
    [c]: the number of cells marked [correct] or [present] that carry [c] is
    at most the number of occurrences of [c] in the target.  The bound holds
    for every pair, in particular for the pairs of equal length. *)
Theorem C1_marks_bounded_by_target_count
    (toLowerCase : jsstring -> jsstring)
    (guess target guessPinyin targetPinyin : jsstring) (c : codeunit) :
  (marks c (Utils.checkGuess toLowerCase guess target Utils.word)
     <= occurrences c (toLowerCase target))%nat /\
  (marks c (Utils.checkGuess toLowerCase guess target Utils.equation)
     <= occurrences c target)%nat /\
  (marks c (Utils.checkGuess toLowerCase guess target Utils.idiom)
     <= occurrences c target)%nat /\
  (marks c (IdiomGame.checkIdiomGuess guess target guessPinyin targetPinyin)
     <= occurrences c target)%nat.
Proof.
  repeat split.
  - apply twoPass_fair.
  - apply guarded_fair, twoPass_fair.
  - apply guarded_fair, twoPass_fair.
  - apply guarded_fair, twoPass_fair.
Qed.

(** The example of the specification: "speed" against "erase". *)
Example speed_erase :
  List.map status (Utils.checkGuess asciiLower (js "speed") (js "erase") Utils.word)
  = [present; absent; present; present; absent].
Proof. vm_compute. reflexivity. Qed.

(** C2.  The word scorer has no length guard: on the guess "ab" and the
    target "abc" it returns three cells, the last one for the missing third
    symbol of the guess, where the equation and idiom scorers return the
    empty array. *)
Theorem C2_word_scorer_scores_length_mismatch :
  Utils.checkGuess asciiLower (js "ab") (js "abc") Utils.word
  = [ {| char := None; letter := Some 97%N; status := correct; pinyin := None |};
      {| char := None; letter := Some 98%N; status := correct; pinyin := None |};
      {| char := None; letter := None; status := absent; pinyin := None |} ] /\
  Utils.checkGuess asciiLower (js "ab") (js "abc") Utils.equation = [] /\
  Utils.checkGuess asciiLower (js "ab") (js "abc") Utils.idiom = [].
Proof. vm_compute. done. Qed.

(** C10.  On a guess as long as the target the result has one cell per
    position of the target, the cell at position [i] carries the symbol of
    the guess at [i], and its status is [correct], [present] or [absent],
    never [pending].  The word scorer does this on the case-folded strings,
    the equation and idiom scorers on the strings as given. *)
Theorem C10_result_shape
    (toLowerCase : jsstring -> jsstring)
    (guess target guessPinyin targetPinyin : jsstring) :
  (length (toLowerCase guess) = length (toLowerCase target) ->
   well_scored (Utils.checkGuess toLowerCase guess target Utils.word)
               (toLowerCase guess) (toLowerCase target)) /\
  (length guess = length target ->
   well_scored (Utils.checkGuess toLowerCase guess target Utils.equation) guess target /\
   well_scored (Utils.checkGuess toLowerCase guess target Utils.idiom) guess target /\
   well_scored (IdiomGame.checkIdiomGuess guess target guessPinyin targetPinyin)
               guess target).
Proof.
  split.
  - intros H. by apply twoPass_well_scored.
  - intros H. repeat split; apply guarded_well_scored; try done;
      by apply twoPass_well_scored.
Qed.

Lemma C10_result_shape_witness :
  well_scored (Utils.checkGuess asciiLower (js "SPEED") (js "erase") Utils.word)
              (js "speed") (js "erase") /\
  well_scored (Utils.checkGuess asciiLower (js "1+2=3") (js "2+1=3") Utils.equation)
              (js "1+2=3") (js "2+1=3") /\
  well_scored (IdiomGame.checkIdiomGuess
                 [39118; 35843; 38632; 39034]%N [19968; 24070; 39118; 39034]%N [] [])
              [39118; 35843; 38632; 39034]%N [19968; 24070; 39118; 39034]%N.
Proof.
  split; [|split].
  - exact (proj1 (C10_result_shape asciiLower (js "SPEED") (js "erase") [] [])
                 eq_refl).
  - exact (proj1 (proj2 (C10_result_shape asciiLower (js "1+2=3") (js "2+1=3") [] [])
                        eq_refl)).
  - exact (proj2 (proj2 (proj2 (C10_result_shape asciiLower
                   [39118; 35843; 38632; 39034]%N [19968; 24070; 39118; 39034]%N [] [])
                   eq_refl))).
Defined.

End ScorerFacts.

(** ** Pinyin *)

Section PinyinFacts.
Import Scoring Props.

(** C9.  "zhōng" (with U+014D for the toned vowel) parses to the initial
    "zh", the final "ong" and the tone 1: the two-letter initial wins over
    "z".  The plain form "zhong1", with the tone as a trailing digit, parses
    to the same syllable. *)
Theorem C9_parse_zhong :
  Pinyin.parsePinyin (js "zh" ++ [333%N] ++ js "ng")
  = {| Pinyin.initial := js "zh"; Pinyin.final := js "ong"; Pinyin.tone := 1 |} /\
  Pinyin.parsePinyin (js "zhong1")
  = Pinyin.parsePinyin (js "zh" ++ [333%N] ++ js "ng").
Proof. vm_compute. done. Qed.

(** The inner search loops of the idiom scorer find a syllable exactly when
    there is one. *)
Lemma existsOther_true len i (T : list Pinyin.Syllable) p :
  IdiomGame.existsOther len i T p = true <->
  exists j Tj, (j < len)%nat /\ j <> i /\ T !! j = Some Tj /\ p Tj = true.
Proof.
  unfold IdiomGame.existsOther. rewrite existsb_exists. split.
  - intros (j & Hin & Hj). apply in_seq in Hin.
    apply andb_true_iff in Hj as [Hne Hp]. apply negb_true_iff, Nat.eqb_neq in Hne.
    destruct (T !! j) as [Tj|] eqn:HT; [|done].
    exists j, Tj. repeat split; try done. lia.
  - intros (j & Tj & Hlt & Hne & HT & Hp). exists j. split.
    + apply in_seq. lia.
    + rewrite HT, Hp. apply andb_true_iff. split; [|done].
      by apply negb_true_iff, Nat.eqb_neq.
Qed.

Lemma pinyinArray_guard (text : jsstring) :
  match text with [] => [] | _ => Pinyin.parsePinyinString text end = pinyinArray text.
Proof. by destruct text. Qed.

(** C3.  Tone feedback of the idiom scorer at a position [i] where the guess
    and the target both have a syllable.  When the two tones agree and the
    finals differ, the tone is [present] if some other position of the
    target has a syllable with the tone and the final of the guess, and
    [correct] otherwise.  When the tones differ, the tone is [present] if
    the tone of the guess occurs at some other position of the target, and
    [absent] otherwise. *)
Theorem C3_tone_feedback
    (guess target guessPinyin targetPinyin : jsstring) (i : nat) (x : Cell)
    (Gi Ti : Pinyin.Syllable) :
  IdiomGame.checkIdiomGuess guess target guessPinyin targetPinyin !! i = Some x ->
  pinyinArray guessPinyin !! i = Some Gi ->
  pinyinArray targetPinyin !! i = Some Ti ->
  exists info, pinyin x = Some info /\
    (Pinyin.tone Gi = Pinyin.tone Ti -> Pinyin.final Gi <> Pinyin.final Ti ->
       (otherPosition target (pinyinArray targetPinyin) i
          (fun Tj => Pinyin.tone Tj = Pinyin.tone Gi /\ Pinyin.final Tj = Pinyin.final Gi)
        -> tone info = Some present) /\
       (~ otherPosition target (pinyinArray targetPinyin) i
            (fun Tj => Pinyin.tone Tj = Pinyin.tone Gi /\ Pinyin.final Tj = Pinyin.final Gi)
        -> tone info = Some correct)) /\
    (Pinyin.tone Gi <> Pinyin.tone Ti ->
       (otherPosition target (pinyinArray targetPinyin) i
          (fun Tj => Pinyin.tone Tj = Pinyin.tone Gi)
        -> tone info = Some present) /\
       (~ otherPosition target (pinyinArray targetPinyin) i
            (fun Tj => Pinyin.tone Tj = Pinyin.tone Gi)
        -> tone info = Some absent)).
Proof.
  unfold IdiomGame.checkIdiomGuess. rewrite !pinyinArray_guard.
  destruct (rejected guess target); [done|].
  intros Hx HG HT. apply twoPass_pinyin in Hx as [Hp _].
  eexists. split; [exact Hp|].
  unfold IdiomGame.pinyinInfo. rewrite HG, HT. cbn [tone].
  set (both := fun s => bool_decide (Pinyin.tone s = Pinyin.tone Gi)
                        && bool_decide (Pinyin.final s = Pinyin.final Gi)).
  set (toneOnly := fun s => bool_decide (Pinyin.tone s = Pinyin.tone Gi)).
  assert (Hboth : IdiomGame.existsOther (length target) i (pinyinArray targetPinyin) both = true
                  <-> otherPosition target (pinyinArray targetPinyin) i
                        (fun Tj => Pinyin.tone Tj = Pinyin.tone Gi
                                   /\ Pinyin.final Tj = Pinyin.final Gi)).
  { rewrite existsOther_true. unfold otherPosition, both.
    split; intros (j & Tj & H1 & H2 & H3 & H4); exists j, Tj; repeat split; try done.
    - apply andb_true_iff in H4 as [H4 _]. by apply bool_decide_eq_true in H4.
    - apply andb_true_iff in H4 as [_ H4]. by apply bool_decide_eq_true in H4.
    - destruct H4 as [H4 H5]. by rewrite !bool_decide_eq_true_2. }
  assert (Htone : IdiomGame.existsOther (length target) i (pinyinArray targetPinyin) toneOnly = true
                  <-> otherPosition target (pinyinArray targetPinyin) i
                        (fun Tj => Pinyin.tone Tj = Pinyin.tone Gi)).
  { rewrite existsOther_true. unfold otherPosition, toneOnly.
    split; intros (j & Tj & H1 & H2 & H3 & H4); exists j, Tj; repeat split; try done.
    - by apply bool_decide_eq_true in H4.
    - by apply bool_decide_eq_true_2. }
  split.
  - intros Ht Hf. rewrite (bool_decide_eq_true_2 _ Ht), (bool_decide_eq_false_2 _ Hf).
    destruct (IdiomGame.existsOther _ _ _ both) eqn:E; split; intros H; try done.
    + exfalso. apply H, Hboth. done.
    + apply Hboth in H. congruence.
  - intros Ht. rewrite (bool_decide_eq_false_2 _ Ht).
    destruct (IdiomGame.existsOther _ _ _ toneOnly) eqn:E; split; intros H; try done.
    + exfalso. apply H, Htone. done.
    + apply Htone in H. congruence.
Qed.

End PinyinFacts.

Lemma C3_tone_feedback_witness :
  exists x info,
    IdiomGame.checkIdiomGuess Props.fengTiaoYuShun Props.yiFanFengShun
      Props.fengTiaoYuShun_pinyin Props.yiFanFengShun_pinyin !! 0%nat = Some x /\
    Scoring.pinyin x = Some info /\ Scoring.tone info = Some Scoring.present.
Proof.
  edestruct (C3_tone_feedback Props.fengTiaoYuShun Props.yiFanFengShun
               Props.fengTiaoYuShun_pinyin Props.yiFanFengShun_pinyin 0)
    as (info & Hp & H1 & _);
    [vm_compute; reflexivity | vm_compute; reflexivity | vm_compute; reflexivity |].
  eexists _, info. split; [vm_compute; reflexivity|]. split; [exact Hp|].
  apply H1.
  - vm_compute. reflexivity.
  - vm_compute. discriminate.
  - exists 2%nat. eexists. vm_compute. repeat split; try reflexivity; try lia.
Defined.

(** ** Leaderboard: rankings *)

Section SortFacts.
Context {A : Type} (cmp : A -> A -> Z).

Lemma insertSorted_perm x l : Permutation (Leaderboard.insertSorted cmp x l) (x :: l).
Proof.
  induction l as [|y l IH]; simpl; [done|].
  destruct (cmp x y <=? 0); [done|].
  rewrite IH. apply perm_swap.
Qed.

Lemma sort_perm l : Permutation (Leaderboard.sort cmp l) l.
Proof.
  induction l as [|x l IH]; simpl; [done|].
  rewrite insertSorted_perm. by constructor.
Qed.

Hypothesis cmp_total : forall a b, cmp a b <= 0 \/ cmp b a <= 0.
Hypothesis cmp_trans : forall a b c, cmp a b <= 0 -> cmp b c <= 0 -> cmp a c <= 0.

Lemma insertSorted_sorted x l :
  StronglySorted (fun a b => cmp a b <= 0) l ->
  StronglySorted (fun a b => cmp a b <= 0) (Leaderboard.insertSorted cmp x l).
Proof.
  induction 1 as [|y l Hs IH Hy]; simpl.
  - repeat constructor.
  - destruct (cmp x y <=? 0) eqn:E.
    + apply Z.leb_le in E. constructor; [by constructor|].
      constructor; [done|]. eapply Forall_impl; [exact Hy|].
      intros z Hz. by eapply cmp_trans.
    + apply Z.leb_gt in E. constructor; [done|].
      rewrite insertSorted_perm. constructor; [|done].
      destruct (cmp_total x y); [lia | done].
Qed.

Lemma sort_sorted l : StronglySorted (fun a b => cmp a b <= 0) (Leaderboard.sort cmp l).
Proof.
  induction l as [|x l IH]; simpl; [constructor|]. by apply insertSorted_sorted.
Qed.

End SortFacts.

Section RankingFacts.
Import Leaderboard Props.
Variable localeCompare : jsstring -> jsstring -> Z.

Lemma slice0_sublist {A} (l : list A) limit : exists n, slice0 l limit = take n l.
Proof. unfold slice0. eauto. Qed.

Lemma ranked_rate_floor players limit :
  Forall (fun p => 3 <= pl_gamesPlayed p /\ p ∈ players)
         (ranked localeCompare players (js "rate") limit).
Proof.
  unfold ranked. rewrite decide_False by done. rewrite decide_True by done.
  destruct (slice0_sublist
              (sort (cmpRate localeCompare)
                    (List.filter (fun player => 3 <=? pl_gamesPlayed player) players))
              limit) as [n ->].
  apply Forall_take. rewrite sort_perm. apply Forall_forall. intros p Hp.
  apply list_elem_of_In, filter_In in Hp as [Hin Hge].
  split; [by apply Z.leb_le | by apply list_elem_of_In].
Qed.

(** C7.  Whatever the table and the limit, every row of a ranking sorted by
    [rate] has played at least three games, and is a row of the table (of the
    merged table for the global ranking): an entry with fewer than three
    games is in no such ranking. *)
Theorem C7_rate_floor (files : Files) (groupId : option jsstring) (limit : Z) :
  Forall (fun p => 3 <= pl_gamesPlayed p /\
                   p ∈ List.map toPlayer (_readLeaderboard files groupId))
         (getLeaderboard localeCompare files groupId (js "rate") limit) /\
  Forall (fun p => 3 <= pl_gamesPlayed p /\
                   p ∈ List.map toPlayer (globalStats files))
         (getGlobalLeaderboard localeCompare files (js "rate") limit).
Proof. split; apply ranked_rate_floor. Qed.

Lemma cmpGames_le (a b : Player) :
  cmpGames localeCompare a b <= 0 <-> gamesOrder localeCompare a b.
Proof.
  unfold cmpGames, gamesOrder.
  destruct (pl_gamesPlayed b =? pl_gamesPlayed a) eqn:E1; simpl.
  - apply Z.eqb_eq in E1. destruct (pl_wins b =? pl_wins a) eqn:E2; simpl.
    + apply Z.eqb_eq in E2. intuition lia.
    + apply Z.eqb_neq in E2. intuition lia.
  - apply Z.eqb_neq in E1. intuition lia.
Qed.

Lemma sorted_take {A} (R : A -> A -> Prop) (l : list A) n :
  StronglySorted R l -> StronglySorted R (take n l).
Proof.
  intros H. revert n. induction H as [|x l Hs IH Hx]; intros [|n]; simpl;
    try constructor; [apply IH|]. by apply Forall_take.
Qed.

Lemma sorted_lookup {A} (R : A -> A -> Prop) (l : list A) :
  StronglySorted R l ->
  forall i j a b, (i < j)%nat -> l !! i = Some a -> l !! j = Some b -> R a b.
Proof.
  induction 1 as [|x l Hs IH Hx]; intros i j a b Hij Hi Hj; [done|].
  destruct j as [|j]; [lia|]. destruct i as [|i]; simpl in *.
  - injection Hi as <-. rewrite Forall_forall in Hx. apply Hx.
    eapply list_elem_of_lookup_2; eauto.
  - eapply (IH i j); eauto. lia.
Qed.

Lemma ranked_games_ordered players limit :
  consistent localeCompare ->
  orderedBy (gamesOrder localeCompare) (ranked localeCompare players (js "games") limit).
Proof.
  intros [Htot Htrans]. unfold ranked. rewrite decide_True by done.
  destruct (slice0_sublist (sort (cmpGames localeCompare) players) limit) as [n ->].
  intros i j a b Hij Hi Hj. apply cmpGames_le.
  eapply (sorted_lookup (fun a b => cmpGames localeCompare a b <= 0)); eauto.
  apply sorted_take, sort_sorted.
  - intros x y. rewrite !cmpGames_le. unfold gamesOrder.
    destruct (Htot (userId x) (userId y)); lia.
  - intros x y z. rewrite !cmpGames_le. unfold gamesOrder. intros H1 H2.
    pose proof (Htrans (userId x) (userId y) (userId z)). lia.
Qed.

(** C5, as the code has it.  Under the key [games], for a consistent
    collation, the ranking of a group and the global ranking list their rows
    by [gamesPlayed] descending, then by [wins] descending, then by player
    id ascending: of two rows with equal [gamesPlayed] the one with more wins
    comes first, and the id decides only between rows with equal wins too. *)
Theorem C5_games_order (files : Files) (groupId : option jsstring) (limit : Z) :
  consistent localeCompare ->
  orderedBy (gamesOrder localeCompare)
            (getLeaderboard localeCompare files groupId (js "games") limit) /\
  orderedBy (gamesOrder localeCompare)
            (getGlobalLeaderboard localeCompare files (js "games") limit).
Proof. intros H. split; by apply ranked_games_ordered. Qed.

End RankingFacts.

Lemma codeUnitCompare_consistent : Props.consistent Props.codeUnitCompare.
Proof.
  split.
  - induction a as [|x a IH]; intros [|y b]; simpl; try lia.
    destruct (N.ltb_spec x y); [lia|]. destruct (N.ltb_spec y x); [lia|]. apply IH.
  - induction a as [|x a IH]; intros [|y b] [|z c]; simpl; try lia.
    destruct (N.ltb_spec x y), (N.ltb_spec y x), (N.ltb_spec y z),
      (N.ltb_spec z y), (N.ltb_spec x z), (N.ltb_spec z x); try lia.
    apply IH.
Qed.

Lemma C5_games_order_witness :
  Props.orderedBy (Props.gamesOrder Props.codeUnitCompare)
    (Leaderboard.getLeaderboard Props.codeUnitCompare Props.tieFiles
       (Some (js "g1")) (js "games") 10) /\
  Props.orderedBy (Props.gamesOrder Props.codeUnitCompare)
    (Leaderboard.getGlobalLeaderboard Props.codeUnitCompare Props.tieFiles
       (js "games") 10).
Proof.
  exact (C5_games_order Props.codeUnitCompare Props.tieFiles (Some (js "g1")) 10
           codeUnitCompare_consistent).
Defined.

(** C5, as the specification has it, fails.  The players "1" and "2" have
    played three games each and "2" has one win more: whatever the collation,
    the ranking by [games] lists "2" before "1", although "1" is the smaller
    id. *)
Lemma C5_games_ties_counterexample :
  (forall localeCompare,
     List.map (fun p => (Leaderboard.userId p, Leaderboard.pl_gamesPlayed p,
                         Leaderboard.pl_wins p))
       (Leaderboard.getLeaderboard localeCompare Props.tieFiles (Some (js "g1"))
          (js "games") 10)
     = [ (js "2", 3, 1); (js "1", 3, 0) ]) /\
  (forall localeCompare,
     List.map (fun p => (Leaderboard.userId p, Leaderboard.pl_gamesPlayed p,
                         Leaderboard.pl_wins p))
       (Leaderboard.getGlobalLeaderboard localeCompare Props.tieFiles (js "games") 10)
     = [ (js "2", 3, 1); (js "1", 3, 0) ]) /\
  Props.codeUnitCompare (js "1") (js "2") < 0.
Proof. split; [|split]; [intros lc; vm_compute; reflexivity ..|done]. Qed.

(** ** Leaderboard: recording a result *)

Section RecordFacts.
Import Leaderboard Props.

Lemma get_set {V} (k k' : jsstring) (v : V) (o : Obj.t V) :
  Obj.get k' (Obj.set k v o) = if decide (k = k') then Some v else Obj.get k' o.
Proof.
  induction o as [|[k0 v0] o IH]; simpl.
  - repeat case_decide; congruence.
  - repeat (case_decide; simpl); try congruence.
Qed.

Lemma get_update (id id' : jsstring) f (t : Table) :
  Obj.get id' (update id f t)
  = if decide (id = id') then f <$> Obj.get id t else Obj.get id' t.
Proof.
  unfold update. destruct (Obj.get id t) as [e|] eqn:E.
  - rewrite get_set. case_decide; by subst.
  - case_decide; [by subst; rewrite E | done].
Qed.

Lemma get_ensureEntry (id id' name : jsstring) (t : Table) :
  Obj.get id' (ensureEntry id name t)
  = if decide (id = id')
    then Some (default {| nickname := name; wins := 0; gamesPlayed := 0 |} (Obj.get id t))
    else Obj.get id' t.
Proof.
  unfold ensureEntry. destruct (Obj.get id t) as [e|] eqn:E.
  - case_decide; [by subst; rewrite E | done].
  - rewrite get_set. by case_decide.
Qed.

Lemma recordParticipant_new (t : Table) (S : gset jsstring) p id id' :
  p_userId p = Some id -> id ∉ S ->
  recordParticipant (t, S) p = ((recordParticipant (t, S) p).1, S ∪ {[ id ]}) /\
  Obj.get id' (recordParticipant (t, S) p).1
  = if decide (id = id') then Some (played t id (p_nickname p)) else Obj.get id' t.
Proof.
  intros Hid HS. unfold recordParticipant. rewrite Hid. rewrite decide_False by done.
  split; [done|]. cbn [fst]. rewrite get_update, !get_ensureEntry.
  destruct (decide (id = id')) as [_|Hne]; [|done]. rewrite decide_True by done.
  unfold played, winsOf, gamesOf. by destruct (Obj.get id t).
Qed.

Lemma participantIds_cons p ps :
  participantIds (p :: ps)
  = match p_userId p with
    | Some id => id :: participantIds ps
    | None => participantIds ps
    end.
Proof. reflexivity. Qed.

(** State of the loop over the participants: [S] holds the ids met so far;
    an id met for the first time gets its entry from the first participant
    that carries it, every other entry is left as it was. *)
Lemma participants_loop participants : forall (t : Table) (S : gset jsstring),
  let st := foldl recordParticipant (t, S) participants in
  (forall id, id ∈ st.2 <-> id ∈ S \/ id ∈ participantIds participants) /\
  (forall id, id ∉ S -> id ∈ participantIds participants ->
     Obj.get id st.1 = Some (played t id (firstNickname id participants))) /\
  (forall id, id ∈ S \/ id ∉ participantIds participants ->
     Obj.get id st.1 = Obj.get id t).
Proof.
  induction participants as [|p ps IH]; intros t S; cbn [foldl].
  - split; [|split]; intros id; simpl.
    + rewrite elem_of_nil. tauto.
    + intros _ H. by apply elem_of_nil in H.
    + done.
  - rewrite participantIds_cons. destruct (p_userId p) as [id0|] eqn:Hp.
    + destruct (decide (id0 ∈ S)) as [HS|HS].
      * assert (Hst : recordParticipant (t, S) p = (t, S)).
        { unfold recordParticipant. rewrite Hp. by rewrite decide_True. }
        rewrite Hst. destruct (IH t S) as (IH1 & IH2 & IH3).
        split; [|split]; intros id.
        -- rewrite IH1, elem_of_cons. split; [tauto|]. intros [?|[->|?]]; tauto.
        -- intros HnS Hin. apply elem_of_cons in Hin as [->|Hin]; [done|].
           rewrite IH2 by done. cbn [firstNickname]. rewrite Hp.
           rewrite decide_False; [done|]. intros [= ->]. done.
        -- rewrite elem_of_cons. intros H. apply IH3. tauto.
      * destruct (recordParticipant_new t S p id0 id0 Hp HS) as [Hst _].
        rewrite Hst.
        destruct (IH (recordParticipant (t, S) p).1 (S ∪ {[id0]})) as (IH1 & IH2 & IH3).
        split; [|split]; intros id.
        -- rewrite IH1, elem_of_cons, elem_of_union, elem_of_singleton. tauto.
        -- intros HnS Hin.
           destruct (recordParticipant_new t S p id0 id Hp HS) as [_ Hget].
           cbn [firstNickname]. rewrite Hp.
           destruct (decide (id = id0)) as [->|Hne].
           ++ rewrite IH3 by (left; apply elem_of_union_r, elem_of_singleton; done).
              rewrite Hget. by rewrite !decide_True.
           ++ apply elem_of_cons in Hin as [->|Hin]; [done|].
              rewrite IH2; [|rewrite elem_of_union, elem_of_singleton; tauto|done].
              rewrite (decide_False (P := Some id0 = Some id)) by congruence.
              unfold played, winsOf, gamesOf. rewrite Hget.
              by rewrite (decide_False (P := id0 = id)) by congruence.
        -- rewrite elem_of_cons. intros H.
           destruct (recordParticipant_new t S p id0 id Hp HS) as [_ Hget].
           assert (Hne : id0 <> id) by (intros ->; tauto).
           rewrite IH3.
           ++ rewrite Hget. by rewrite decide_False.
           ++ rewrite elem_of_union. tauto.
    + assert (Hst : recordParticipant (t, S) p = (t, S)).
      { unfold recordParticipant. by rewrite Hp. }
      rewrite Hst. destruct (IH t S) as (IH1 & IH2 & IH3).
      split; [|split]; intros id.
      * apply IH1.
      * intros HnS Hin. rewrite IH2 by done. cbn [firstNickname]. rewrite Hp.
        by rewrite decide_False.
      * apply IH3.
Qed.

Lemma get_recordWinner (t : Table) (S : gset jsstring) (id winnerName id' : jsstring) :
  Obj.get id' (recordWinner t S id winnerName)
  = if decide (id = id')
    then Some {| nickname :=
                   _normalizeNickname
                     (match winnerName with
                      | [] => nicknameOf id t
                      | _ => Some winnerName
                      end) id;
                 wins := winsOf id t + 1;
                 gamesPlayed := gamesOf id t + indicator (id ∉ S) |}
    else Obj.get id' t.
Proof.
  unfold recordWinner, indicator.
  destruct (decide (id ∈ S)) as [HS|HS].
  - rewrite get_update, !get_ensureEntry.
    destruct (decide (id = id')) as [_|Hne]; [|done].
    rewrite decide_True by done. rewrite decide_False by tauto.
    unfold winsOf, gamesOf, nicknameOf.
    destruct (Obj.get id t); simpl; do 2 f_equal; lia.
  - rewrite !get_update, !get_ensureEntry.
    destruct (decide (id = id')) as [_|Hne]; [|done].
    rewrite !decide_True by done.
    unfold winsOf, gamesOf, nicknameOf.
    destruct (Obj.get id t); simpl; do 2 f_equal; lia.
Qed.

(** The nickname that the code stores is the display name. *)
Lemma normalizeNickname_displayName (given : option jsstring) (id : jsstring) :
  _normalizeNickname given id = displayName given id.
Proof.
  unfold _normalizeNickname, displayName. destruct given as [n|]; [|done].
  case_decide as E; [by rewrite E | by destruct (trim n)].
Qed.

Local Ltac close_recorded :=
  cbn; unfold gamesOf, winsOf, nicknameOf;
  repeat split; intros;
  repeat match goal with H : _ \/ _ |- _ => destruct H end;
  try done; try lia; try tauto; try congruence; eauto.

Lemma recordedTable_recorded (t : Table) participants winnerId winnerName id :
  recorded t (recordedTable t participants winnerId winnerName)
           participants winnerId winnerName id.
Proof.
  unfold recordedTable. pose proof (participants_loop participants t ∅) as H.
  destruct (foldl recordParticipant (t, ∅) participants) as [t1 S1].
  cbn [fst snd] in H. destruct H as (H1 & H2 & H3).
  assert (HS : forall i, i ∈ S1 <-> i ∈ participantIds participants).
  { intros i. rewrite H1. rewrite elem_of_empty. tauto. }
  assert (Ht1 : Obj.get id t1
                = if decide (id ∈ participantIds participants)
                  then Some (played t id (firstNickname id participants))
                  else Obj.get id t).
  { case_decide; [apply H2; [apply not_elem_of_empty | done] | apply H3; tauto]. }
  clear H1 H2 H3.
  unfold recorded. rewrite <- !normalizeNickname_displayName.
  unfold gamesOf, winsOf, nicknameOf, indicator.
  destruct winnerId as [wid|].
  - rewrite !get_recordWinner. destruct (decide (wid = id)) as [->|Hne].
    + unfold gamesOf, winsOf, nicknameOf, indicator. rewrite Ht1.
      rewrite (decide_True (P := Some id = Some id)) by done.
      destruct (decide (id ∈ participantIds participants)) as [Hin|Hnin].
      * rewrite (decide_False (P := id ∉ S1)) by (rewrite HS; tauto).
        rewrite (decide_False (P := Some id = Some id /\ _)) by tauto.
        close_recorded.
      * rewrite (decide_True (P := id ∉ S1)) by (rewrite HS; tauto).
        rewrite (decide_True (P := Some id = Some id /\ _)) by tauto.
        close_recorded.
    + rewrite Ht1. rewrite (decide_False (P := Some wid = Some id)) by congruence.
      rewrite (decide_False (P := Some wid = Some id /\ _)) by (intros [? _]; congruence).
      destruct (decide (id ∈ participantIds participants)) as [Hin|Hnin];
        close_recorded.
  - rewrite Ht1. rewrite (decide_False (P := None = Some id)) by done.
    rewrite (decide_False (P := None = Some id /\ _)) by (intros [? _]; congruence).
    destruct (decide (id ∈ participantIds participants)) as [Hin|Hnin];
      close_recorded.
Qed.

(** C6.  One call of [recordGameResult] on the table of a group.  For every
    player id: [gamesPlayed] grows by 1 if the id is among the participants
    (an id listed several times counts once), and by 1 more if the id is the
    winner and not among the participants; [wins] grows by 1 if the id is
    the winner; a participant's nickname becomes the nickname of its first
    listing without the white space around it, and U+73A9 U+5BB6 followed by
    the id when that listing has no nickname or a blank one; the winner's
    nickname becomes the winner name, made a display name in the same way,
    and without a winner name the display name of the nickname the entry has
    by then; the entry of an id that is neither a participant nor the winner
    does not change.  The tables of the other groups do not change
    either. *)
Theorem C6_record_game_result (files : Files) (groupId : option jsstring)
    (participants : list Participant) (winnerId : option jsstring)
    (winnerName id : jsstring) :
  recorded (_readLeaderboard files groupId)
           (_readLeaderboard
              (recordGameResult files groupId participants winnerId winnerName) groupId)
           participants winnerId winnerName id /\
  (forall other, fileId other <> fileId groupId ->
     _readLeaderboard
       (recordGameResult files groupId participants winnerId winnerName) other
     = _readLeaderboard files other).
Proof.
  unfold recordGameResult, _writeLeaderboard. split.
  - unfold _readLeaderboard. rewrite get_set, decide_True by done.
    apply recordedTable_recorded.
  - intros other Hne. unfold _readLeaderboard. rewrite get_set.
    by rewrite decide_False by congruence.
Qed.

End RecordFacts.

Lemma C6_record_game_result_witness :
  Props.recorded Props.tieTable
    (Leaderboard._readLeaderboard
       (Leaderboard.recordGameResult Props.tieFiles (Some (js "g1"))
          [ {| Leaderboard.p_userId := Some (js "1"); Leaderboard.p_nickname := Some (js "A") |};
            {| Leaderboard.p_userId := Some (js "1"); Leaderboard.p_nickname := Some (js "A2") |};
            {| Leaderboard.p_userId := Some (js "3"); Leaderboard.p_nickname := None |} ]
          (Some (js "3")) []) (Some (js "g1")))
    [ {| Leaderboard.p_userId := Some (js "1"); Leaderboard.p_nickname := Some (js "A") |};
      {| Leaderboard.p_userId := Some (js "1"); Leaderboard.p_nickname := Some (js "A2") |};
      {| Leaderboard.p_userId := Some (js "3"); Leaderboard.p_nickname := None |} ]
    (Some (js "3")) [] (js "1") /\
  (forall other, Leaderboard.fileId other <> Leaderboard.fileId (Some (js "g1")) ->
     Leaderboard._readLeaderboard
       (Leaderboard.recordGameResult Props.tieFiles (Some (js "g1"))
          [ {| Leaderboard.p_userId := Some (js "1"); Leaderboard.p_nickname := Some (js "A") |};
            {| Leaderboard.p_userId := Some (js "1"); Leaderboard.p_nickname := Some (js "A2") |};
            {| Leaderboard.p_userId := Some (js "3"); Leaderboard.p_nickname := None |} ]
          (Some (js "3")) []) other
     = Leaderboard._readLeaderboard Props.tieFiles other).
Proof.
  exact (C6_record_game_result Props.tieFiles (Some (js "g1"))
           [ {| Leaderboard.p_userId := Some (js "1"); Leaderboard.p_nickname := Some (js "A") |};
             {| Leaderboard.p_userId := Some (js "1"); Leaderboard.p_nickname := Some (js "A2") |};
             {| Leaderboard.p_userId := Some (js "3"); Leaderboard.p_nickname := None |} ]
           (Some (js "3")) [] (js "1")).
Defined.

(** The table after that call: "1", listed twice, has played one game more
    and keeps the nickname of its first listing; "3", a new player, has one
    game and one win. *)
Example record_game_result_run :
  Leaderboard.recordedTable Props.tieTable
    [ {| Leaderboard.p_userId := Some (js "1"); Leaderboard.p_nickname := Some (js "A") |};
      {| Leaderboard.p_userId := Some (js "1"); Leaderboard.p_nickname := Some (js "A2") |};
      {| Leaderboard.p_userId := Some (js "3"); Leaderboard.p_nickname := None |} ]
    (Some (js "3")) []
  = [ (js "1", {| Leaderboard.nickname := js "A"; Leaderboard.wins := 0;
                  Leaderboard.gamesPlayed := 4 |});
      (js "2", {| Leaderboard.nickname := js "B"; Leaderboard.wins := 1;
                  Leaderboard.gamesPlayed := 3 |});
      (js "3", {| Leaderboard.nickname := [29609%N; 23478%N] ++ js "3";
                  Leaderboard.wins := 1; Leaderboard.gamesPlayed := 1 |}) ].
Proof. vm_compute. reflexivity. Qed.

(** ** Session store and guess processing *)

Section SessionFacts.
Import DB GameBase Props.

(** The store functions keep scopes with different names apart. *)
Lemma gameKeyOf_inj g1 g2 : toStr g1 <> toStr g2 -> gameKeyOf g1 <> gameKeyOf g2.
Proof. unfold gameKeyOf. intros H E. by apply app_inv_head in E. Qed.

Lemma store_isolated (redis : Redis) g1 g2 data :
  toStr g1 <> toStr g2 ->
  getGameData (saveGameData redis g1 data).1 g2 = getGameData redis g2 /\
  getGameData (deleteGameData redis g1).1 g2 = getGameData redis g2.
Proof.
  intros H. apply gameKeyOf_inj in H. destruct redis as [store|]; simpl; [|done].
  by rewrite lookup_insert_ne, lookup_delete_ne.
Qed.

Lemma store_read_own_write (store : gmap jsstring GameData) g data :
  getGameData (saveGameData (Some store) g data).1 g = Some data /\
  getGameData (deleteGameData (Some store) g).1 g = None.
Proof. simpl. by rewrite lookup_insert_eq, lookup_delete_eq. Qed.

(** C4.  Two private users do not have sessions of their own.  The game
    context gives the users 10001 and 10002 the distinct keys [private_10001]
    and [private_10002], but the games call the store with the group id,
    which is [null] in private, and the store drops the user id it is passed:
    once 10001 has started an idiom game, 10002 is told that a game is
    running, reads the record of 10001 and changes it with a guess. *)
Theorem C4_private_sessions_shared :
  gameKey (_getGameContext alice) = Some (js "private_10001") /\
  gameKey (_getGameContext bob) = Some (js "private_10002") /\
  getGameData (redis aliceStarted) (groupId (_getGameContext bob))
  = getGameData (redis aliceStarted) (groupId (_getGameContext alice)) /\
  (targetWord <$> getGameData (redis aliceStarted) (groupId (_getGameContext bob)))
  = Some yiFanFengShun /\
  (IdiomGame.startNewIdiomGame (fun _ => None) aliceStarted bob
     (Some fengTiaoYuShun) 1).2 = IdiomGame.AlreadyRunning /\
  (guesses <$>
     getGameData
       (redis (IdiomGame.processGuess (fun _ => true) (fun _ => None) aliceStarted bob
                 fengTiaoYuShun (groupId (_getGameContext bob))
                 (userId (_getGameContext bob))).1)
       (groupId (_getGameContext alice)))
  = Some [fengTiaoYuShun].
Proof. vm_compute. done. Qed.

(** C8.  A guess that the corpus rejects changes nothing.  When the scope
    has a running game and the validity check of the word game, or of the
    idiom game, fails, [processGuess] returns the world it was given: the
    stored record (guesses, attempts, participants, finished flag) and the
    leaderboard files are the same. *)
Theorem C8_invalid_guess_keeps_session
    (toLowerCase : jsstring -> jsstring) (isValidWord : jsstring -> Z -> bool)
    (isValidIdiom : jsstring -> bool) (getIdiomPinyin : jsstring -> option jsstring)
    (w : World) (e : Event) (guess : jsstring) (group user : option jsstring)
    (game : GameData) :
  getGameData (redis w) (orElse group (groupId (_getGameContext e))) = Some game ->
  finished game = false ->
  (isValidWord guess (letterCount game) = false ->
   WordGame.processGuess toLowerCase isValidWord w e guess group user
   = (w, InvalidGuess)) /\
  (isValidIdiom guess = false ->
   IdiomGame.processGuess isValidIdiom getIdiomPinyin w e guess group user
   = (w, InvalidGuess)).
Proof.
  intros Hget Hfin. unfold WordGame.processGuess, IdiomGame.processGuess.
  cbv zeta. rewrite Hget, Hfin. split; intros ->; done.
Qed.

Lemma C8_invalid_guess_keeps_session_witness :
  WordGame.processGuess asciiLower (fun _ _ => false) groupWorld groupEvent
    (js "zzzzz") (Some (js "777")) (Some (js "10001"))
  = (groupWorld, InvalidGuess) /\
  IdiomGame.processGuess (fun _ => false) (fun _ => None) groupWorld groupEvent
    (js "zzzzz") (Some (js "777")) (Some (js "10001"))
  = (groupWorld, InvalidGuess).
Proof.
  pose proof (C8_invalid_guess_keeps_session asciiLower (fun _ _ => false)
                (fun _ => false) (fun _ => None) groupWorld groupEvent (js "zzzzz")
                (Some (js "777")) (Some (js "10001")) eraseGame) as H.
  destruct H as [H1 H2].
  - vm_compute. reflexivity.
  - reflexivity.
  - split; [apply H1 | apply H2]; reflexivity.
Defined.

(** A valid guess, for comparison, is appended and counted. *)
Example valid_guess_run :
  (fun g => (guesses g, attempts g, finished g))
  <$> getGameData
        (redis (WordGame.processGuess asciiLower (fun _ _ => true) groupWorld groupEvent
                  (js "erode") (Some (js "777")) (Some (js "10001"))).1)
        (Some (js "777"))
  = Some ([js "speed"; js "erode"], 2, false).
Proof. vm_compute. reflexivity. Qed.

End SessionFacts.

(** * Further properties of the code *)

(** ** Scorers: exact counts, exact match, disjoint symbols *)

Section MoreTwoPassFacts.
Import Scoring Props ScoreProps.
Variable withChar : bool.
Variable pinyinAt : nat -> option PinyinInfo.

Local Ltac split_cases :=
  repeat case_bool_decide; cbn [andb orb negb]; try congruence; try lia.

Lemma firstPass_exact c target : forall i guess freq,
  let '(result, freq') := firstPass withChar pinyinAt i guess target freq in
  freqGet freq' (Some c)
  = freqGet freq (Some c) + Z.of_nat (unmatchedInTarget c guess target) /\
  pendingCells c result = unmatchedInGuess c guess target /\
  correctMarks c result = matched c guess target.
Proof.
  induction target as [|t target IH]; intros i guess freq.
  - cbn. unfold pendingCells, correctMarks. cbn. lia.
  - cbn [firstPass matched unmatchedInGuess unmatchedInTarget].
    case_decide as Hg.
    + specialize (IH (S i) (tail guess) freq).
      destruct (firstPass _ _ _ _ _ _) as [res f]. destruct IH as (Hf & Hp & Hc).
      unfold pendingCells, correctMarks in *. rewrite !count_cons.
      unfold isPendingCell at 1, isCorrectMark at 1. cbn [mkCell letter status].
      rewrite Hg. split_cases.
    + specialize (IH (S i) (tail guess) (<[t := freqGet freq (Some t) + 1]> freq)).
      destruct (firstPass _ _ _ _ _ _) as [res f]. destruct IH as (Hf & Hp & Hc).
      unfold pendingCells, correctMarks in *. rewrite !count_cons.
      unfold isPendingCell at 1, isCorrectMark at 1. cbn [mkCell letter status].
      destruct (decide (t = c)) as [->|Hne].
      * rewrite freqGet_insert_eq in Hf. split_cases.
      * rewrite freqGet_insert_ne in Hf by done. split_cases.
Qed.

Lemma secondPass_exact c result : forall guess freq,
  aligned result guess ->
  Forall (fun x => status x = correct \/ status x = pending) result ->
  0 <= freqGet freq (Some c) ->
  Z.of_nat (presentMarks c (secondPass guess result freq))
  = Z.min (Z.of_nat (pendingCells c result)) (freqGet freq (Some c)) /\
  correctMarks c (secondPass guess result freq) = correctMarks c result.
Proof.
  induction result as [|r result IH]; intros guess freq Hal Hst Hf.
  - unfold presentMarks, pendingCells, correctMarks. cbn [secondPass List.filter length]. lia.
  - destruct Hal as [Hl Hal]. inversion Hst as [|? ? Hr Hst']; subst.
    cbn [secondPass]. unfold presentMarks, pendingCells, correctMarks in *.
    case_decide as Hp.
    + destruct (0 <? freqGet freq (head guess)) eqn:Hpos.
      * apply Z.ltb_lt in Hpos. destruct (head guess) as [g|] eqn:Hg;
          [|simpl in Hpos; lia].
        rewrite !count_cons. unfold isPresentMark at 1, isPendingCell at 1,
          isCorrectMark at 1, isCorrectMark at 2.
        cbn [setStatus letter status]. rewrite Hl, Hp.
        destruct (decide (g = c)) as [->|Hne].
        -- destruct (IH (tail guess) (<[c := freqGet freq (Some c) - 1]> freq) Hal Hst')
             as [IH1 IH2]; [rewrite freqGet_insert_eq; lia|].
           rewrite freqGet_insert_eq in IH1. split_cases.
        -- destruct (IH (tail guess) (<[g := freqGet freq (Some g) - 1]> freq) Hal Hst')
             as [IH1 IH2]; [by rewrite freqGet_insert_ne|].
           rewrite freqGet_insert_ne in IH1 by done. split_cases.
      * apply Z.ltb_ge in Hpos. destruct (IH (tail guess) freq Hal Hst' Hf) as [IH1 IH2].
        rewrite !count_cons. unfold isPresentMark at 1, isPendingCell at 1,
          isCorrectMark at 1, isCorrectMark at 2.
        cbn [setStatus letter status]. rewrite Hl, Hp.
        destruct (decide (head guess = Some c)) as [E|E].
        -- rewrite E in Hpos |- *. split_cases.
        -- split_cases.
    + destruct Hr as [Hr|Hr]; [|done].
      destruct (IH (tail guess) freq Hal Hst' Hf) as [IH1 IH2].
      rewrite !count_cons. unfold isPresentMark at 1, isPendingCell at 1.
      rewrite Hr. split_cases.
Qed.

Lemma twoPass_exact_counts guess target :
  exact_counts (twoPass withChar pinyinAt guess target) guess target.
Proof.
  intros c. unfold twoPass.
  pose proof (firstPass_exact c target 0 guess ∅) as H.
  pose proof (firstPass_count withChar pinyinAt c target 0 guess ∅) as H'.
  pose proof (firstPass_aligned withChar pinyinAt target 0 guess ∅) as Hal.
  destruct (firstPass _ _ _ _ _ _) as [res f]. destruct H as (Hf & Hp & Hc).
  destruct H' as (Hst & Hle & _). simpl in Hal, Hle, Hf.
  rewrite lookup_empty in Hle, Hf. simpl in Hle, Hf.
  destruct (secondPass_exact c res guess f Hal Hst Hle) as [H1 H2].
  split; [congruence|]. unfold freqGet in H1. rewrite Hp in H1. lia.
Qed.

End MoreTwoPassFacts.

Section MoreScorerFacts.
Import Scoring Props ScoreProps ScoreProps2.

Lemma guarded_exact_counts (scored : list Cell) (guess target : jsstring) :
  length guess = length target ->
  exact_counts scored guess target ->
  exact_counts (if rejected guess target then [] else scored) guess target.
Proof.
  intros Hlen H. destruct (rejected guess target) eqn:Hr; [|done].
  assert (target = []) as ->.
  { unfold rejected in Hr. destruct guess, target; try done.
    apply negb_true_iff, Nat.eqb_neq in Hr. done. }
  intros c. done.
Qed.

(** X1.  The counts of a result are exactly those of the game.  For every
    symbol [c], the cells marked [correct] for [c] are the positions where
    guess and target both have [c], and the cells marked [present] for [c]
    number the smaller of: the other occurrences of [c] in the guess, the
    other occurrences of [c] in the target.  The word scorer does this on the
    case-folded strings for any pair, the guarded scorers on pairs of equal
    length. *)
Theorem scorers_exact_counts
    (toLowerCase : jsstring -> jsstring)
    (guess target guessPinyin targetPinyin : jsstring) :
  exact_counts (Utils.checkGuess toLowerCase guess target Utils.word)
               (toLowerCase guess) (toLowerCase target) /\
  (length guess = length target ->
   exact_counts (Equation.checkGuess guess target) guess target /\
   exact_counts (Utils.checkIdiomGuess guess target) guess target /\
   exact_counts (IdiomGame.checkIdiomGuess guess target guessPinyin targetPinyin)
                guess target).
Proof.
  split; [apply twoPass_exact_counts|].
  intros H. repeat split; apply guarded_exact_counts; try done;
    apply twoPass_exact_counts.
Qed.

Lemma scorers_exact_counts_witness :
  exact_counts (Utils.checkGuess asciiLower (js "SPEED") (js "erase") Utils.word)
               (js "speed") (js "erase") /\
  exact_counts (Equation.checkGuess (js "1+2=3") (js "2+1=3")) (js "1+2=3") (js "2+1=3").
Proof.
  split.
  - exact (proj1 (scorers_exact_counts asciiLower (js "SPEED") (js "erase") [] [])).
  - exact (proj1 (proj2 (scorers_exact_counts asciiLower (js "1+2=3") (js "2+1=3") [] [])
                        eq_refl)).
Defined.

Lemma firstPass_correct_in_place withChar pinyinAt target : forall i guess freq k x,
  (firstPass withChar pinyinAt i guess target freq).1 !! k = Some x ->
  (status x = correct <-> guess !! k = target !! k) /\
  (status x = correct \/ status x = pending).
Proof.
  induction target as [|t target IH]; intros i guess freq k x; simpl; [done|].
  case_decide as Hg.
  - specialize (IH (S i) (tail guess) freq).
    destruct (firstPass _ _ _ _ _ _) as [res f]; simpl in *.
    destruct k as [|k]; simpl.
    + intros [= <-]. simpl. split; [|by left]. split; [|done].
      intros _. destruct guess; simpl in *; congruence.
    + intros Hk. destruct (IH _ _ Hk) as [H1 H2]. split; [|done].
      rewrite H1. by destruct guess.
  - specialize (IH (S i) (tail guess) (<[t := freqGet freq (Some t) + 1]> freq)).
    destruct (firstPass _ _ _ _ _ _) as [res f]; simpl in *.
    destruct k as [|k]; simpl.
    + intros [= <-]. simpl. split; [|by right]. split; [done|].
      intros E. destruct guess; simpl in *; congruence.
    + intros Hk. destruct (IH _ _ Hk) as [H1 H2]. split; [|done].
      rewrite H1. by destruct guess.
Qed.

Lemma twoPass_correct_in_place withChar pinyinAt guess target :
  correct_in_place (twoPass withChar pinyinAt guess target) guess target.
Proof.
  intros i x. unfold twoPass.
  pose proof (firstPass_correct_in_place withChar pinyinAt target 0 guess ∅ i) as H.
  destruct (firstPass _ _ _ _ _ _) as [res f]. simpl in H. intros Hx.
  destruct (secondPass_lookup _ _ _ _ _ Hx) as (r & Hr & _ & _ & _ & Hpe & Hnp).
  destruct (H _ Hr) as [H1 [Hc|Hp]].
  - rewrite Hnp by (rewrite Hc; done). done.
  - rewrite <- H1. rewrite Hp. split; [|done].
    intros Hxc. destruct (Hpe Hp); congruence.
Qed.

(** X2.  A cell is [correct] exactly where the guess and the target have the
    same symbol: the cell at position [i] of any result has the status
    [correct] if and only if guess and target agree at [i] (for the word
    scorer, after case folding). *)
Theorem scorers_correct_in_place
    (toLowerCase : jsstring -> jsstring)
    (guess target guessPinyin targetPinyin : jsstring) :
  correct_in_place (Utils.checkGuess toLowerCase guess target Utils.word)
                   (toLowerCase guess) (toLowerCase target) /\
  correct_in_place (Equation.checkGuess guess target) guess target /\
  correct_in_place (Utils.checkIdiomGuess guess target) guess target /\
  correct_in_place (IdiomGame.checkIdiomGuess guess target guessPinyin targetPinyin)
                   guess target.
Proof.
  unfold Equation.checkGuess, Utils.checkIdiomGuess, IdiomGame.checkIdiomGuess.
  split; [apply twoPass_correct_in_place|].
  destruct (rejected guess target).
  - split; [|split]; by intros ? ? ?.
  - split; [|split]; apply twoPass_correct_in_place.
Qed.

Lemma rejected_equal_length (guess target : jsstring) :
  length guess = length target -> rejected guess target = true ->
  guess = [] /\ target = [].
Proof.
  intros Hlen Hr. unfold rejected in Hr. destruct guess, target; try done.
  apply negb_true_iff, Nat.eqb_neq in Hr. done.
Qed.

Lemma all_correct_iff_equal (result : list Cell) (guess target : jsstring) :
  length result = length target -> length guess = length target ->
  correct_in_place result guess target ->
  (all_correct result <-> guess = target).
Proof.
  intros Hlr Hlg Hc. unfold all_correct. split.
  - intros Hall. apply list_eq. intros i.
    destruct (result !! i) as [x|] eqn:Hx.
    + apply (Hc i x Hx). rewrite Forall_forall in Hall. apply Hall.
      eapply list_elem_of_lookup_2; eauto.
    + apply lookup_ge_None in Hx.
      rewrite !(proj2 (lookup_ge_None _ _)); [done|lia|lia].
  - intros ->. apply Forall_forall. intros x Hx.
    apply list_elem_of_lookup in Hx as [i Hi]. by apply (Hc i x Hi).
Qed.

(** X3.  The board is all green exactly for the answer: on a guess as long
    as the target, every cell of the result is [correct] if and only if the
    guess is the target (for the word scorer: the case-folded guess is the
    case-folded target). *)
Theorem scorers_all_correct_iff_equal
    (toLowerCase : jsstring -> jsstring)
    (guess target guessPinyin targetPinyin : jsstring) :
  (length (toLowerCase guess) = length (toLowerCase target) ->
   (all_correct (Utils.checkGuess toLowerCase guess target Utils.word)
    <-> toLowerCase guess = toLowerCase target)) /\
  (length guess = length target ->
   (all_correct (Equation.checkGuess guess target) <-> guess = target) /\
   (all_correct (Utils.checkIdiomGuess guess target) <-> guess = target) /\
   (all_correct (IdiomGame.checkIdiomGuess guess target guessPinyin targetPinyin)
    <-> guess = target)).
Proof.
  split.
  - intros H. apply all_correct_iff_equal; try done.
    + by apply (twoPass_well_scored false (fun _ => None)).
    + apply twoPass_correct_in_place.
  - intros H.
    unfold Equation.checkGuess, Utils.checkIdiomGuess, IdiomGame.checkIdiomGuess.
    destruct (rejected guess target) eqn:Hr.
    + destruct (rejected_equal_length _ _ H Hr) as [-> ->].
      unfold all_correct. repeat split; done.
    + repeat split; apply all_correct_iff_equal; try done;
        try apply twoPass_correct_in_place; by apply twoPass_well_scored.
Qed.

Lemma scorers_all_correct_iff_equal_witness :
  (all_correct (Utils.checkGuess asciiLower (js "Erase") (js "erase") Utils.word)
   <-> js "erase" = js "erase") /\
  (all_correct (Equation.checkGuess (js "1+2=3") (js "2+1=3"))
   <-> js "1+2=3" = js "2+1=3").
Proof.
  split.
  - exact (proj1 (scorers_all_correct_iff_equal asciiLower (js "Erase") (js "erase") [] [])
                 eq_refl).
  - exact (proj1 (proj2 (scorers_all_correct_iff_equal asciiLower (js "1+2=3")
                           (js "2+1=3") [] []) eq_refl)).
Defined.

End MoreScorerFacts.

Lemma scorers_correct_in_place_witness :
  ScoreProps2.correct_in_place
    (Utils.checkGuess asciiLower (js "SPEED") (js "erase") Utils.word)
    (js "speed") (js "erase").
Proof.
  exact (proj1 (scorers_correct_in_place asciiLower (js "SPEED") (js "erase") [] [])).
Defined.

Section DisjointFacts.
Import Scoring Props ScoreProps ScoreProps2.

Lemma unmatchedInTarget_le c target : forall guess,
  (unmatchedInTarget c guess target <= occurrences c target)%nat.
Proof.
  induction target as [|t target IH]; intros guess; [done|].
  cbn [unmatchedInTarget]. unfold occurrences in *. rewrite count_cons.
  specialize (IH (tail guess)).
  destruct (bool_decide (t = c)); cbn [andb]; [|lia].
  destruct (negb _); lia.
Qed.

Lemma occurrences_absent c (target : jsstring) : c ∉ target -> occurrences c target = 0%nat.
Proof.
  unfold occurrences. induction target as [|t target IH]; intros H; [done|].
  rewrite count_cons. rewrite not_elem_of_cons in H. destruct H as [H1 H2].
  rewrite bool_decide_eq_false_2 by congruence. by rewrite IH.
Qed.

Lemma present_cell_counted c (result : list Cell) x :
  x ∈ result -> letter x = Some c -> status x = present ->
  (1 <= presentMarks c result)%nat.
Proof.
  unfold presentMarks. induction result as [|y result IH]; intros Hin Hl Hs.
  - by apply elem_of_nil in Hin.
  - rewrite count_cons. apply elem_of_cons in Hin as [<-|Hin].
    + unfold isPresentMark at 1. rewrite !bool_decide_eq_true_2 by done. cbn. lia.
    + specialize (IH Hin Hl Hs). lia.
Qed.

Lemma disjoint_all_absent (result : list Cell) (guess target : jsstring) :
  well_scored result guess target ->
  correct_in_place result guess target ->
  exact_counts result guess target ->
  disjoint_symbols guess target ->
  List.map status result = replicate (length target) absent.
Proof.
  intros [Hlen Hw] Hc He Hd. apply list_eq. intros i.
  rewrite list_lookup_fmap. destruct (decide (i < length target)%nat) as [Hi|Hi].
  - destruct (Hw i Hi) as (x & g & Hx & Hg & Hl & Hf).
    rewrite Hx, lookup_replicate_2 by done. simpl. f_equal.
    assert (Hgin : g ∈ guess) by (eapply list_elem_of_lookup_2; eauto).
    destruct Hf as [Hs|[Hs|Hs]]; [| |done].
    + apply (Hc i x Hx) in Hs. rewrite Hg in Hs. symmetry in Hs.
      exfalso. apply (Hd g Hgin). eapply list_elem_of_lookup_2; eauto.
    + exfalso. assert (Hin : x ∈ result) by (eapply list_elem_of_lookup_2; eauto).
      pose proof (present_cell_counted g result x Hin Hl Hs) as H1.
      destruct (He g) as [_ H2].
      pose proof (unmatchedInTarget_le g target guess) as H3.
      rewrite (occurrences_absent g target (Hd g Hgin)) in H3. lia.
  - rewrite (proj2 (lookup_ge_None _ _)) by lia.
    rewrite (proj2 (lookup_ge_None _ _)); [done|]. rewrite length_replicate. lia.
Qed.

(** X4.  A guess that shares no symbol with the target is all grey: on a
    guess as long as the target, none of whose symbols occurs in the target,
    every cell of the result is [absent] (for the word scorer, on the
    case-folded strings). *)
Theorem scorers_disjoint_all_absent
    (toLowerCase : jsstring -> jsstring)
    (guess target guessPinyin targetPinyin : jsstring) :
  (length (toLowerCase guess) = length (toLowerCase target) ->
   disjoint_symbols (toLowerCase guess) (toLowerCase target) ->
   List.map status (Utils.checkGuess toLowerCase guess target Utils.word)
   = replicate (length (toLowerCase target)) absent) /\
  (length guess = length target -> disjoint_symbols guess target ->
   List.map status (Equation.checkGuess guess target)
   = replicate (length target) absent /\
   List.map status (Utils.checkIdiomGuess guess target)
   = replicate (length target) absent /\
   List.map status (IdiomGame.checkIdiomGuess guess target guessPinyin targetPinyin)
   = replicate (length target) absent).
Proof.
  split.
  - intros Hl Hd. apply (disjoint_all_absent _ (toLowerCase guess)); try done.
    + by apply twoPass_well_scored.
    + apply twoPass_correct_in_place.
    + apply twoPass_exact_counts.
  - intros Hl Hd.
    unfold Equation.checkGuess, Utils.checkIdiomGuess, IdiomGame.checkIdiomGuess.
    destruct (rejected guess target) eqn:Hr.
    + by destruct (rejected_equal_length _ _ Hl Hr) as [-> ->].
    + repeat split; apply (disjoint_all_absent _ guess); try done;
        try apply twoPass_correct_in_place; try apply twoPass_exact_counts;
        by apply twoPass_well_scored.
Qed.

Lemma scorers_disjoint_all_absent_witness :
  List.map status (Utils.checkGuess asciiLower (js "abcde") (js "FGHIJ") Utils.word)
  = replicate 5 absent.
Proof.
  apply (proj1 (scorers_disjoint_all_absent asciiLower (js "abcde") (js "FGHIJ") [] []));
    [reflexivity|].
  intros c Hc Ht. apply list_elem_of_In in Hc. apply list_elem_of_In in Ht.
  vm_compute in Hc, Ht.
  repeat (destruct Hc as [<-|Hc];
          [repeat (destruct Ht as [Ht|Ht]; [discriminate Ht|]); done|]).
  done.
Defined.

End DisjointFacts.

(** ** Idiom scorer: the pinyin layer *)

Section PinyinLayerFacts.
Import Scoring Props ScoreProps ScoreProps2.

Lemma firstPass_shown wc pa1 pa2 target : forall i guess freq,
  List.map shown (firstPass wc pa1 i guess target freq).1
  = List.map shown (firstPass wc pa2 i guess target freq).1 /\
  (firstPass wc pa1 i guess target freq).2 = (firstPass wc pa2 i guess target freq).2.
Proof.
  induction target as [|t target IH]; intros i guess freq; [done|].
  cbn [firstPass]. case_decide.
  - specialize (IH (S i) (tail guess) freq).
    destruct (firstPass wc pa1 _ _ _ _), (firstPass wc pa2 _ _ _ _).
    simpl in *. destruct IH as [-> ->]. done.
  - specialize (IH (S i) (tail guess) (<[t := freqGet freq (Some t) + 1]> freq)).
    destruct (firstPass wc pa1 _ _ _ _), (firstPass wc pa2 _ _ _ _).
    simpl in *. destruct IH as [-> ->]. done.
Qed.

Lemma shown_setStatus x y st :
  shown x = shown y -> shown (setStatus x st) = shown (setStatus y st).
Proof. unfold shown. simpl. congruence. Qed.

Lemma secondPass_shown r1 : forall r2 guess freq,
  List.map shown r1 = List.map shown r2 ->
  List.map shown (secondPass guess r1 freq) = List.map shown (secondPass guess r2 freq).
Proof.
  induction r1 as [|x r1 IH]; intros [|y r2] guess freq H; try done.
  cbn [List.map] in H.
  assert (Hxy : shown x = shown y) by congruence.
  assert (Ht : List.map shown r1 = List.map shown r2) by congruence.
  clear H. cbn [secondPass].
  assert (Hs : status x = status y) by (unfold shown in Hxy; congruence).
  rewrite Hs. case_decide.
  - destruct (0 <? _); cbn [List.map];
      rewrite (shown_setStatus _ _ _ Hxy); f_equal; by apply IH.
  - cbn [List.map]. rewrite Hxy. f_equal. by apply IH.
Qed.

Lemma twoPass_shown wc pa1 pa2 guess target :
  List.map shown (twoPass wc pa1 guess target)
  = List.map shown (twoPass wc pa2 guess target).
Proof.
  unfold twoPass. pose proof (firstPass_shown wc pa1 pa2 target 0 guess ∅) as [H1 H2].
  destruct (firstPass wc pa1 _ _ _ _), (firstPass wc pa2 _ _ _ _).
  simpl in *. subst. by apply secondPass_shown.
Qed.

(** X5.  The pinyin feedback is an addition to the character feedback, not a
    replacement: whatever the pinyin texts, the scorer of the idiom game
    gives every cell the symbol and the status that the character-only idiom
    scorer of [utils.js] gives it. *)
Theorem idiom_pinyin_layer_keeps_characters
    (guess target guessPinyin targetPinyin : jsstring) :
  List.map shown (IdiomGame.checkIdiomGuess guess target guessPinyin targetPinyin)
  = List.map shown (Utils.checkIdiomGuess guess target).
Proof.
  unfold IdiomGame.checkIdiomGuess, Utils.checkIdiomGuess.
  destruct (rejected guess target); [done|]. apply twoPass_shown.
Qed.

Lemma existsOther_otherPosition {A} `{EqDecision A} (proj : Pinyin.Syllable -> A)
    (target : jsstring) T i (Gi : Pinyin.Syllable) :
  IdiomGame.existsOther (length target) i T
    (fun s => bool_decide (proj s = proj Gi)) = true
  <-> otherPosition target T i (fun Tj => proj Tj = proj Gi).
Proof.
  rewrite existsOther_true. unfold otherPosition.
  split; intros (j & Tj & H1 & H2 & H3 & H4); exists j, Tj; repeat split; try done.
  - by apply bool_decide_eq_true in H4.
  - by apply bool_decide_eq_true_2.
Qed.

Lemma presentOrAbsent_feedback {A} `{EqDecision A} (proj : Pinyin.Syllable -> A)
    (target : jsstring) T i (Gi Ti : Pinyin.Syllable) :
  component_feedback proj target T i Gi Ti
    (Some (if bool_decide (proj Gi = proj Ti) then correct
           else IdiomGame.presentOrAbsent
                  (IdiomGame.existsOther (length target) i T
                     (fun s => bool_decide (proj s = proj Gi))))).
Proof.
  split.
  - intros H. by rewrite bool_decide_eq_true_2.
  - intros H. rewrite bool_decide_eq_false_2 by done.
    pose proof (existsOther_otherPosition proj target T i Gi) as Hex.
    destruct (IdiomGame.existsOther _ _ _ _); simpl; split; intros Ho; try done.
    + exfalso. apply Ho, Hex. done.
    + apply Hex in Ho. done.
Qed.

(** X6.  Initial and final feedback of the idiom scorer at a position [i]
    where the guess and the target both have a syllable: the initial (and, by
    the same rule, the final) is [correct] when it is the one of the target
    syllable at [i]; otherwise [present] when it is the initial (final) of
    the target syllable of some other position of the idiom, and [absent]
    when it is not. *)
Theorem idiom_initial_final_feedback
    (guess target guessPinyin targetPinyin : jsstring) (i : nat) (x : Cell)
    (Gi Ti : Pinyin.Syllable) :
  IdiomGame.checkIdiomGuess guess target guessPinyin targetPinyin !! i = Some x ->
  pinyinArray guessPinyin !! i = Some Gi ->
  pinyinArray targetPinyin !! i = Some Ti ->
  exists info, pinyin x = Some info /\
    component_feedback Pinyin.initial target (pinyinArray targetPinyin) i Gi Ti
                       (initial info) /\
    component_feedback Pinyin.final target (pinyinArray targetPinyin) i Gi Ti
                       (final info).
Proof.
  unfold IdiomGame.checkIdiomGuess. rewrite !pinyinArray_guard.
  destruct (rejected guess target); [done|].
  intros Hx HG HT. apply twoPass_pinyin in Hx as [Hp _].
  eexists. split; [exact Hp|].
  unfold IdiomGame.pinyinInfo. rewrite HG, HT. cbn [initial final].
  split; apply presentOrAbsent_feedback.
Qed.

Lemma idiom_initial_final_feedback_witness :
  exists x info,
    IdiomGame.checkIdiomGuess Props.fengTiaoYuShun Props.yiFanFengShun
      Props.fengTiaoYuShun_pinyin Props.yiFanFengShun_pinyin !! 0%nat = Some x /\
    pinyin x = Some info /\ initial info = Some present /\ final info = Some present.
Proof.
  edestruct (idiom_initial_final_feedback Props.fengTiaoYuShun Props.yiFanFengShun
               Props.fengTiaoYuShun_pinyin Props.yiFanFengShun_pinyin 0)
    as (info & Hp & [_ H1] & [_ H2]);
    [vm_compute; reflexivity | vm_compute; reflexivity | vm_compute; reflexivity |].
  eexists _, info. split; [vm_compute; reflexivity|]. split; [exact Hp|]. split.
  - apply H1; [vm_compute; discriminate|].
    exists 1%nat. eexists. vm_compute. repeat split; try reflexivity; try lia.
  - apply H2; [vm_compute; discriminate|].
    exists 2%nat. eexists. vm_compute. repeat split; try reflexivity; try lia.
Defined.

(** X7.  No syllable, no pinyin feedback: at a position for which the pinyin
    of the guess or the pinyin of the target has no syllable (in particular
    when a pinyin text is empty), the three pinyin fields of the cell are
    [null], while the cell itself is scored as usual. *)
Theorem idiom_no_syllable_no_feedback
    (guess target guessPinyin targetPinyin : jsstring) (i : nat) (x : Cell) :
  IdiomGame.checkIdiomGuess guess target guessPinyin targetPinyin !! i = Some x ->
  pinyinArray guessPinyin !! i = None \/ pinyinArray targetPinyin !! i = None ->
  pinyin x = Some {| initial := None; final := None; tone := None |}.
Proof.
  unfold IdiomGame.checkIdiomGuess. rewrite !pinyinArray_guard.
  destruct (rejected guess target); [done|].
  intros Hx H. apply twoPass_pinyin in Hx as [Hp _]. rewrite Hp. f_equal.
  unfold IdiomGame.pinyinInfo.
  destruct H as [-> | ->]; [done|]. by destruct (pinyinArray guessPinyin !! i).
Qed.

Lemma idiom_no_syllable_no_feedback_witness :
  exists x,
    IdiomGame.checkIdiomGuess Props.fengTiaoYuShun Props.yiFanFengShun []
      Props.yiFanFengShun_pinyin !! 3%nat = Some x /\
    status x = correct /\
    pinyin x = Some {| initial := None; final := None; tone := None |}.
Proof.
  eexists. split; [vm_compute; reflexivity|]. split; [reflexivity|].
  eapply (idiom_no_syllable_no_feedback Props.fengTiaoYuShun Props.yiFanFengShun []
            Props.yiFanFengShun_pinyin 3).
  - vm_compute. reflexivity.
  - left. reflexivity.
Defined.

End PinyinLayerFacts.

(** ** Pinyin parser *)

Section MorePinyinFacts.
Import Pinyin PinyinProps.

Local Ltac toneMap_cases :=
  unfold toneMap, baseMap;
  repeat match goal with
         | |- context [match ?x with _ => _ end] => is_var x; destruct x
         end.

Lemma toneMap_facts c t :
  toneMap c = Some t ->
  1 <= t <= 4 /\ exists b, baseMap c = Some b /\ toneMap b = None.
Proof.
  toneMap_cases; intros [= <-]; (split; [lia|]); eexists; split; reflexivity.
Qed.

Lemma baseMap_untoned c : toneMap c = None -> baseMap c = None.
Proof. toneMap_cases; intros H; done. Qed.

End MorePinyinFacts.

Section ParsePinyinFacts.
Import Pinyin PinyinProps PinyinProps2.

Lemma lastTone_cons c text :
  lastTone (c :: text)
  = match toneMap c with
    | Some t => Some (default t (lastTone text))
    | None => lastTone text
    end.
Proof.
  unfold lastTone. cbn [omap list_omap]. destruct (toneMap c) as [t|]; [|done].
  rewrite last_cons. by destruct (last _).
Qed.

Lemma stripTones_spec text : forall cleaned tone,
  stripTones text cleaned tone
  = (cleaned ++ List.map unmark text, default tone (lastTone text)).
Proof.
  induction text as [|c text IH]; intros cleaned tone.
  - simpl. by rewrite app_nil_r.
  - cbn [stripTones List.map]. rewrite lastTone_cons. unfold unmark at 1.
    destruct (toneMap c) as [t|] eqn:E.
    + rewrite IH. rewrite <- app_assoc. cbn. by destruct (lastTone text).
    + rewrite IH. rewrite (baseMap_untoned _ E). cbn [default from_option id].
      by rewrite <- app_assoc.
Qed.

Lemma lastTone_range text t : lastTone text = Some t -> 1 <= t <= 4.
Proof.
  revert t. induction text as [|c text IH]; intros t; [done|].
  rewrite lastTone_cons. destruct (toneMap c) as [t'|] eqn:E; [|apply IH].
  intros [= <-]. destruct (lastTone text) as [t''|]; simpl.
  - by apply IH.
  - by apply toneMap_facts in E as [? _].
Qed.

Lemma unmark_untoned text : lastTone text = None -> List.map unmark text = text.
Proof.
  induction text as [|c text IH]; [done|]. rewrite lastTone_cons.
  destruct (toneMap c) as [t|] eqn:E; [done|]. intros H. cbn [List.map].
  rewrite IH by done. unfold unmark. by rewrite (baseMap_untoned _ E).
Qed.

Lemma toneMatch_range text t : toneMatch text = Some t -> 1 <= t <= 4.
Proof.
  unfold toneMatch, isToneDigit. destruct (last text) as [c|]; [|done].
  destruct (_ && _) eqn:E; [|done]. intros [= <-].
  apply andb_true_iff in E as [E1 E2]. apply N.leb_le in E1, E2. lia.
Qed.

Lemma matchInitial_nil : matchInitial initials [] = ([], []).
Proof. reflexivity. Qed.

(** What [parsePinyin] computes, in one formula. *)
Lemma parsePinyin_parsed text : parsePinyin text = parsed (trim text).
Proof.
  destruct text as [|c text]; [reflexivity|].
  unfold parsePinyin, parsed. set (p := trim (c :: text)).
  rewrite stripTones_spec. cbn [app]. unfold expectedTone, plainLetters.
  destruct (lastTone p) as [t|] eqn:E.
  - apply lastTone_range in E. cbn [default from_option id].
    destruct (t =? 0) eqn:E0; [apply Z.eqb_eq in E0; lia|]. done.
  - cbn [default from_option id]. rewrite Z.eqb_refl. rewrite (unmark_untoned _ E).
    destruct (toneMatch p) as [t|] eqn:Em; [|done].
    unfold dropToneDigit. unfold toneMatch in Em.
    destruct (last p) as [d|]; [|done]. by destruct (isToneDigit d).
Qed.

(** X8.  The tone of a parsed syllable is a number from 0 to 4. *)
Theorem parsePinyin_tone_range (text : jsstring) :
  0 <= tone (parsePinyin text) <= 4.
Proof.
  rewrite parsePinyin_parsed. unfold parsed.
  destruct (matchInitial _ _). cbn [tone]. unfold expectedTone.
  destruct (lastTone _) as [t|] eqn:E; [apply lastTone_range in E; lia|].
  destruct (toneMatch _) as [t|] eqn:Em; [apply toneMatch_range in Em|]; simpl; lia.
Qed.

Lemma startsWith_spec (s p : jsstring) :
  startsWith s p = true <-> s = p ++ drop (length p) s.
Proof.
  revert s. induction p as [|a p IH]; intros s.
  - destruct s; simpl; by rewrite ?drop_0.
  - destruct s as [|b s]; simpl; [done|]. rewrite andb_true_iff, N.eqb_eq, IH.
    split; [intros [-> <-]; done | intros [= -> H]; done].
Qed.

Lemma matchInitial_join inits cleaned :
  (matchInitial inits cleaned).1 ++ (matchInitial inits cleaned).2 = cleaned.
Proof.
  induction inits as [|init inits IH]; simpl; [done|].
  destruct (startsWith cleaned init) eqn:E; [|done].
  simpl. unfold substring. symmetry. by apply startsWith_spec.
Qed.

Lemma startsWith_both (s p q : jsstring) :
  startsWith s p = true -> startsWith s q = true -> (length p < length q)%nat ->
  startsWith q p = true.
Proof.
  rewrite !startsWith_spec. intros Hp Hq Hlen.
  assert (Hpre : p `prefix_of` q).
  { destruct (prefix_weak_total p q s) as [H|H].
    - by eexists.
    - by eexists.
    - done.
    - apply prefix_length in H. lia. }
  destruct Hpre as [r ->]. by rewrite drop_app_length.
Qed.

Lemma matchInitial_longest inits cleaned q :
  noShadow inits = true -> q ∈ inits -> startsWith cleaned q = true ->
  (matchInitial inits cleaned).1 ∈ inits /\
  (length q <= length (matchInitial inits cleaned).1)%nat.
Proof.
  induction inits as [|init inits IH]; intros Hns Hq Hs.
  - by apply elem_of_nil in Hq.
  - cbn [noShadow] in Hns. apply andb_true_iff in Hns as [Hall Hns].
    cbn [matchInitial]. destruct (startsWith cleaned init) eqn:E.
    + cbn [fst]. split; [by left|].
      apply elem_of_cons in Hq as [->|Hq]; [done|].
      destruct (decide (length init < length q)%nat) as [Hlt|]; [|lia].
      rewrite forallb_forall in Hall. apply list_elem_of_In in Hq.
      specialize (Hall q Hq). apply negb_true_iff, andb_false_iff in Hall as [H|H].
      * by rewrite (startsWith_both cleaned init q) in H.
      * apply Nat.ltb_ge in H. lia.
    + apply elem_of_cons in Hq as [->|Hq]; [congruence|].
      destruct (IH Hns Hq Hs) as [H1 H2]. split; [by right | done].
Qed.

Lemma matchInitial_none inits cleaned :
  (forall q, q ∈ inits -> startsWith cleaned q = false) ->
  matchInitial inits cleaned = ([], cleaned).
Proof.
  induction inits as [|init inits IH]; intros H; [done|].
  cbn [matchInitial]. rewrite (H init) by by left.
  apply IH. intros q Hq. apply H. by right.
Qed.

(** X9.  The initial of a parsed syllable is the longest entry of the table
    of initials that the letters of the syllable start with, [zh] rather than
    [z]; it is empty exactly when they start with no entry.  In both cases
    the initial followed by the final gives those letters back. *)
Theorem parsePinyin_initial_longest (text : jsstring) :
  let s := parsePinyin text in
  (forall q, q ∈ initials -> startsWith (initial s ++ final s) q = true ->
     initial s ∈ initials /\ (length q <= length (initial s))%nat) /\
  ((forall q, q ∈ initials -> startsWith (initial s ++ final s) q = false) ->
   initial s = []).
Proof.
  cbv zeta. rewrite parsePinyin_parsed. unfold parsed.
  pose proof (matchInitial_join initials (plainLetters (trim text))) as Hj.
  destruct (matchInitial _ _) as [i f] eqn:E. cbn [initial final fst snd] in *.
  rewrite Hj. split.
  - intros q Hq Hs.
    pose proof (matchInitial_longest initials _ q eq_refl Hq Hs) as H.
    by rewrite E in H.
  - intros H. apply matchInitial_none in H. congruence.
Qed.

Lemma parsePinyin_initial_longest_witness :
  initial (parsePinyin (js "zh" ++ [257%N] ++ js "ng")) ∈ initials /\
  (length (js "z") <= length (initial (parsePinyin (js "zh" ++ [257%N] ++ js "ng"))))%nat.
Proof.
  apply (proj1 (parsePinyin_initial_longest (js "zh" ++ [257%N] ++ js "ng")) (js "z")).
  - apply list_elem_of_In. vm_compute. tauto.
  - vm_compute. reflexivity.
Defined.




End ParsePinyinFacts.

Section TrimFacts.
Import Pinyin PinyinProps PinyinProps2.

Lemma trimStart_split (s : jsstring) :
  exists w, s = w ++ trimStart s /\ isBlank w.
Proof.
  induction s as [|c s (w & Hw & Hb)]; [exists []; split; [done|constructor]|].
  simpl. destruct (isWhiteSpace c) eqn:E.
  - exists (c :: w). split; [by rewrite Hw at 1 | by constructor].
  - exists []. split; [done|constructor].
Qed.

Lemma trimStart_fixed (s : jsstring) :
  match s with [] => True | c :: _ => isWhiteSpace c = false end -> trimStart s = s.
Proof. destruct s as [|c s]; [done|]. simpl. by intros ->. Qed.

Lemma trimStart_head (s : jsstring) :
  match trimStart s with [] => True | c :: _ => isWhiteSpace c = false end.
Proof.
  induction s as [|c s IH]; [done|]. simpl. by destruct (isWhiteSpace c) eqn:E.
Qed.

Lemma trimStart_blank (w : jsstring) : isBlank w -> trimStart w = [].
Proof. induction 1 as [|c w Hc Hw IH]; [done|]. simpl. by rewrite Hc. Qed.

(** What [trim] leaves: the text is blank, the trimmed part, blank; the
    trimmed part is empty or starts and ends with a non-blank. *)
Lemma trim_split (s : jsstring) :
  exists w1 w2, s = w1 ++ trim s ++ w2 /\ isBlank w1 /\ isBlank w2 /\
    (trim s = [] \/ (startsNonBlank (trim s) /\ endsNonBlank (trim s))).
Proof.
  unfold trim. destruct (trimStart_split s) as (w1 & H1 & Hb1).
  destruct (trimStart_split (rev (trimStart s))) as (w2 & H2 & Hb2).
  exists w1, (rev w2). split; [|split; [done|split]].
  - rewrite H1 at 1. f_equal. rewrite <- rev_app_distr. rewrite <- H2.
    by rewrite rev_involutive.
  - unfold isBlank. by apply Forall_rev.
  - set (t := trimStart (rev (trimStart s))) in *.
    destruct (decide (t = [])) as [->|Hne]; [by left|]. right.
    pose proof (trimStart_head (rev (trimStart s))) as Hh. fold t in Hh.
    split.
    + pose proof (trimStart_head s) as Hs.
      assert (Ha : trimStart s = rev t ++ rev w2).
      { rewrite <- rev_app_distr, <- H2. by rewrite rev_involutive. }
      rewrite Ha in Hs. unfold startsNonBlank.
      destruct (rev t) as [|c r] eqn:Er; [|done].
      apply (f_equal (@rev _)) in Er. rewrite rev_involutive in Er. done.
    + unfold endsNonBlank. destruct t as [|c t']; [done|].
      simpl rev. by rewrite last_snoc.
Qed.

Lemma trim_fixed (s : jsstring) :
  s = [] \/ (startsNonBlank s /\ endsNonBlank s) -> trim s = s.
Proof.
  intros [->|[Hs He]]; [done|]. unfold trim.
  rewrite (trimStart_fixed s) by (by destruct s).
  rewrite trimStart_fixed; [by rewrite rev_involutive|].
  unfold endsNonBlank in He. destruct (rev s) as [|c r] eqn:Er; [done|].
  apply (f_equal (@rev _)) in Er. rewrite rev_involutive in Er. subst s.
  simpl in He. by rewrite last_snoc in He.
Qed.

Lemma trim_idempotent (s : jsstring) : trim (trim s) = trim s.
Proof. destruct (trim_split s) as (_ & _ & _ & _ & _ & H). by apply trim_fixed. Qed.

Lemma trim_blank (s : jsstring) : isBlank s -> trim s = [].
Proof. intros H. unfold trim. by rewrite (trimStart_blank s H). Qed.

Lemma trim_pad (before text after : jsstring) :
  isBlank before -> isBlank after ->
  trim (before ++ trim text ++ after) = trim text.
Proof.
  intros Hb Ha. destruct (trim_split text) as (_ & _ & _ & _ & _ & H).
  unfold trim at 1.
  destruct H as [->|[Hs He]].
  - cbn [app]. by rewrite (trimStart_blank (before ++ after)) by (by apply Forall_app).
  - assert (E1 : trimStart (before ++ trim text ++ after) = trim text ++ after).
    { induction Hb as [|c b Hc Hb IH]; simpl.
      - apply trimStart_fixed. unfold startsNonBlank in Hs. by destruct (trim text).
      - by rewrite Hc. }
    rewrite E1. rewrite rev_app_distr.
    assert (E2 : trimStart (rev after ++ rev (trim text)) = rev (trim text)).
    { assert (Hra : isBlank (rev after)) by (by apply Forall_rev).
      induction Hra as [|c b Hc Hb' IH]; simpl.
      - apply trimStart_fixed. unfold endsNonBlank in He.
        destruct (rev (trim text)) as [|d r] eqn:Er; [done|].
        apply (f_equal (@rev _)) in Er. rewrite rev_involutive in Er.
        rewrite Er in He. simpl in He. by rewrite last_snoc in He.
      - by rewrite Hc. }
    rewrite E2. by rewrite rev_involutive.
Qed.

Lemma trim_padded (before text after : jsstring) :
  isBlank before -> isBlank after -> trim (before ++ text ++ after) = trim text.
Proof.
  intros Hb Ha. destruct (trim_split text) as (w1 & w2 & Ht & H1 & H2 & _).
  rewrite Ht at 1.
  replace (before ++ (w1 ++ trim text ++ w2) ++ after)
    with ((before ++ w1) ++ trim text ++ (w2 ++ after))
    by (by rewrite <- !app_assoc).
  apply trim_pad; by apply Forall_app.
Qed.

(** X11.  White space around a syllable does not matter to the parser:
    a text and the same text with blanks before and after it parse to the
    same syllable. *)
Theorem parsePinyin_ignores_outer_blanks (before text after : jsstring) :
  isBlank before -> isBlank after ->
  parsePinyin (before ++ text ++ after) = parsePinyin text.
Proof.
  intros Hb Ha. rewrite !parsePinyin_parsed. by rewrite trim_padded.
Qed.

Lemma parsePinyin_ignores_outer_blanks_witness :
  parsePinyin (js "  " ++ js "zhong1" ++ js " ") = parsePinyin (js "zhong1").
Proof.
  apply (parsePinyin_ignores_outer_blanks (js "  ") (js "zhong1") (js " "));
    unfold isBlank; repeat constructor.
Defined.

End TrimFacts.

Section SplitFacts.
Import Pinyin PinyinProps PinyinProps2.

Lemma go_concat (s : jsstring) : forall inSep cur,
  concat (splitWhitespace_go inSep cur s)
  = cur ++ List.filter (fun c => negb (isWhiteSpace c)) s.
Proof.
  induction s as [|c s IH]; intros inSep cur; simpl.
  - by rewrite !app_nil_r.
  - destruct (isWhiteSpace c); simpl.
    + destruct inSep; simpl; by rewrite IH.
    + rewrite IH. by rewrite <- app_assoc.
Qed.

Lemma go_blankFree (s : jsstring) : forall inSep cur,
  blankFree cur -> Forall blankFree (splitWhitespace_go inSep cur s).
Proof.
  induction s as [|c s IH]; intros inSep cur Hcur; simpl.
  - by repeat constructor.
  - destruct (isWhiteSpace c) eqn:E.
    + destruct inSep; [by apply IH|]. constructor; [done|]. apply IH. constructor.
    + apply IH. apply Forall_app. split; [done|]. by repeat constructor.
Qed.

Lemma go_nonempty (s : jsstring) : forall inSep cur,
  (cur <> [] \/ inSep = true \/ startsNonBlank s) ->
  (match last s with Some c => isWhiteSpace c = false | None => cur <> [] end) ->
  Forall (fun t => t <> []) (splitWhitespace_go inSep cur s).
Proof.
  induction s as [|c s IH]; intros inSep cur H1 H2; simpl.
  - simpl in H2. by repeat constructor.
  - assert (Hlast : match last s with
                    | Some d => isWhiteSpace d = false
                    | None => isWhiteSpace c = false
                    end).
    { rewrite last_cons in H2. by destruct (last s). }
    destruct (isWhiteSpace c) eqn:E.
    + assert (Hs : match last s with
                   | Some d => isWhiteSpace d = false
                   | None => False
                   end) by (destruct (last s); [done|congruence]).
      destruct inSep.
      * apply IH; [by right; left|]. destruct (last s); [done|]. done.
      * destruct H1 as [H1|[H1|H1]]; [|done|simpl in H1; congruence].
        constructor; [done|]. apply IH; [by right; left|].
        destruct (last s); [done|]. done.
    + apply IH.
      * left. by destruct cur.
      * destruct (last s); [done|]. by destruct cur.
Qed.

Lemma trim_nil_blank (text : jsstring) : trim text = [] <-> isBlank text.
Proof.
  split; [|apply trim_blank].
  intros H. destruct (trim_split text) as (w1 & w2 & Ht & H1 & H2 & _).
  rewrite Ht, H. by apply Forall_app.
Qed.

Lemma filter_blank (w : jsstring) :
  isBlank w -> List.filter (fun c => negb (isWhiteSpace c)) w = [].
Proof. induction 1 as [|c w Hc Hw IH]; [done|]. simpl. by rewrite Hc. Qed.

Lemma filter_trim (text : jsstring) :
  List.filter (fun c => negb (isWhiteSpace c)) (trim text)
  = List.filter (fun c => negb (isWhiteSpace c)) text.
Proof.
  destruct (trim_split text) as (w1 & w2 & Ht & H1 & H2 & _).
  set (t := trim text) in *. rewrite Ht.
  rewrite !List.filter_app, (filter_blank w1), (filter_blank w2) by done.
  by rewrite app_nil_r.
Qed.

(** X12.  The syllables of a pinyin text.  A text with a non-blank code unit
    is cut into pieces that are not empty, hold no white space and, put
    together, are the text without its white space; each piece is parsed as
    one syllable.  A text that is not empty but blank gives one syllable,
    the empty one, and not the empty sequence that the empty text gives. *)
Theorem parsePinyinString_pieces (text : jsstring) :
  (~ isBlank text ->
   exists pieces,
     parsePinyinString text = List.map parsePinyin pieces /\
     concat pieces = List.filter (fun c => negb (isWhiteSpace c)) text /\
     Forall (fun t => t <> [] /\ blankFree t) pieces) /\
  (text <> [] -> isBlank text -> parsePinyinString text = [emptySyllable]) /\
  parsePinyinString [] = [].
Proof.
  split; [|split; [|done]].
  - intros Hnb. exists (splitWhitespace (trim text)).
    assert (Hne : text <> []) by (intros ->; apply Hnb; constructor).
    split; [by destruct text|]. unfold splitWhitespace.
    split; [by rewrite go_concat, filter_trim|].
    destruct (trim_split text) as (_ & _ & _ & _ & _ & [H|[Hs He]]);
      [by apply trim_nil_blank in H|].
    apply Forall_and. split.
    + apply go_nonempty; [by right; right|]. unfold endsNonBlank in He.
      by destruct (last (trim text)).
    + apply go_blankFree. constructor.
  - intros Hne Hb. destruct text as [|c text]; [done|].
    unfold parsePinyinString. by rewrite (trim_blank _ Hb).
Qed.

Lemma parsePinyinString_pieces_witness :
  (exists pieces,
     parsePinyinString Props.yiFanFengShun_pinyin = List.map parsePinyin pieces /\
     concat pieces
     = List.filter (fun c => negb (isWhiteSpace c)) Props.yiFanFengShun_pinyin /\
     Forall (fun t => t <> [] /\ blankFree t) pieces) /\
  parsePinyinString (js "  ") = [emptySyllable].
Proof.
  split.
  - apply (proj1 (parsePinyinString_pieces Props.yiFanFengShun_pinyin)).
    intros H. inversion H as [|? ? Hc _]. vm_compute in Hc. discriminate Hc.
  - apply (proj1 (proj2 (parsePinyinString_pieces (js "  ")))); [done|].
    unfold isBlank. repeat constructor.
Defined.

End SplitFacts.

(** ** Leaderboard: invariant, orders, sizes, merge *)

Section MoreLeaderboardFacts.
Import Leaderboard Props LeaderboardMore.

Lemma recordedTable_sound (t : Table) participants winnerId winnerName :
  sound t -> sound (recordedTable t participants winnerId winnerName).
Proof.
  intros Hs id e' He'.
  pose proof (recordedTable_recorded t participants winnerId winnerName id)
    as (Hg & Hw & _).
  unfold gamesOf, winsOf in Hg, Hw. rewrite He' in Hg, Hw. simpl in Hg, Hw.
  assert (Hold : 0 <= default 0 (wins <$> Obj.get id t)
                 <= default 0 (gamesPlayed <$> Obj.get id t)).
  { destruct (Obj.get id t) as [e|] eqn:E; simpl; [by apply (Hs id)|lia]. }
  unfold indicator in *. repeat case_decide; try lia; tauto.
Qed.

Lemma sound_of_Forall (t : Table) :
  Forall (fun kv => 0 <= wins kv.2 <= gamesPlayed kv.2) t -> sound t.
Proof.
  induction 1 as [|[k e] t Hke Ht IH]; intros id e'; simpl; [done|].
  case_decide; [intros [= <-]; done | apply IH].
Qed.

(** X13.  Nobody has more wins than games.  If in the table of a group every
    entry has [0 <= wins <= gamesPlayed], the same holds after any call of
    [recordGameResult]. *)
Theorem recordGameResult_keeps_wins_below_games
    (files : Files) (groupId : option jsstring) (participants : list Participant)
    (winnerId : option jsstring) (winnerName : jsstring) :
  sound (_readLeaderboard files groupId) ->
  sound (_readLeaderboard
           (recordGameResult files groupId participants winnerId winnerName) groupId).
Proof.
  intros H. unfold recordGameResult, _writeLeaderboard, _readLeaderboard at 1.
  rewrite get_set, decide_True by done. by apply recordedTable_sound.
Qed.

Lemma recordGameResult_keeps_wins_below_games_witness :
  sound (_readLeaderboard
           (recordGameResult tieFiles (Some (js "g1"))
              [ {| p_userId := Some (js "1"); p_nickname := Some (js "A") |} ]
              (Some (js "3")) []) (Some (js "g1"))).
Proof.
  apply recordGameResult_keeps_wins_below_games.
  assert (E : _readLeaderboard tieFiles (Some (js "g1")) = tieTable)
    by (vm_compute; reflexivity).
  rewrite E. apply sound_of_Forall. unfold tieTable.
  repeat constructor; simpl; lia.
Defined.

End MoreLeaderboardFacts.

Section MoreRankingFacts.
Import Leaderboard Props LeaderboardMore.
Variable localeCompare : jsstring -> jsstring -> Z.

Lemma cmpWins_le (a b : Player) :
  cmpWins localeCompare a b <= 0 <-> winsOrder localeCompare a b.
Proof.
  unfold cmpWins, winsOrder.
  destruct (pl_wins b =? pl_wins a) eqn:E1; simpl.
  - apply Z.eqb_eq in E1. destruct (pl_gamesPlayed b =? pl_gamesPlayed a) eqn:E2; simpl.
    + apply Z.eqb_eq in E2. intuition lia.
    + apply Z.eqb_neq in E2. intuition lia.
  - apply Z.eqb_neq in E1. intuition lia.
Qed.

Lemma cmpRate_le (a b : Player) :
  cmpRate localeCompare a b <= 0 <-> rateOrder localeCompare a b.
Proof.
  unfold cmpRate, rateOrder.
  destruct (winRate b =? winRate a) eqn:E1; simpl.
  - apply Z.eqb_eq in E1. destruct (pl_gamesPlayed b =? pl_gamesPlayed a) eqn:E2; simpl.
    + apply Z.eqb_eq in E2. intuition lia.
    + apply Z.eqb_neq in E2. intuition lia.
  - apply Z.eqb_neq in E1. intuition lia.
Qed.

Lemma sorted_ordered (cmp : Player -> Player -> Z) (R : Player -> Player -> Prop)
    (players : list Player) limit :
  (forall a b, cmp a b <= 0 <-> R a b) ->
  (forall a b, R a b \/ R b a) ->
  (forall a b c, R a b -> R b c -> R a c) ->
  orderedBy R (slice0 (sort cmp players) limit).
Proof.
  intros Hle Htot Htrans.
  destruct (slice0_sublist (sort cmp players) limit) as [n ->].
  intros i j a b Hij Hi Hj. apply Hle.
  eapply (sorted_lookup (fun a b => cmp a b <= 0)); eauto.
  apply sorted_take, sort_sorted.
  - intros x y. rewrite !Hle. apply Htot.
  - intros x y z. rewrite !Hle. apply Htrans.
Qed.

Lemma ranked_wins_ordered players sortBy limit :
  consistent localeCompare -> sortBy <> js "games" -> sortBy <> js "rate" ->
  orderedBy (winsOrder localeCompare) (ranked localeCompare players sortBy limit).
Proof.
  intros [Htot Htrans] H1 H2. unfold ranked. rewrite !decide_False by done.
  apply sorted_ordered.
  - apply cmpWins_le.
  - intros x y. unfold winsOrder. destruct (Htot (userId x) (userId y)); lia.
  - intros x y z. unfold winsOrder. intros Hxy Hyz.
    pose proof (Htrans (userId x) (userId y) (userId z)). lia.
Qed.

Lemma ranked_rate_ordered players limit :
  consistent localeCompare ->
  orderedBy (rateOrder localeCompare) (ranked localeCompare players (js "rate") limit).
Proof.
  intros [Htot Htrans]. unfold ranked. rewrite decide_False by done.
  rewrite decide_True by done. apply sorted_ordered.
  - apply cmpRate_le.
  - intros x y. unfold rateOrder. destruct (Htot (userId x) (userId y)); lia.
  - intros x y z. unfold rateOrder. intros Hxy Hyz.
    pose proof (Htrans (userId x) (userId y) (userId z)). lia.
Qed.

(** X14.  The orders of the other rankings, for a consistent collation.
    Under the key [wins], and under any key other than [games] and [rate],
    the rows of a group ranking and of the global ranking come by wins
    descending, then games played descending, then player id ascending;
    under [rate] by win rate descending, then games played descending, then
    player id ascending.  The win rate is the one [_calculateWinRate]
    computes on doubles. *)
Theorem rankings_wins_and_rate_order
    (files : Files) (groupId : option jsstring) (sortBy : jsstring) (limit : Z) :
  consistent localeCompare ->
  (sortBy <> js "games" -> sortBy <> js "rate" ->
   orderedBy (winsOrder localeCompare)
             (getLeaderboard localeCompare files groupId sortBy limit) /\
   orderedBy (winsOrder localeCompare)
             (getGlobalLeaderboard localeCompare files sortBy limit)) /\
  orderedBy (rateOrder localeCompare)
            (getLeaderboard localeCompare files groupId (js "rate") limit) /\
  orderedBy (rateOrder localeCompare)
            (getGlobalLeaderboard localeCompare files (js "rate") limit).
Proof.
  intros H. split; [|split].
  - intros H1 H2. split; by apply ranked_wins_ordered.
  - by apply ranked_rate_ordered.
  - by apply ranked_rate_ordered.
Qed.

Lemma slice0_take {A} (l : list A) (limit : Z) :
  0 <= limit ->
  slice0 l limit = take (Z.to_nat (Z.min limit (Z.of_nat (length l)))) l.
Proof.
  intros H. unfold slice0. destruct (limit <? 0) eqn:E; [|done].
  apply Z.ltb_lt in E. lia.
Qed.

Lemma ranked_top_of players sortBy limit :
  0 <= limit ->
  top_of (ranked localeCompare players sortBy limit) (eligible sortBy players) limit.
Proof.
  intros Hl. unfold ranked, eligible.
  assert (Hgen : forall (cmp : Player -> Player -> Z) rows,
             top_of (slice0 (sort cmp rows) limit) rows limit).
  { intros cmp rows. rewrite slice0_take by done.
    pose proof (Permutation_length (sort_perm cmp rows)) as Hlen.
    rewrite Hlen. split.
    - rewrite length_take. lia.
    - exists (drop (Z.to_nat (Z.min limit (Z.of_nat (length rows)))) (sort cmp rows)).
      rewrite take_drop. apply sort_perm. }
  destruct (decide (sortBy = js "games")) as [->|Hg].
  - rewrite decide_False by done. apply Hgen.
  - destruct (decide (sortBy = js "rate")); apply Hgen.
Qed.

(** X15.  A ranking is the top of the table.  For a limit that is not
    negative, the ranking of a group and the global ranking hold as many rows
    as the limit allows and the table has (for [rate]: has with three games
    or more), and these rows are distinct rows of the table: together with
    the rows left out they are the table in another order. *)
Theorem rankings_are_top_of
    (files : Files) (groupId : option jsstring) (sortBy : jsstring) (limit : Z) :
  0 <= limit ->
  top_of (getLeaderboard localeCompare files groupId sortBy limit)
         (eligible sortBy (List.map toPlayer (_readLeaderboard files groupId))) limit /\
  top_of (getGlobalLeaderboard localeCompare files sortBy limit)
         (eligible sortBy (List.map toPlayer (globalStats files))) limit.
Proof. intros H. split; by apply ranked_top_of. Qed.

End MoreRankingFacts.

Lemma rankings_wins_and_rate_order_witness :
  Props.orderedBy (LeaderboardMore.winsOrder Props.codeUnitCompare)
    (Leaderboard.getLeaderboard Props.codeUnitCompare Props.tieFiles
       (Some (js "g1")) (js "wins") 10) /\
  Props.orderedBy (LeaderboardMore.rateOrder Props.codeUnitCompare)
    (Leaderboard.getLeaderboard Props.codeUnitCompare Props.tieFiles
       (Some (js "g1")) (js "rate") 10).
Proof.
  destruct (rankings_wins_and_rate_order Props.codeUnitCompare Props.tieFiles
              (Some (js "g1")) (js "wins") 10 codeUnitCompare_consistent)
    as (H1 & H2 & _).
  split; [apply H1; discriminate | exact H2].
Defined.

Lemma rankings_are_top_of_witness :
  LeaderboardMore.top_of
    (Leaderboard.getLeaderboard Props.codeUnitCompare Props.tieFiles
       (Some (js "g1")) (js "wins") 1)
    (LeaderboardMore.eligible (js "wins")
       (List.map Leaderboard.toPlayer
          (Leaderboard._readLeaderboard Props.tieFiles (Some (js "g1"))))) 1.
Proof.
  apply (rankings_are_top_of Props.codeUnitCompare Props.tieFiles (Some (js "g1"))
           (js "wins") 1). lia.
Defined.

(** ** The win rate is the one of the doubles *)

Section WinRateFacts.
Import Leaderboard Props.

Lemma roundHalfEven_nearest n d :
  0 <= n -> 0 < d ->
  2 * Z.abs (roundHalfEven n d * d - n) <= d /\
  (2 * Z.abs (roundHalfEven n d * d - n) = d -> Z.even (roundHalfEven n d) = true).
Proof.
  intros Hn Hd. unfold roundHalfEven.
  pose proof (Z.div_mod n d ltac:(lia)) as Hdm.
  pose proof (Z.mod_pos_bound n d Hd) as Hr.
  set (q := n / d) in *. set (r := n mod d) in *.
  destruct (Z.ltb_spec (2 * r) d); [split; [lia|intros; exfalso; lia]|].
  destruct (Z.ltb_spec d (2 * r)); [split; [lia|intros; exfalso; lia]|].
  destruct (Z.even q) eqn:E; [split; [lia|done]|]. split; [lia|]. intros _.
  rewrite Z.even_add. rewrite E. reflexivity.
Qed.

Lemma scaled_pos n d e : 0 < n -> 0 < d -> 0 < (scaled n d e).1 /\ 0 < (scaled n d e).2.
Proof.
  intros Hn Hd. unfold scaled. destruct (Z.leb_spec 0 e); simpl.
  - split; [done|]. apply Z.mul_pos_pos; [done|]. by apply Z.pow_pos_nonneg.
  - split; [|done]. apply Z.mul_pos_pos; [done|]. apply Z.pow_pos_nonneg; lia.
Qed.

(** [scaled n d e2] is [scaled n d e1] times [2^(e1 - e2)]. *)
Lemma scaled_ratio n d e1 e2 :
  e2 <= e1 ->
  (scaled n d e2).1 * (scaled n d e1).2
  = 2 ^ (e1 - e2) * (scaled n d e1).1 * (scaled n d e2).2.
Proof.
  intros He. unfold scaled.
  destruct (Z.leb_spec 0 e1), (Z.leb_spec 0 e2); simpl; try lia.
  - replace e1 with ((e1 - e2) + e2) at 1 by lia. rewrite Z.pow_add_r by lia. ring.
  - replace (2 ^ (e1 - e2)) with (2 ^ e1 * 2 ^ (- e2))
      by (rewrite <- Z.pow_add_r by lia; f_equal; lia). ring.
  - replace (- e2) with ((e1 - e2) + (- e1)) at 1 by lia. rewrite Z.pow_add_r by lia. ring.
Qed.

Lemma scaled_log2 n d :
  0 < n -> 0 < d ->
  let k := Z.log2 n - Z.log2 d in
  (scaled n d k).1 < 2 * (scaled n d k).2 /\ (scaled n d k).2 < 2 * (scaled n d k).1.
Proof.
  intros Hn Hd. cbv zeta.
  destruct (Z.log2_spec n Hn) as [Ha1 Ha2]. destruct (Z.log2_spec d Hd) as [Hb1 Hb2].
  pose proof (Z.log2_nonneg n) as Ha. pose proof (Z.log2_nonneg d) as Hb.
  set (a := Z.log2 n) in *. set (b := Z.log2 d) in *.
  rewrite Z.pow_succ_r in Ha2, Hb2 by done.
  assert (Hpa : 0 < 2 ^ a) by (by apply Z.pow_pos_nonneg).
  assert (Hpb : 0 < 2 ^ b) by (by apply Z.pow_pos_nonneg).
  assert (Hcross : (scaled n d (a - b)).1 * d * 2 ^ a = n * (scaled n d (a - b)).2 * 2 ^ b).
  { unfold scaled. destruct (Z.leb_spec 0 (a - b)); simpl.
    - replace a with ((a - b) + b) at 1 by lia. rewrite Z.pow_add_r by lia. ring.
    - replace b with ((- (a - b)) + a) at 2 by lia. rewrite Z.pow_add_r by lia. ring. }
  destruct (scaled_pos n d (a - b) Hn Hd) as [Hn1 Hd1].
  set (n1 := (scaled n d (a - b)).1) in *. set (d1 := (scaled n d (a - b)).2) in *.
  split.
  - apply (Z.mul_lt_mono_pos_r (d * 2 ^ a)); [nia|].
    replace (n1 * (d * 2 ^ a)) with (n * d1 * 2 ^ b) by lia.
    assert (n * (d1 * 2 ^ b) < (2 * 2 ^ a) * (d1 * 2 ^ b)) by (apply Z.mul_lt_mono_pos_r; nia).
    assert ((2 * 2 ^ a * d1) * 2 ^ b <= (2 * 2 ^ a * d1) * d) by (apply Z.mul_le_mono_nonneg_l; nia).
    nia.
  - apply (Z.mul_lt_mono_pos_r (2 ^ b * 2 ^ a)); [nia|].
    assert ((2 ^ a) * (d1 * 2 ^ b) <= n * (d1 * 2 ^ b)) by (apply Z.mul_le_mono_nonneg_r; nia).
    assert ((n1 * 2 ^ a) * d < (n1 * 2 ^ a) * (2 * 2 ^ b)) by (apply Z.mul_lt_mono_pos_l; nia).
    nia.
Qed.

(** The double nearest to [n / d]: at its exponent the fraction lies between
    [2^52] and [2^53], and the significand is the integer nearest to it, the
    even one of two. *)
Lemma nearestDouble_nearest n d :
  0 < n -> 0 < d ->
  let m := (nearestDouble n d).1 in
  let e := (nearestDouble n d).2 in
  let n' := (scaled n d e).1 in
  let d' := (scaled n d e).2 in
  2 ^ 52 * d' <= n' < 2 ^ 53 * d' /\
  2 * Z.abs (m * d' - n') <= d' /\
  (2 * Z.abs (m * d' - n') = d' -> Z.even m = true).
Proof.
  intros Hn Hd. unfold nearestDouble.
  set (k0 := Z.log2 n - Z.log2 d).
  destruct (scaled_log2 n d Hn Hd) as [H1 H2]. fold k0 in H1, H2.
  destruct (scaled n d k0) as [n1 d1] eqn:E0. cbn [fst snd] in H1, H2.
  set (k := if n1 <? d1 then k0 - 1 else k0).
  assert (Hk : (scaled n d k).2 <= (scaled n d k).1 < 2 * (scaled n d k).2).
  { unfold k. destruct (Z.ltb_spec n1 d1) as [Hlt|Hge].
    - pose proof (scaled_ratio n d k0 (k0 - 1) ltac:(lia)) as Hr.
      rewrite E0 in Hr. simpl in Hr. replace (k0 - (k0 - 1)) with 1 in Hr by lia.
      change (2 ^ 1) with 2 in Hr.
      destruct (scaled_pos n d (k0 - 1) Hn Hd) as [Hp1 Hp2].
      pose proof (scaled_pos n d k0 Hn Hd) as [Hq1 Hq2]. rewrite E0 in Hq1, Hq2.
      cbn [fst snd] in *.
      destruct (scaled n d (k0 - 1)) as [n2 d2]. cbn [fst snd] in *. split.
      + apply (Z.mul_le_mono_pos_r _ _ d1); [done|]. rewrite Hr.
        assert (d1 * d2 <= (2 * n1) * d2) by (apply Z.mul_le_mono_nonneg_r; lia). lia.
      + apply (Z.mul_lt_mono_pos_r d1); [done|]. rewrite Hr.
        assert (n1 * d2 < d1 * d2) by (apply Z.mul_lt_mono_pos_r; lia). lia.
    - rewrite E0. cbn [fst snd]. lia. }
  clearbody k. clear H1 H2 E0.
  pose proof (scaled_ratio n d k (k - 52) ltac:(lia)) as Hr.
  replace (k - (k - 52)) with 52 in Hr by lia.
  destruct (scaled_pos n d k Hn Hd) as [Hp1 Hp2].
  destruct (scaled_pos n d (k - 52) Hn Hd) as [Hq1 Hq2].
  destruct (scaled n d (k - 52)) as [n' d'] eqn:E. cbn [fst snd] in *.
  rewrite E. cbn [fst snd].
  destruct (roundHalfEven_nearest n' d' ltac:(lia) Hq2) as [R1 R2].
  split; [|split; done].
  set (P := 2 ^ 52) in *. assert (HP : 2 ^ 53 = 2 * P) by reflexivity. rewrite HP.
  assert (0 < P) by reflexivity.
  destruct (scaled n d k) as [nk dk]. cbn [fst snd] in *. split.
  - apply (Z.mul_le_mono_pos_r _ _ dk); [done|]. nia.
  - apply (Z.mul_lt_mono_pos_r dk); [done|]. nia.
Qed.

(** The number of hundredths nearest to a double, the larger one of two. *)
Lemma toFixed2_nearest m e :
  0 <= m ->
  let n := (scaled m 1 (- e)).1 in
  let d := (scaled m 1 (- e)).2 in
  2 * d * toFixed2 (m, e) <= 200 * n + d < 2 * d * (toFixed2 (m, e) + 1).
Proof.
  intros Hm. cbv zeta. unfold toFixed2.
  assert (Hd : 0 < (scaled m 1 (- e)).2).
  { unfold scaled. destruct (Z.leb_spec 0 (- e)); simpl; [|lia].
    apply Z.mul_pos_pos; [lia|]. by apply Z.pow_pos_nonneg. }
  destruct (scaled m 1 (- e)) as [n d]. cbn [fst snd] in *.
  pose proof (Z.div_mod (200 * n + d) (2 * d) ltac:(lia)) as Hdm.
  pose proof (Z.mod_pos_bound (200 * n + d) (2 * d) ltac:(lia)) as Hr.
  lia.
Qed.

(** 23 wins in 160 games are 14.375 percent, which no double is: the
    product of the host is just below, and [toFixed] gives 14.37, where 22
    wins in 153 games give 14.38. *)
Example win_rate_run :
  _calculateWinRate 23 160 = 1437 /\ _calculateWinRate 22 153 = 1438 /\
  _calculateWinRate 1 3 = 3333 /\ _calculateWinRate 2 3 = 6667 /\
  _calculateWinRate 1 8 = 1250 /\ _calculateWinRate 5 0 = 0.
Proof. vm_compute. repeat split. Qed.

(** So the second of these two players comes first under [rate]. *)
Example rate_ranking_run :
  List.map userId
    (getLeaderboard codeUnitCompare
       [ (js "g1",
          [ (js "1", {| nickname := js "A"; wins := 23; gamesPlayed := 160 |});
            (js "2", {| nickname := js "B"; wins := 22; gamesPlayed := 153 |}) ]) ]
       (Some (js "g1")) (js "rate") 10)
  = [js "2"; js "1"].
Proof. vm_compute. reflexivity. Qed.

End WinRateFacts.

Section GlobalMergeFacts.
Import Leaderboard Props LeaderboardMore.
Variable localeCompare : jsstring -> jsstring -> Z.

Lemma set_keys {V} (k : jsstring) (v : V) (o : Obj.t V) :
  (k ∈ Obj.keys o -> Obj.keys (Obj.set k v o) = Obj.keys o) /\
  (k ∉ Obj.keys o -> Obj.keys (Obj.set k v o) = Obj.keys o ++ [k]).
Proof.
  unfold Obj.keys. induction o as [|[k' v'] o [IH1 IH2]]; cbn [Obj.set List.map fst].
  - split; [|done]. intros H. by apply elem_of_nil in H.
  - destruct (decide (k' = k)) as [->|Hne]; cbn [List.map fst].
    + split; [done|]. intros H. exfalso. apply H. by left.
    + split; intros H.
      * apply elem_of_cons in H as [->|H]; [done|]. by rewrite IH1.
      * rewrite IH2; [done|]. intros Hin. apply H. by right.
Qed.


Lemma get_of_elem {V} (k : jsstring) (v : V) (o : Obj.t V) :
  NoDup (Obj.keys o) -> (k, v) ∈ o -> Obj.get k o = Some v.
Proof.
  unfold Obj.keys. induction o as [|[k' v'] o IH]; intros Hnd Hin.
  - by apply elem_of_nil in Hin.
  - simpl in *. apply NoDup_cons in Hnd as [Hk' Hnd].
    apply elem_of_cons in Hin as [[= <- <-]|Hin].
    + by rewrite decide_True.
    + rewrite decide_False; [by apply IH|]. intros ->. apply Hk'.
      apply list_elem_of_fmap. by exists (k, v).
Qed.





Lemma ranked_subset players sortBy limit :
  Forall (fun p => p ∈ players) (ranked localeCompare players sortBy limit).
Proof.
  unfold ranked.
  assert (Hgen : forall (cmp : Player -> Player -> Z) rows,
             Forall (fun p => p ∈ rows) (slice0 (sort cmp rows) limit)).
  { intros cmp rows. destruct (slice0_sublist (sort cmp rows) limit) as [n ->].
    apply Forall_take. rewrite sort_perm. by apply Forall_forall. }
  destruct (decide (sortBy = js "games")); [apply Hgen|].
  destruct (decide (sortBy = js "rate")); [|apply Hgen].
  eapply Forall_impl; [apply Hgen|]. intros p Hp. simpl in Hp.
  apply list_elem_of_In, filter_In in Hp as [Hp _]. by apply list_elem_of_In.
Qed.


Lemma getPlayerStats_of_row (files : Files) (groupId : option jsstring) p :
  NoDup (Obj.keys (_readLeaderboard files groupId)) ->
  p ∈ List.map toPlayer (_readLeaderboard files groupId) ->
  getPlayerStats files groupId (userId p)
  = Some {| st_nickname := pl_nickname p; st_wins := pl_wins p;
            st_gamesPlayed := pl_gamesPlayed p; st_winRate := winRate p |}.
Proof.
  intros Hnd Hp. apply list_elem_of_fmap in Hp as ([k e] & -> & Hke).
  unfold getPlayerStats. simpl. by rewrite (get_of_elem k e _ Hnd Hke).
Qed.

(** X17.  The personal statistics agree with the ranking.  In a group whose
    table has one entry per id, [getPlayerStats] asked for the id of any row
    of any ranking of the group returns the nickname, wins, games played and
    win rate of that row; asked for an id without entry, it returns
    [null]. *)
Theorem getPlayerStats_agrees_with_ranking
    (files : Files) (groupId : option jsstring) (sortBy : jsstring) (limit : Z) :
  NoDup (Obj.keys (_readLeaderboard files groupId)) ->
  Forall (fun p =>
            getPlayerStats files groupId (userId p)
            = Some {| st_nickname := pl_nickname p; st_wins := pl_wins p;
                      st_gamesPlayed := pl_gamesPlayed p; st_winRate := winRate p |})
         (getLeaderboard localeCompare files groupId sortBy limit) /\
  (forall id, id ∉ Obj.keys (_readLeaderboard files groupId) ->
     getPlayerStats files groupId id = None).
Proof.
  intros Hnd. split.
  - unfold getLeaderboard. eapply Forall_impl; [apply ranked_subset|].
    intros p Hp. by apply getPlayerStats_of_row.
  - intros id Hid. unfold getPlayerStats.
    destruct (Obj.get id (_readLeaderboard files groupId)) as [e|] eqn:E; [|done].
    exfalso. apply Hid. clear Hid Hnd. unfold Obj.keys.
    induction (_readLeaderboard files groupId) as [|[k v] t IH]; [done|].
    simpl in *. case_decide; [subst; by left | right; by apply IH].
Qed.

End GlobalMergeFacts.

Lemma getPlayerStats_agrees_with_ranking_witness :
  Forall (fun p =>
            LeaderboardMore.getPlayerStats Props.tieFiles (Some (js "g1"))
              (Leaderboard.userId p)
            = Some {| LeaderboardMore.st_nickname := Leaderboard.pl_nickname p;
                      LeaderboardMore.st_wins := Leaderboard.pl_wins p;
                      LeaderboardMore.st_gamesPlayed := Leaderboard.pl_gamesPlayed p;
                      LeaderboardMore.st_winRate := Leaderboard.winRate p |})
         (Leaderboard.getLeaderboard Props.codeUnitCompare Props.tieFiles
            (Some (js "g1")) (js "wins") 10).
Proof.
  apply (getPlayerStats_agrees_with_ranking Props.codeUnitCompare Props.tieFiles
           (Some (js "g1")) (js "wins") 10).
  assert (E : Obj.keys (Leaderboard._readLeaderboard Props.tieFiles (Some (js "g1")))
              = [js "1"; js "2"]) by (vm_compute; reflexivity).
  rewrite E. apply NoDup_cons. split.
  - intros H. apply list_elem_of_singleton in H. discriminate H.
  - apply NoDup_singleton.
Defined.

(** ** Sessions under runs of commands *)

Section RunFacts.
Import DB GameBase Props Sessions.
Variable toLowerCase : jsstring -> jsstring.
Variable isValidWord : jsstring -> Z -> bool.
Variable isValidIdiom : jsstring -> bool.
Variable getIdiomPinyin : jsstring -> option jsstring.

Local Abbreviation step := (Sessions.step toLowerCase isValidWord isValidIdiom getIdiomPinyin).
Local Abbreviation run := (Sessions.run toLowerCase isValidWord isValidIdiom getIdiomPinyin).

Lemma store_ok_get r scope g : store_ok r -> getGameData r scope = Some g -> session_ok g.
Proof.
  destruct r as [store|]; simpl; [|done]. intros H Hg. by apply (H _ _ Hg).
Qed.

Lemma store_ok_save r scope g :
  store_ok r -> session_ok g -> store_ok (saveGameData r scope g).1.
Proof.
  destruct r as [store|]; simpl; [|done]. intros H Hg. by apply map_Forall_insert_2.
Qed.

Lemma store_ok_delete r scope : store_ok r -> store_ok (deleteGameData r scope).1.
Proof.
  destruct r as [store|]; simpl; [|done]. intros H. by apply map_Forall_delete.
Qed.

Lemma applyGuess_ok e guess gp g :
  session_ok g -> finished g = false -> session_ok (applyGuess e guess gp g).1.
Proof.
  intros (H1 & H2 & H3) Hf. specialize (H3 Hf). unfold applyGuess, session_ok. simpl.
  rewrite length_app. simpl. split; [lia|]. split; [lia|].
  intros Hfin. apply orb_false_iff in Hfin as [_ Hfin]. lia.
Qed.

Lemma adaptiveAttempts_pos n : 0 < WordStart.adaptiveAttempts n.
Proof.
  unfold WordStart.adaptiveAttempts.
  repeat (match goal with |- context [match ?x with _ => _ end] => destruct x end);
    lia.
Qed.

Lemma step_ok w c : store_ok (redis w) -> store_ok (redis (step w c)).
Proof.
  intros H.
  destruct c as [e target now|e n target random noDict now|e guess group user
                 |e guess group user|e|group]; cbn [Sessions.step].
  - unfold IdiomGame.startNewIdiomGame. cbv zeta.
    repeat case_match; simpl; try done;
      (apply store_ok_save; [done|]; unfold session_ok, IdiomGame.maxAttempts; simpl; lia).
  - unfold WordStart.startNewGame. cbv zeta.
    pose proof (adaptiveAttempts_pos n).
    repeat case_match; simpl; try done;
      (apply store_ok_save; [done|]; unfold session_ok; simpl; lia).
  - unfold IdiomGame.processGuess. cbv zeta.
    destruct (getGameData _ _) as [g|] eqn:Hg; [|done].
    destruct (finished g) eqn:Hf; [done|]. case_match; [done|].
    pose proof (applyGuess_ok e guess (Some (getIdiomPinyin guess)) g
                  (store_ok_get _ _ _ H Hg) Hf) as Hok.
    destruct (applyGuess _ _ _ _) as [g' isWin]. simpl. by apply store_ok_save.
  - unfold WordGame.processGuess. cbv zeta.
    destruct (getGameData _ _) as [g|] eqn:Hg; [|done].
    destruct (finished g) eqn:Hf; [done|]. case_match; [done|].
    pose proof (applyGuess_ok e guess None g (store_ok_get _ _ _ H Hg) Hf) as Hok.
    destruct (applyGuess _ _ _ _) as [g' isWin]. simpl. by apply store_ok_save.
  - unfold GiveUp.giveUpGame. cbv zeta.
    destruct (getGameData _ _) as [g|] eqn:Hg; [|done].
    destruct (finished g) eqn:Hf; [done|]. simpl.
    apply store_ok_save; [done|].
    destruct (store_ok_get _ _ _ H Hg) as (H1 & H2 & H3).
    unfold session_ok. simpl. split; [done|]. split; [done|]. done.
  - simpl. by apply store_ok_delete.
Qed.

(** X18.  No game gets more guesses than it allows.  If every stored record
    counts its guesses ([attempts] is the number of [guesses]), has used no
    more than [maxAttempts] of them and is finished when they are used up,
    then the same holds after any sequence of calls of the handlers of the
    word game and of the idiom game (starting a game, guessing, giving up)
    and of the deferred deletions, whatever the corpus accepts. *)
Theorem sessions_stay_within_attempts (w : World) (commands : list Command) :
  store_ok (redis w) -> store_ok (redis (run w commands)).
Proof.
  revert w. induction commands as [|c cs IH]; intros w H; [done|].
  cbn [Sessions.run foldl]. apply IH. by apply step_ok.
Qed.

End RunFacts.

Section ScopeFacts.
Import DB GameBase Props Sessions.
Variable toLowerCase : jsstring -> jsstring.
Variable isValidWord : jsstring -> Z -> bool.
Variable isValidIdiom : jsstring -> bool.
Variable getIdiomPinyin : jsstring -> option jsstring.

Local Abbreviation step := (Sessions.step toLowerCase isValidWord isValidIdiom getIdiomPinyin).

Lemma getGameData_same r a b : toStr a = toStr b -> getGameData r a = getGameData r b.
Proof. intros H. unfold getGameData, gameKeyOf. by rewrite H. Qed.

Lemma save_get r a d g :
  getGameData r a = Some g -> getGameData (saveGameData r a d).1 a = Some d.
Proof. destruct r as [store|]; [|done]. intros _. apply store_read_own_write. Qed.

Lemma save_other r a d b :
  toStr a <> toStr b -> getGameData (saveGameData r a d).1 b = getGameData r b.
Proof. intros H. by apply store_isolated. Qed.

Lemma step_other_scope (w : World) (c : Command) (other : option jsstring) :
  toStr (scopeOf c) <> toStr other ->
  getGameData (redis (step w c)) other = getGameData (redis w) other.
Proof.
  intros Hne.
  destruct c as [e target now|e n target random noDict now|e guess group user
                 |e guess group user|e|group]; cbn [Sessions.step scopeOf] in *.
  - unfold IdiomGame.startNewIdiomGame. cbv zeta.
    repeat case_match; simpl; try done; by apply save_other.
  - unfold WordStart.startNewGame. cbv zeta.
    repeat case_match; simpl; try done; by apply save_other.
  - unfold IdiomGame.processGuess. cbv zeta.
    destruct (getGameData (redis w) _) as [g|]; [|done].
    destruct (finished g); [done|]. case_match; [done|].
    destruct (applyGuess _ _ _ _) as [g' isWin]. simpl. by apply save_other.
  - unfold WordGame.processGuess. cbv zeta.
    destruct (getGameData (redis w) _) as [g|]; [|done].
    destruct (finished g); [done|]. case_match; [done|].
    destruct (applyGuess _ _ _ _) as [g' isWin]. simpl. by apply save_other.
  - unfold GiveUp.giveUpGame. cbv zeta.
    destruct (getGameData (redis w) _) as [g|]; [|done].
    destruct (finished g); [done|]. simpl. by apply save_other.
  - simpl. destruct (redis w) as [store|]; simpl; [|done].
    apply lookup_delete_ne. by apply gameKeyOf_inj.
Qed.


Lemma applyGuess_grows e guess gp g :
  let g' := (applyGuess e guess gp g).1 in
  targetWord g' = targetWord g /\ maxAttempts g' = maxAttempts g /\
  startTime g' = startTime g /\ guesses g' = guesses g ++ [guess] /\
  Obj.keys (participants g) ⊆ Obj.keys (participants g').
Proof.
  unfold applyGuess. simpl. repeat split; try done.
  case_match; [|done]. intros k Hk.
  destruct (set_keys (toStr (_getUserId e)) (_getDisplayName e) (participants g))
    as [H1 H2].
  destruct (decide (toStr (_getUserId e) ∈ Obj.keys (participants g)));
    [by rewrite H1 | rewrite H2 by done; apply elem_of_app; by left].
Qed.

(** X20.  A running game is only ever continued.  While the record of a
    scope is not finished, no handler of the two games replaces it: after
    any of their calls (a start, a guess or a give-up, in this scope or in
    another) the scope still has a record with the same target, the same
    number of allowed attempts and the same start time; its guesses are the
    old ones, followed by at most one new guess, and no participant is
    lost. *)
Theorem running_game_is_only_continued
    (w : World) (c : Command) (scope : option jsstring) (g : GameData) :
  getGameData (redis w) scope = Some g ->
  finished g = false ->
  isTimer c = false ->
  exists g',
    getGameData (redis (step w c)) scope = Some g' /\
    targetWord g' = targetWord g /\ maxAttempts g' = maxAttempts g /\
    startTime g' = startTime g /\
    (guesses g' = guesses g \/ exists guess, guesses g' = guesses g ++ [guess]) /\
    Obj.keys (participants g) ⊆ Obj.keys (participants g').
Proof.
  intros Hg Hf Ht.
  destruct (decide (toStr (scopeOf c) = toStr scope)) as [Heq|Hne];
    [|exists g; rewrite step_other_scope by done; naive_solver].
  rewrite <- (getGameData_same _ _ _ Heq) in Hg.
  rewrite <- (getGameData_same _ _ _ Heq). clear Heq.
  destruct c as [e target now|e n target random noDict now|e guess group user
                 |e guess group user|e|group]; cbn [Sessions.step scopeOf] in *;
    [| | | | |done].
  - unfold IdiomGame.startNewIdiomGame. cbv zeta. rewrite Hg, Hf. simpl.
    exists g. naive_solver.
  - unfold WordStart.startNewGame. cbv zeta. rewrite Hg, Hf. simpl.
    exists g. naive_solver.
  - unfold IdiomGame.processGuess. cbv zeta. rewrite Hg, Hf.
    case_match; [exists g; naive_solver|].
    pose proof (applyGuess_grows e guess (Some (getIdiomPinyin guess)) g) as Hgrow.
    destruct (applyGuess _ _ _ _) as [g' isWin]. simpl in *.
    destruct Hgrow as (G1 & G2 & G3 & G4 & G5).
    exists g'. rewrite (save_get _ _ _ _ Hg). repeat split; try done.
    right. by exists guess.
  - unfold WordGame.processGuess. cbv zeta. rewrite Hg, Hf.
    case_match; [exists g; naive_solver|].
    pose proof (applyGuess_grows e guess None g) as Hgrow.
    destruct (applyGuess _ _ _ _) as [g' isWin]. simpl in *.
    destruct Hgrow as (G1 & G2 & G3 & G4 & G5).
    exists g'. rewrite (save_get _ _ _ _ Hg). repeat split; try done.
    right. by exists guess.
  - unfold GiveUp.giveUpGame. cbv zeta. rewrite Hg, Hf. simpl.
    rewrite (save_get _ _ _ _ Hg). eexists. split; [done|]. simpl. naive_solver.
Qed.


End ScopeFacts.

(** ** From the end of a game to the leaderboard *)

Section CreditFacts.
Import DB GameBase Leaderboard Props Sessions.

Local Ltac indicators :=
  unfold indicator in *; repeat case_decide; try lia; exfalso;
  intuition (subst; congruence).

Lemma participantsArray_ids (ps : Obj.t jsstring) :
  participantIds
    (List.map (fun '(userId, nickname) =>
                 {| p_userId := Some userId;
                    p_nickname := Some (match nickname with
                                        | [] => [29609%N; 23478%N] ++ userId
                                        | n => n
                                        end) |}) ps)
  = Obj.keys ps.
Proof.
  unfold Obj.keys. induction ps as [|[k v] ps IH]; [done|].
  cbn [List.map fst]. rewrite participantIds_cons. cbn [p_userId]. by rewrite IH.
Qed.

Lemma read_recordGameResult (files : Files) (groupId : option jsstring) ps winnerId name :
  _readLeaderboard (recordGameResult files groupId ps winnerId name) groupId
  = recordedTable (_readLeaderboard files groupId) ps winnerId name.
Proof.
  unfold recordGameResult, _writeLeaderboard.
  set (t := recordedTable _ _ _ _). unfold _readLeaderboard.
  by rewrite get_set, decide_True.
Qed.

Lemma updateStats_credited (files : Files) (e : Event) (game : GameData)
    (winnerId : option jsstring) :
  truthy (group_id e) = true ->
  winnerId = None \/ truthy winnerId = true ->
  credited (_readLeaderboard files (group_id e))
           (_readLeaderboard (_updateLeaderboardStats files e game winnerId) (group_id e))
           (participants game) winnerId.
Proof.
  intros Hgroup Hwin id. unfold _updateLeaderboardStats. rewrite Hgroup. cbv zeta.
  cbn [negb]. pose proof (participantsArray_ids (participants game)) as Hids.
  match type of Hids with participantIds ?a = _ => set (arr := a) in * end.
  set (name := (if truthy winnerId then _ else ([] : jsstring))).
  assert (Hrec : let t := _readLeaderboard files (group_id e) in
                 let t' := _readLeaderboard
                             (recordGameResult files (group_id e) arr winnerId name)
                             (group_id e) in
                 winsOf id t' = winsOf id t + indicator (winnerId = Some id) /\
                 gamesOf id t'
                 = gamesOf id t
                   + indicator (id ∈ Obj.keys (participants game) \/ winnerId = Some id)).
  { cbv zeta. rewrite read_recordGameResult.
    destruct (recordedTable_recorded (_readLeaderboard files (group_id e)) arr winnerId
                name id) as (Hg & Hw & _).
    rewrite Hids in Hg. rewrite Hg, Hw. split; [done|]. indicators. }
  clearbody arr. destruct arr as [|p rest]; [|exact Hrec].
  destruct (truthy winnerId) eqn:Hw; [exact Hrec|].
  destruct Hwin as [->|Hwin]; [|congruence].
  clear Hrec. assert (Hn : id ∉ Obj.keys (participants game))
    by (rewrite <- Hids; apply not_elem_of_nil).
  split; indicators.
Qed.

(** X22.  What the end of a game does to the leaderboard.  For a message
    without group, [_updateLeaderboardStats] leaves the files as they are.
    For a message of a group, and a winner that is [null] or a non-empty id,
    the table of the group afterwards gives every player the games played
    before, plus one if the player is a participant of the game or its
    winner, and the wins before, plus one for the winner; the tables of the
    other groups stay as they are. *)
Theorem end_of_game_credits_participants (files : Files) (e : Event) (game : GameData)
    (winnerId : option jsstring) :
  (truthy (group_id e) = false ->
   _updateLeaderboardStats files e game winnerId = files) /\
  (truthy (group_id e) = true ->
   winnerId = None \/ truthy winnerId = true ->
   credited (_readLeaderboard files (group_id e))
            (_readLeaderboard (_updateLeaderboardStats files e game winnerId) (group_id e))
            (participants game) winnerId /\
   forall other, fileId other <> fileId (group_id e) ->
     _readLeaderboard (_updateLeaderboardStats files e game winnerId) other
     = _readLeaderboard files other).
Proof.
  split.
  - intros H. unfold _updateLeaderboardStats. by rewrite H.
  - intros Hgroup Hwin. split; [by apply updateStats_credited|].
    intros other Hne. unfold _updateLeaderboardStats. rewrite Hgroup. cbv zeta.
    cbn [negb]. repeat case_match; try done;
      unfold recordGameResult, _writeLeaderboard, _readLeaderboard;
      rewrite get_set; by rewrite decide_False by congruence.
Qed.

Section WithCorpus.
Variable toLowerCase : jsstring -> jsstring.
Variable isValidWord : jsstring -> Z -> bool.
Variable isValidIdiom : jsstring -> bool.
Variable getIdiomPinyin : jsstring -> option jsstring.

Lemma set_keys_elem {V} (k : jsstring) (v : V) (o : Obj.t V) (id : jsstring) :
  id ∈ Obj.keys (Obj.set k v o) <-> id = k \/ id ∈ Obj.keys o.
Proof.
  destruct (set_keys k v o) as [H1 H2].
  destruct (decide (k ∈ Obj.keys o)) as [Hin|Hnin].
  - rewrite H1 by done. split; [tauto|]. by intros [->|?].
  - rewrite H2 by done. rewrite elem_of_app, list_elem_of_singleton. tauto.
Qed.

(** What a winning guess of the player [u] in the group [grp] leaves. *)
Lemma winning_guess (w : World) (e : Event) (guess grp u : jsstring)
    (gp : option (option jsstring)) (game : GameData) :
  group_id e = Some grp -> grp <> [] ->
  user_id e = Some u -> u <> [] ->
  trim guess = trim (targetWord game) ->
  let game' := (applyGuess e guess gp game).1 in
  let t := _readLeaderboard (files w) (Some grp) in
  let t' := _readLeaderboard
              (_updateLeaderboardStats (files w) e game' (GameBase.userId (_getGameContext e)))
              (Some grp) in
  (applyGuess e guess gp game).2 = true /\
  finished game' = true /\
  guesses game' = guesses game ++ [guess] /\
  forall id,
    winsOf id t' = winsOf id t + indicator (id = u) /\
    gamesOf id t'
    = gamesOf id t + indicator (id = u \/ id ∈ Obj.keys (participants game)).
Proof.
  intros Hgrp Hgne Hu Hune Hwin. cbv zeta.
  assert (Huser : GameBase.userId (_getGameContext e) = Some u).
  { unfold _getGameContext, orNull. simpl. rewrite Hu. by destruct u. }
  assert (Hsender : _getUserId e = Some u) by (unfold _getUserId; by rewrite Hu).
  assert (Hps : participants (applyGuess e guess gp game).1
                = Obj.set u (_getDisplayName e) (participants game)).
  { unfold applyGuess. simpl. rewrite Hsender. simpl. by destruct u. }
  split; [|split; [|split]].
  - unfold applyGuess. simpl. by apply bool_decide_eq_true_2.
  - unfold applyGuess. simpl. by rewrite (bool_decide_eq_true_2 _ Hwin).
  - done.
  - intros id. rewrite Huser.
    destruct (updateStats_credited (files w) e (applyGuess e guess gp game).1 (Some u))
      with (id := id) as [Hw Hg].
    + rewrite Hgrp. by destruct grp.
    + right. by destruct u.
    + rewrite Hgrp in Hw, Hg. rewrite Hw, Hg, Hps.
      pose proof (set_keys_elem u (_getDisplayName e) (participants game) id) as Hk.
      split; indicators.
Qed.

(** X23.  A winning guess in a group, from the guess to the leaderboard.  A
    player with the id [u] sends, in the group [grp] with a running game, a
    guess that the corpus accepts and that is the target: the word game and
    the idiom game, called as their listeners call them, report a win, leave
    the record finished with the guess appended, and the table of the group
    gives [u] one more win and one more game, every other participant of the
    game one more game, and nobody else anything. *)
Theorem winning_guess_is_credited (w : World) (e : Event) (guess grp u : jsstring)
    (game : GameData) :
  group_id e = Some grp -> grp <> [] ->
  user_id e = Some u -> u <> [] ->
  getGameData (redis w) (Some grp) = Some game ->
  finished game = false ->
  trim guess = trim (targetWord game) ->
  let ctx := _getGameContext e in
  let credit (w' : World) :=
    (exists game', getGameData (redis w') (Some grp) = Some game' /\
                   finished game' = true /\ guesses game' = guesses game ++ [guess]) /\
    forall id,
      winsOf id (_readLeaderboard (files w') (Some grp))
      = winsOf id (_readLeaderboard (files w) (Some grp)) + indicator (id = u) /\
      gamesOf id (_readLeaderboard (files w') (Some grp))
      = gamesOf id (_readLeaderboard (files w) (Some grp))
        + indicator (id = u \/ id ∈ Obj.keys (participants game)) in
  (isValidWord guess (letterCount game) = true ->
   exists w' results,
     WordGame.processGuess toLowerCase isValidWord w e guess (GameBase.groupId ctx) (GameBase.userId ctx)
     = (w', Guessed true true results) /\ credit w') /\
  (isValidIdiom guess = true ->
   exists w' results,
     IdiomGame.processGuess isValidIdiom getIdiomPinyin w e guess (GameBase.groupId ctx) (GameBase.userId ctx)
     = (w', Guessed true true results) /\ credit w').
Proof.
  intros Hgrp Hgne Hu Hune Hget Hfin Hwin. cbv zeta.
  assert (Hscope : orElse (GameBase.groupId (_getGameContext e)) (GameBase.groupId (_getGameContext e))
                   = Some grp).
  { unfold orElse, _getGameContext, orNull. simpl. rewrite Hgrp. by destruct grp. }
  split; intros Hvalid.
  - pose proof (winning_guess w e guess grp u None game Hgrp Hgne Hu Hune Hwin) as H.
    cbv zeta in H. destruct H as (H1 & H2 & H3 & H4).
    unfold WordGame.processGuess. cbv zeta. rewrite Hscope, Hget, Hfin, Hvalid.
    cbn [negb]. destruct (applyGuess e guess None game) as [game' isWin] eqn:Happ.
    cbn [fst snd] in *. subst isWin. rewrite H2. do 2 eexists. split; [done|].
    cbn [redis files]. split; [|done].
    exists game'. by rewrite (save_get _ _ _ _ Hget).
  - pose proof (winning_guess w e guess grp u (Some (getIdiomPinyin guess)) game
                  Hgrp Hgne Hu Hune Hwin) as H.
    cbv zeta in H. destruct H as (H1 & H2 & H3 & H4).
    unfold IdiomGame.processGuess. cbv zeta. rewrite Hscope, Hget, Hfin, Hvalid.
    cbn [negb].
    destruct (applyGuess e guess (Some (getIdiomPinyin guess)) game)
      as [game' isWin] eqn:Happ.
    cbn [fst snd] in *. subst isWin. rewrite H2. do 2 eexists. split; [done|].
    cbn [redis files]. split; [|done].
    exists game'. by rewrite (save_get _ _ _ _ Hget).
Qed.

End WithCorpus.

(** X24.  Giving up ends the game without a winner.  In a group with a
    running game, [giveUpGame] leaves the record finished, with the target,
    the guesses and the attempts it had, and the table of the group gives
    every participant of the game one more game and nobody a win.  Without a
    running game in the scope it changes nothing. *)
Theorem give_up_ends_without_winner (w : World) (e : Event) :
  (forall grp game,
     group_id e = Some grp -> grp <> [] ->
     getGameData (redis w) (Some grp) = Some game ->
     finished game = false ->
     let w' := (GiveUp.giveUpGame w e).1 in
     (exists game', getGameData (redis w') (Some grp) = Some game' /\
                    finished game' = true /\ targetWord game' = targetWord game /\
                    guesses game' = guesses game /\ attempts game' = attempts game) /\
     forall id,
       winsOf id (_readLeaderboard (files w') (Some grp))
       = winsOf id (_readLeaderboard (files w) (Some grp)) /\
       gamesOf id (_readLeaderboard (files w') (Some grp))
       = gamesOf id (_readLeaderboard (files w) (Some grp))
         + indicator (id ∈ Obj.keys (participants game))) /\
  ((forall game, getGameData (redis w) (GameBase.groupId (_getGameContext e)) = Some game ->
                 finished game = true) ->
   GiveUp.giveUpGame w e = (w, false)).
Proof.
  split.
  - intros grp game Hgrp Hgne Hget Hfin. cbv zeta.
    assert (Hscope : GameBase.groupId (_getGameContext e) = Some grp).
    { unfold _getGameContext, orNull. simpl. rewrite Hgrp. by destruct grp. }
    unfold GiveUp.giveUpGame. cbv zeta. rewrite Hscope, Hget, Hfin. cbn [fst redis files].
    split.
    + rewrite (save_get _ _ _ _ Hget). by eexists.
    + intros id. set (game' := Build_GameData _ _ _ _ _ _ _ _ _ _ _).
      destruct (updateStats_credited (files w) e game' None) with (id := id) as [Hw Hg].
      * rewrite Hgrp. by destruct grp.
      * by left.
      * rewrite Hgrp in Hw, Hg. rewrite Hw, Hg. subst game'. cbn [participants].
        split; indicators.
  - intros H. unfold GiveUp.giveUpGame. cbv zeta.
    destruct (getGameData _ _) as [game|] eqn:Hget; [|done]. by rewrite (H game).
Qed.

End CreditFacts.

Lemma sessions_stay_within_attempts_witness :
  Sessions.store_ok
    (GameBase.redis
       (Sessions.run asciiLower (fun _ _ => true) (fun _ => true) (fun _ => None)
          Props.emptyWorld
          [ Sessions.StartIdiom Props.groupEvent (Some Props.yiFanFengShun) 0;
            Sessions.GuessIdiom Props.groupEvent Props.fengTiaoYuShun
              (Some (js "777")) (Some (js "10001"));
            Sessions.GiveUpGame Props.groupEvent ])).
Proof.
  apply (sessions_stay_within_attempts asciiLower (fun _ _ => true) (fun _ => true)
           (fun _ => None) Props.emptyWorld).
  simpl. apply map_Forall_empty.
Defined.


Lemma running_game_is_only_continued_witness :
  exists g',
    DB.getGameData
      (GameBase.redis
         (Sessions.step asciiLower (fun _ _ => true) (fun _ => true) (fun _ => None)
            Props.groupWorld
            (Sessions.StartWord Props.groupEvent 5 None (Some (js "hello")) false 1)))
      (Some (js "777")) = Some g' /\
    DB.targetWord g' = js "erase" /\ DB.maxAttempts g' = 8.
Proof.
  destruct (running_game_is_only_continued asciiLower (fun _ _ => true) (fun _ => true)
              (fun _ => None) Props.groupWorld
              (Sessions.StartWord Props.groupEvent 5 None (Some (js "hello")) false 1)
              (Some (js "777")) Props.eraseGame)
    as (g' & H1 & H2 & H3 & _).
  - vm_compute. reflexivity.
  - reflexivity.
  - reflexivity.
  - exists g'. split; [exact H1|]. split; [exact H2 | exact H3].
Defined.

Lemma winning_guess_is_credited_witness :
  exists w' results,
    WordGame.processGuess asciiLower (fun _ _ => true) Props.groupWorld Props.groupEvent
      (js "erase") (Some (js "777")) (Some (js "10001"))
    = (w', GameBase.Guessed true true results) /\
    Props.winsOf (js "10001")
      (Leaderboard._readLeaderboard (GameBase.files w') (Some (js "777"))) = 1.
Proof.
  destruct (winning_guess_is_credited asciiLower (fun _ _ => true) (fun _ => true)
              (fun _ => None) Props.groupWorld Props.groupEvent (js "erase")
              (js "777") (js "10001") Props.eraseGame) as [Hword _].
  - reflexivity.
  - discriminate.
  - reflexivity.
  - discriminate.
  - vm_compute. reflexivity.
  - reflexivity.
  - reflexivity.
  - destruct Hword as (w' & results & Heq & _ & Hcredit); [reflexivity|].
    exists w', results. split; [exact Heq|].
    destruct (Hcredit (js "10001")) as [Hw _]. rewrite Hw. vm_compute. reflexivity.
Defined.

(** ** Group settings *)

Section SettingsFacts.
Import Settings.

Lemma settings_keys_apart (a b : option jsstring) :
  WORDBANK_KEY_PREFIX ++ toStr a <> WHITELIST_KEY_PREFIX ++ toStr b.
Proof. intros H. vm_compute in H. discriminate H. Qed.

Lemma whitelist_key_inj (a b : option jsstring) :
  toStr a <> toStr b -> WHITELIST_KEY_PREFIX ++ toStr a <> WHITELIST_KEY_PREFIX ++ toStr b.
Proof. intros H E. by apply app_inv_head in E. Qed.

(** X25.  The whitelist.  With a store client, a group reads as enabled
    right after [enableGroup] and as disabled right after [disableGroup],
    whatever it was before; neither call changes what [isGroupEnabled] says
    of a group with another name, nor the word bank chosen for any group;
    and choosing a word bank, whatever its name, enables or disables no
    group.  Without a client every group reads as disabled. *)
Theorem whitelist_switch (store : gmap jsstring jsstring) (g : option jsstring) :
  let on := (enableGroup (Some store) g).1 in
  let off := (disableGroup (Some store) g).1 in
  isGroupEnabled on g = true /\
  isGroupEnabled off g = false /\
  (forall other, toStr other <> toStr g ->
     isGroupEnabled on other = isGroupEnabled (Some store) other /\
     isGroupEnabled off other = isGroupEnabled (Some store) other) /\
  (forall any,
     getWordbankSelection on any = getWordbankSelection (Some store) any /\
     getWordbankSelection off any = getWordbankSelection (Some store) any) /\
  (forall any name,
     isGroupEnabled (setWordbankSelection (Some store) g name).1 any
     = isGroupEnabled (Some store) any) /\
  isGroupEnabled None g = false.
Proof.
  cbv zeta. unfold isGroupEnabled, enableGroup, disableGroup, getWordbankSelection,
    setWordbankSelection. cbn [fst].
  split; [|split; [|split; [|split; [|split]]]].
  - by rewrite lookup_insert_eq.
  - by rewrite lookup_delete_eq.
  - intros other Hne. apply whitelist_key_inj in Hne.
    by rewrite lookup_insert_ne, lookup_delete_ne by congruence.
  - intros any. pose proof (settings_keys_apart any g) as Hne.
    by rewrite lookup_insert_ne, lookup_delete_ne by congruence.
  - intros any name. pose proof (settings_keys_apart g any) as Hne.
    by rewrite lookup_insert_ne by congruence.
  - done.
Qed.

(** X26.  The choice of the word bank.  With a store client,
    [getWordbankSelection] returns the name last set for the group, and
    [CET4] when that name is empty or none was set; setting the name for
    one group does not change the choice of a group with another name. *)
Theorem wordbank_choice (store : gmap jsstring jsstring) (g : option jsstring)
    (name : jsstring) :
  let chosen := (setWordbankSelection (Some store) g name).1 in
  getWordbankSelection chosen g = (if decide (name = []) then js "CET4" else name) /\
  (forall other, toStr other <> toStr g ->
     getWordbankSelection chosen other = getWordbankSelection (Some store) other) /\
  (store !! (WORDBANK_KEY_PREFIX ++ toStr g) = None ->
   getWordbankSelection (Some store) g = js "CET4").
Proof.
  cbv zeta. unfold getWordbankSelection, setWordbankSelection. cbn [fst].
  split; [|split].
  - rewrite lookup_insert_eq. by destruct name.
  - intros other Hne. rewrite lookup_insert_ne; [done|].
    intros E. apply app_inv_head in E. congruence.
  - by intros ->.
Qed.

End SettingsFacts.

(** ** The format check of equations *)

Section EquationFormatFacts.
Import EquationFormat.

Lemma inClass_spec c :
  inClass c = true <->
  (48 <= c <= 57)%N \/ c ∈ [43%N; 45%N; 42%N; 47%N] \/ c = equalsSign.
Proof.
  unfold inClass, equalsSign. rewrite orb_true_iff, andb_true_iff, bool_decide_eq_true.
  rewrite !N.leb_le, !elem_of_cons, !elem_of_nil. tauto.
Qed.

Lemma split_nonempty s sep : split s sep <> [].
Proof.
  induction s as [|c s IH]; simpl; [done|].
  case_decide; [done|]. by destruct (split s sep).
Qed.

Lemma split_length_one s sep :
  length (split s sep) = 1%nat <-> (sep ∉ s).
Proof.
  induction s as [|c s IH]; simpl.
  - split; [intros _; apply not_elem_of_nil | done].
  - rewrite not_elem_of_cons. pose proof (split_nonempty s sep) as Hne.
    case_decide as E.
    + subst c. simpl. destruct (split s sep); [done|]. simpl. split; [lia|tauto].
    + destruct (split s sep) as [|p ps]; [done|]. simpl in *. rewrite IH.
      split; [split; [congruence|done] | tauto].
Qed.

(** Two parts: one separator, between a left and a right part without. *)
Lemma split_two s sep :
  length (split s sep) = 2%nat <->
  exists lhs rhs, s = lhs ++ sep :: rhs /\ (sep ∉ lhs) /\ (sep ∉ rhs).
Proof.
  induction s as [|c s IH]; simpl.
  - split; [done|]. intros (lhs & rhs & H & _). by destruct lhs.
  - case_decide as E.
    + subst c. simpl. split.
      * intros H. exists [], s. split; [done|]. split; [apply not_elem_of_nil|].
        apply split_length_one. lia.
      * intros (lhs & rhs & H & Hl & Hr). destruct lhs as [|x lhs].
        -- simpl in H. injection H as ->. apply split_length_one in Hr. lia.
        -- simpl in H. injection H as <- _. exfalso. apply Hl. by left.
    + pose proof (split_nonempty s sep) as Hne.
      destruct (split s sep) as [|p ps]; [done|]. simpl in *. rewrite IH. split.
      * intros (lhs & rhs & -> & Hl & Hr). exists (c :: lhs), rhs.
        split; [done|]. split; [|done]. apply not_elem_of_cons. split; [congruence|done].
      * intros (lhs & rhs & H & Hl & Hr). destruct lhs as [|x lhs].
        -- simpl in H. injection H as H _. congruence.
        -- simpl in H. injection H as <- ->. exists lhs, rhs.
           split; [done|]. split; [|done]. apply not_elem_of_cons in Hl. tauto.
Qed.

(** X27.  What [isValidEquation] accepts.  A string passes the format check
    exactly when it is [lhs=rhs] for two strings [lhs] and [rhs] of digits
    and the signs [+ - * /], each of which may be empty; a value that is not
    a string does not pass.  The check does not look at the values of the
    two sides. *)
Theorem isValidEquation_accepts (equation : jsstring) :
  (isValidEquation (Some equation) = true <->
   exists lhs rhs, equation = lhs ++ equalsSign :: rhs /\ isTerm lhs /\ isTerm rhs) /\
  isValidEquation None = false.
Proof.
  split; [|done]. unfold isValidEquation. split.
  - destruct (truthy (Some equation)) eqn:Ht; [|done]. cbn [negb toStr].
    destruct (includes equation equalsSign); [|done]. cbn [negb].
    destruct (test equation) eqn:Htest; [|done]. cbn [negb].
    destruct (length (split equation equalsSign) =? 2)%nat eqn:Hlen; [|done].
    intros _. apply Nat.eqb_eq, split_two in Hlen as (lhs & rhs & -> & Hl & Hr).
    exists lhs, rhs. split; [done|].
    assert (Hall : Forall (fun c => inClass c = true) (lhs ++ equalsSign :: rhs)).
    { unfold test in Htest. destruct (lhs ++ equalsSign :: rhs) as [|y ys]; [done|].
      apply Forall_forall. intros x Hx. apply list_elem_of_In in Hx.
      by apply (proj1 (forallb_forall _ _) Htest). }
    apply Forall_app in Hall as [Hlhs Hrhs]. apply Forall_cons in Hrhs as [_ Hrhs].
    unfold isTerm. split.
    + rewrite Forall_forall in Hlhs |- *. intros c Hc.
      destruct (proj1 (inClass_spec c) (Hlhs c Hc)) as [H|[H|H]]; [tauto|tauto|by subst].
    + rewrite Forall_forall in Hrhs |- *. intros c Hc.
      destruct (proj1 (inClass_spec c) (Hrhs c Hc)) as [H|[H|H]]; [tauto|tauto|by subst].
  - intros (lhs & rhs & Heq & Hl & Hr).
    assert (Hsign : forall s, isTerm s -> equalsSign ∉ s).
    { intros s Hs Hin. unfold isTerm in Hs. rewrite Forall_forall in Hs.
      destruct (Hs _ Hin) as [H|H]; [unfold equalsSign in H; lia|].
      unfold equalsSign in H. rewrite !elem_of_cons, elem_of_nil in H.
      destruct H as [H|[H|[H|[H|[]]]]]; discriminate H. }
    assert (Ht : truthy (Some equation) = true) by (subst; by destruct lhs).
    rewrite Ht. cbn [negb toStr].
    assert (Hinc : includes equation equalsSign = true).
    { subst. unfold includes. apply existsb_exists. exists equalsSign.
      split; [apply in_or_app; right; by left | by apply bool_decide_eq_true_2]. }
    rewrite Hinc. cbn [negb].
    assert (Htest : test equation = true).
    { unfold test. destruct equation as [|y ys] eqn:E; [by destruct lhs|].
      rewrite Heq. apply forallb_forall. intros c Hc. apply inClass_spec.
      apply in_app_or in Hc as [Hc|[<-|Hc]].
      - unfold isTerm in Hl. rewrite Forall_forall in Hl.
        apply list_elem_of_In in Hc. destruct (Hl c Hc); tauto.
      - tauto.
      - unfold isTerm in Hr. rewrite Forall_forall in Hr.
        apply list_elem_of_In in Hc. destruct (Hr c Hc); tauto. }
    rewrite Htest. cbn [negb].
    assert (Hlen : length (split equation equalsSign) = 2%nat).
    { apply split_two. exists lhs, rhs. split; [done|]. split; by apply Hsign. }
    by rewrite Hlen.
Qed.

End EquationFormatFacts.

(** ** The status of the letters *)

Section LetterStatusFacts.
Import Scoring Props ScoreProps ScoreProps2 LetterStatus.
Variable toLowerCase : jsstring -> jsstring.

Lemma noteCell_lookup m letter st c :
  noteCell m letter (Some st) !! c
  = if decide (letter = c) then upd (m !! c) st else m !! c.
Proof.
  unfold noteCell, upd. destruct (decide (letter = c)) as [->|Hne].
  - destruct st; repeat case_decide; by rewrite ?lookup_insert_eq.
  - destruct st; repeat case_decide; by rewrite ?lookup_insert_ne.
Qed.

Lemma noteGuess_spec guess : forall result m,
  (length guess <= length result)%nat ->
  exists m', noteGuess guess result m = Some m' /\
             forall c, m' !! c = foldl upd (m !! c) (seen c guess result).
Proof.
  induction guess as [|letter guess IH]; intros result m Hlen.
  - exists m. by destruct result.
  - destruct result as [|cell result]; [simpl in Hlen; lia|].
    cbn [noteGuess seen].
    destruct (IH result (noteCell m letter (Some (status cell)))) as (m' & Hm' & Hc);
      [simpl in Hlen; lia|].
    exists m'. split; [done|]. intros c. rewrite Hc, foldl_app, noteCell_lookup.
    by case_decide.
Qed.

Lemma noteGuess_throws guess : forall result m,
  (length result < length guess)%nat -> noteGuess guess result m = None.
Proof.
  induction guess as [|letter guess IH]; intros result m Hlen; [simpl in Hlen; lia|].
  destruct result as [|cell result]; [done|]. cbn [noteGuess]. apply IH.
  simpl in Hlen. lia.
Qed.

Lemma noteResult_noteGuess guess : forall result m,
  (length guess <= length result)%nat ->
  noteGuess guess result m = Some (noteResult guess result m).
Proof.
  induction guess as [|letter guess IH]; intros result m Hlen; [done|].
  destruct result as [|cell result]; [simpl in Hlen; lia|].
  cbn [noteGuess noteResult head tail fmap option_fmap option_map]. apply IH.
  simpl in Hlen. lia.
Qed.

Lemma wordScore_length guess target :
  length (Utils.checkGuess toLowerCase guess target Utils.word)
  = length (toLowerCase target).
Proof.
  unfold Utils.checkGuess, twoPass.
  pose proof (firstPass_length false (fun _ => None) (toLowerCase target) 0
                (toLowerCase guess) ∅) as H.
  destruct (firstPass _ _ _ _ _ _) as [result freq]. simpl in H.
  by rewrite secondPass_length.
Qed.

(** X28.  The two ways to the status of the letters agree.  When no guess
    is longer than the folded target, [getLetterStatus] returns what
    [getLetterStatusFromResults] returns on the results of the word scorer
    for these guesses; a guess longer than the folded target makes
    [getLetterStatus] throw, which the other function never does. *)
Theorem letter_status_from_results_agrees (guesses : list jsstring) (target : jsstring) :
  (Forall (fun guess => (length guess <= length (toLowerCase target))%nat) guesses ->
   getLetterStatus toLowerCase guesses target
   = Some (getLetterStatusFromResults guesses
             (List.map (fun guess => Utils.checkGuess toLowerCase guess target Utils.word)
                       guesses))) /\
  (Exists (fun guess => (length (toLowerCase target) < length guess)%nat) guesses ->
   getLetterStatus toLowerCase guesses target = None).
Proof.
  unfold getLetterStatus, getLetterStatusFromResults. generalize initialStatus.
  induction guesses as [|guess rest IH]; intros m.
  - split; [done|]. intros H. by apply Exists_nil in H.
  - cbn [guessesLoop resultsLoop List.map head tail default].
    destruct (IH (noteResult guess (Utils.checkGuess toLowerCase guess target Utils.word) m))
      as [IH1 IH2].
    destruct (le_lt_dec (length guess) (length (toLowerCase target))) as [Hle|Hlt].
    + rewrite noteResult_noteGuess by (by rewrite wordScore_length).
      split.
      * intros H. apply Forall_cons in H as [_ H]. by apply IH1.
      * intros H. apply Exists_cons in H as [H|H]; [lia|]. by apply IH2.
    + rewrite noteGuess_throws by (by rewrite wordScore_length).
      split; [|done]. intros H. apply Forall_cons in H as [H _]. lia.
Qed.

End LetterStatusFacts.

Section KeyboardFacts.
Import Scoring Props ScoreProps ScoreProps2 LetterStatus.
Variable toLowerCase : jsstring -> jsstring.

Lemma initialStatus_lookup c :
  initialStatus !! c = if bool_decide (c ∈ alphabet) then Some Unknown else None.
Proof.
  unfold initialStatus.
  assert (Hgen : forall ls (m : gmap codeunit Value),
            foldl (fun m l => <[l := Unknown]> m) m ls !! c
            = if bool_decide (c ∈ ls) then Some Unknown else m !! c).
  { induction ls as [|l ls IH]; intros m; cbn [foldl].
    - case_bool_decide as H; [by apply elem_of_nil in H|done].
    - rewrite IH. destruct (decide (c ∈ ls)) as [Hin|Hnin].
      + rewrite (bool_decide_eq_true_2 (c ∈ ls)) by done.
        rewrite (bool_decide_eq_true_2 (c ∈ l :: ls)); [done | by right].
      + rewrite (bool_decide_eq_false_2 (c ∈ ls)) by done.
        destruct (decide (l = c)) as [->|Hne].
        * rewrite lookup_insert_eq.
          rewrite (bool_decide_eq_true_2 (c ∈ c :: ls)); [done | by left].
        * rewrite lookup_insert_ne by done.
          rewrite (bool_decide_eq_false_2 (c ∈ l :: ls)); [done|].
          apply not_elem_of_cons. split; [congruence|done]. }
  rewrite Hgen. by rewrite lookup_empty.
Qed.

Lemma guessesLoop_spec (target : jsstring) c guesses : forall m,
  Forall (fun guess => (length guess <= length (toLowerCase target))%nat) guesses ->
  exists m', guessesLoop toLowerCase guesses target m = Some m' /\
             m' !! c
             = foldl upd (m !! c)
                 (flat_map (fun guess =>
                              seen c guess
                                (Utils.checkGuess toLowerCase guess target Utils.word))
                           guesses).
Proof.
  induction guesses as [|guess rest IH]; intros m Hlen.
  - by exists m.
  - apply Forall_cons in Hlen as [Hg Hrest]. cbn [guessesLoop flat_map].
    destruct (noteGuess_spec guess
                (Utils.checkGuess toLowerCase guess target Utils.word) m)
      as (m1 & Hm1 & Hc); [by rewrite wordScore_length|].
    rewrite Hm1. destruct (IH m1 Hrest) as (m' & Hm' & Hc').
    exists m'. split; [done|]. by rewrite Hc', foldl_app, Hc.
Qed.

(** The best status met wins. *)
Lemma best_fold (L : list Status) : forall v,
  foldl upd v L
  = if decide (correct ∈ L) then Some Correct
    else if decide (present ∈ L)
         then (if decide (v = Some Correct) then v else Some Present)
         else if decide (absent ∈ L)
              then (if decide (v = Some Unknown) then Some Absent else v)
              else v.
Proof.
  induction L as [|st L IH]; intros v.
  - simpl. repeat case_decide; try done;
      match goal with H : _ ∈ [] |- _ => by apply elem_of_nil in H end.
  - cbn [foldl]. rewrite IH. unfold upd.
    destruct st; repeat case_decide; try done;
      repeat match goal with
             | H : _ ∈ _ :: _ |- _ => apply elem_of_cons in H as [H|H]
             | H : ~ (_ ∈ _ :: _) |- _ => apply not_elem_of_cons in H as [? ?]
             end; try done; try congruence.
Qed.

Lemma seen_elem c st guess : forall result,
  st ∈ seen c guess result <->
  exists i x, guess !! i = Some c /\ result !! i = Some x /\ status x = st.
Proof.
  induction guess as [|letter guess IH]; intros result.
  - simpl. split; [by intros H%elem_of_nil|]. by intros (i & x & H & _).
  - destruct result as [|cell result].
    + simpl. split; [by intros H%elem_of_nil|]. by intros (i & x & _ & H & _).
    + cbn [seen]. rewrite elem_of_app, IH. split.
      * intros [H|(i & x & H1 & H2 & H3)].
        -- case_decide; [|by apply elem_of_nil in H].
           apply list_elem_of_singleton in H. exists 0%nat, cell. by subst.
        -- by exists (S i), x.
      * intros (i & x & H1 & H2 & H3). destruct i as [|i].
        -- left. simpl in H1, H2. injection H1 as ->. injection H2 as ->.
           rewrite decide_True by done. by apply list_elem_of_singleton.
        -- right. by exists i, x.
Qed.

Lemma unmatchedInGuess_pos c target : forall guess i t,
  guess !! i = Some c -> target !! i = Some t -> t <> c ->
  (1 <= unmatchedInGuess c guess target)%nat.
Proof.
  induction target as [|t0 target IH]; intros guess i t Hg Ht Hne; [done|].
  cbn [unmatchedInGuess]. destruct i as [|i].
  - simpl in Ht. injection Ht as ->. destruct guess as [|g guess]; [done|].
    simpl in Hg. injection Hg as ->. simpl.
    rewrite bool_decide_eq_true_2, bool_decide_eq_false_2 by done. simpl. lia.
  - destruct guess as [|g guess]; [done|]. simpl in Hg, Ht.
    specialize (IH guess i t Hg Ht Hne). simpl. lia.
Qed.

Lemma unmatchedInTarget_pos c target : forall guess i,
  target !! i = Some c -> guess !! i <> Some c ->
  (1 <= unmatchedInTarget c guess target)%nat.
Proof.
  induction target as [|t0 target IH]; intros guess i Ht Hg; [done|].
  cbn [unmatchedInTarget]. destruct i as [|i].
  - simpl in Ht. injection Ht as ->.
    assert (Hh : head guess <> Some c) by (by destruct guess).
    rewrite bool_decide_eq_true_2, bool_decide_eq_false_2 by done. simpl. lia.
  - simpl in Ht. assert (Ht' : tail guess !! i <> Some c) by (by destruct guess).
    specialize (IH (tail guess) i Ht Ht'). lia.
Qed.

Lemma presentMarks_elem c (result : list Cell) :
  (1 <= presentMarks c result)%nat ->
  exists x, x ∈ result /\ letter x = Some c /\ status x = present.
Proof.
  unfold presentMarks. intros H.
  destruct (List.filter (isPresentMark c) result) as [|x xs] eqn:E; [simpl in H; lia|].
  assert (Hin : In x (List.filter (isPresentMark c) result)) by (rewrite E; by left).
  apply filter_In in Hin as [Hin Hx]. unfold isPresentMark in Hx.
  apply andb_true_iff in Hx as [H1 H2].
  apply bool_decide_eq_true in H1, H2. exists x. split; [by apply list_elem_of_In|done].
Qed.

(** What the word scorer shows for the symbol [c] of a guess as long as the
    target. *)
Lemma seen_scored c (guess target : jsstring) :
  length guess = length target ->
  let L := seen c guess (twoPass false (fun _ => None) guess target) in
  (correct ∈ L <-> exists i, guess !! i = Some c /\ target !! i = Some c) /\
  (present ∈ L -> c ∈ target) /\
  (c ∈ guess -> c ∈ target ->
   ~ (exists i, guess !! i = Some c /\ target !! i = Some c) -> present ∈ L) /\
  (c ∈ guess -> correct ∈ L \/ present ∈ L \/ absent ∈ L) /\
  (forall st, st ∈ L -> c ∈ guess).
Proof.
  intros Hlen. cbv zeta.
  pose proof (twoPass_well_scored false (fun _ => None) guess target Hlen) as [Hrl WS].
  pose proof (twoPass_correct_in_place false (fun _ => None) guess target) as CP.
  pose proof (twoPass_exact_counts false (fun _ => None) guess target) as EC.
  set (result := twoPass false (fun _ => None) guess target) in *.
  assert (Hcell : forall i, guess !! i = Some c ->
            exists x, result !! i = Some x /\ letter x = Some c /\ final_status (status x)).
  { intros i Hi. assert (Hlt : (i < length target)%nat).
    { rewrite <- Hlen. by apply lookup_lt_Some in Hi. }
    destruct (WS i Hlt) as (x & g & Hx & Hg & Hl & Hf). exists x.
    split; [done|]. split; [congruence|done]. }
  assert (Hletter : forall k x, result !! k = Some x -> letter x = guess !! k).
  { intros k x Hx. assert (Hlt : (k < length target)%nat).
    { rewrite <- Hrl. by apply lookup_lt_Some in Hx. }
    destruct (WS k Hlt) as (x' & g & Hx' & Hg & Hl & _). congruence. }
  split; [|split; [|split; [|split]]].
  - rewrite seen_elem. split.
    + intros (i & x & Hi & Hx & Hs). exists i. split; [done|].
      rewrite <- (proj1 (CP i x Hx) Hs). done.
    + intros (i & Hi & Ht). destruct (Hcell i Hi) as (x & Hx & _).
      exists i, x. split; [done|]. split; [done|]. apply (CP i x Hx). congruence.
  - intros (i & x & Hi & Hx & Hs)%seen_elem.
    assert (Hl : letter x = Some c) by (rewrite (Hletter i x Hx); done).
    pose proof (present_cell_counted c result x (list_elem_of_lookup_2 _ _ _ Hx) Hl Hs)
      as Hpm.
    destruct (EC c) as [_ Hmin]. pose proof (unmatchedInTarget_le c target guess) as Hle.
    destruct (decide (c ∈ target)) as [Hin|Hnin]; [done|].
    pose proof (occurrences_absent c target Hnin). lia.
  - intros Hg Ht Hno.
    apply list_elem_of_lookup_1 in Hg as [i Hi]. apply list_elem_of_lookup_1 in Ht as [j Hj].
    assert (Hti : exists t, target !! i = Some t /\ t <> c).
    { destruct (target !! i) as [t|] eqn:E.
      - exists t. split; [done|]. intros ->. apply Hno. by exists i.
      - apply lookup_ge_None in E. apply lookup_lt_Some in Hi. lia. }
    destruct Hti as (t & Hti & Hne).
    assert (Hgj : guess !! j <> Some c).
    { intros E. apply Hno. by exists j. }
    pose proof (unmatchedInGuess_pos c target guess i t Hi Hti Hne) as H1.
    pose proof (unmatchedInTarget_pos c target guess j Hj Hgj) as H2.
    destruct (EC c) as [_ Hmin].
    destruct (presentMarks_elem c result) as (x & Hx & Hl & Hs); [lia|].
    apply list_elem_of_lookup_1 in Hx as [k Hk].
    apply seen_elem. exists k, x. split; [|done].
    by rewrite <- (Hletter k x Hk).
  - intros Hg. apply list_elem_of_lookup_1 in Hg as [i Hi].
    destruct (Hcell i Hi) as (x & Hx & _ & Hf).
    destruct Hf as [Hf|[Hf|Hf]]; [left|right; left|right; right];
      apply seen_elem; by exists i, x.
  - intros st (i & x & Hi & _)%seen_elem. by apply list_elem_of_lookup_2 in Hi.
Qed.

Lemma inPlace_spec c guesses (target : jsstring) :
  inPlace c guesses target = true <->
  exists guess i, guess ∈ guesses /\ guess !! i = Some c /\ target !! i = Some c.
Proof.
  unfold inPlace. rewrite existsb_exists. split.
  - intros (guess & Hin & H). apply existsb_exists in H as ([g t] & Hgt & H).
    apply andb_true_iff in H as [H1 H2]. apply bool_decide_eq_true in H1, H2. subst.
    apply list_elem_of_In, elem_of_lookup_zip_with in Hgt as (i & y & z & E & Hy & Hz).
    injection E as <- <-. exists guess, i. split; [by apply list_elem_of_In|done].
  - intros (guess & i & Hin & Hg & Ht). exists guess.
    split; [by apply list_elem_of_In|]. apply existsb_exists. exists (c, c). split.
    + apply list_elem_of_In, elem_of_lookup_zip_with. by exists i, c, c.
    + by rewrite !bool_decide_eq_true_2.
Qed.

Lemma guessed_spec c guesses :
  guessed c guesses = true <-> exists guess, guess ∈ guesses /\ c ∈ guess.
Proof.
  unfold guessed. rewrite existsb_exists. split.
  - intros (guess & Hin & H). apply bool_decide_eq_true in H.
    exists guess. split; [by apply list_elem_of_In|done].
  - intros (guess & Hin & H). exists guess.
    split; [by apply list_elem_of_In | by apply bool_decide_eq_true_2].
Qed.

(** X29.  The keyboard shows the best that is known of a letter.  For
    guesses as long as the target, all in the case the scorer folds to,
    [getLetterStatus] returns a map that gives a letter [correct] when some
    guess has it where the target has it; otherwise [present] when some
    guess has it and the target has it too; otherwise, for a letter of
    [a]-[z], [absent] when some guess has it and [unknown] when none has; a
    symbol outside [a]-[z] that is in no such case has no entry. *)
Theorem keyboard_shows_best_status (guesses : list jsstring) (target : jsstring) :
  toLowerCase target = target ->
  Forall (fun guess => toLowerCase guess = guess /\ length guess = length target) guesses ->
  exists letterStatus,
    getLetterStatus toLowerCase guesses target = Some letterStatus /\
    forall c, letterStatus !! c = keyboard c guesses target.
Proof.
  intros Htarget Hguesses.
  assert (Hlen : Forall (fun guess => (length guess <= length (toLowerCase target))%nat)
                        guesses).
  { eapply Forall_impl; [exact Hguesses|]. intros g [_ H]. cbv beta. rewrite Htarget. lia. }
  assert (Hm : exists m, getLetterStatus toLowerCase guesses target = Some m).
  { destruct (guessesLoop_spec target 0%N guesses initialStatus Hlen) as (m & Hm & _).
    by exists m. }
  destruct Hm as [m Hm]. exists m. split; [done|]. intros c.
  destruct (guessesLoop_spec target c guesses initialStatus Hlen) as (m' & Hm' & Hc).
  unfold getLetterStatus in Hm. rewrite Hm in Hm'. injection Hm' as <-.
  rewrite Hc, best_fold, initialStatus_lookup. clear Hc Hm m.
  set (L := flat_map _ guesses).
  assert (HL : forall st, st ∈ L <->
            exists guess, guess ∈ guesses /\
              st ∈ seen c guess (twoPass false (fun _ => None) guess target)).
  { intros st. unfold L. rewrite list_elem_of_In, in_flat_map. split.
    - intros (g & Hg & Hst). apply list_elem_of_In in Hg.
      rewrite Forall_forall in Hguesses. destruct (Hguesses g Hg) as [Hlow _].
      exists g. split; [done|]. apply list_elem_of_In in Hst.
      unfold Utils.checkGuess in Hst. by rewrite Hlow, Htarget in Hst.
    - intros (g & Hg & Hst). exists g. split; [by apply list_elem_of_In|].
      rewrite Forall_forall in Hguesses. destruct (Hguesses g Hg) as [Hlow _].
      apply list_elem_of_In. unfold Utils.checkGuess. by rewrite Hlow, Htarget. }
  assert (Hsc : forall g, g ∈ guesses ->
            length g = length target) by
    (intros g Hg; rewrite Forall_forall in Hguesses; by destruct (Hguesses g Hg)).
  assert (Hcorrect : correct ∈ L <-> inPlace c guesses target = true).
  { rewrite HL, inPlace_spec. split.
    - intros (g & Hg & Hst).
      destruct (seen_scored c g target (Hsc g Hg)) as (H1 & _).
      apply H1 in Hst as (i & Hi & Ht). by exists g, i.
    - intros (g & i & Hg & Hi & Ht). exists g. split; [done|].
      destruct (seen_scored c g target (Hsc g Hg)) as (H1 & _). apply H1. by exists i. }
  assert (Hpresent : inPlace c guesses target = false ->
            (present ∈ L <-> guessed c guesses = true /\ c ∈ target)).
  { intros Hno. rewrite HL, guessed_spec. split.
    - intros (g & Hg & Hst).
      destruct (seen_scored c g target (Hsc g Hg)) as (_ & H2 & _ & _ & H5).
      split; [exists g; split; [done|by apply (H5 present)] | by apply H2].
    - intros [(g & Hg & Hcg) Hct]. exists g. split; [done|].
      destruct (seen_scored c g target (Hsc g Hg)) as (_ & _ & H3 & _).
      apply H3; [done|done|]. intros (i & Hi & Ht).
      assert (Hyes : inPlace c guesses target = true) by (apply inPlace_spec; by exists g, i).
      congruence. }
  assert (Hany : guessed c guesses = true ->
            correct ∈ L \/ present ∈ L \/ absent ∈ L).
  { intros (g & Hg & Hcg)%guessed_spec.
    destruct (seen_scored c g target (Hsc g Hg)) as (_ & _ & _ & H4 & _).
    destruct (H4 Hcg) as [H|[H|H]]; [left|right; left|right; right];
      apply HL; by exists g. }
  assert (Hnone : guessed c guesses = false -> forall st, st ∉ L).
  { intros Hno st (g & Hg & Hst)%HL.
    destruct (seen_scored c g target (Hsc g Hg)) as (_ & _ & _ & _ & H5).
    assert (Hyes : guessed c guesses = true)
      by (apply guessed_spec; exists g; split; [done|by apply (H5 st)]).
    congruence. }
  unfold keyboard.
  destruct (inPlace c guesses target) eqn:Hin.
  - rewrite decide_True; [done|]. by apply Hcorrect.
  - rewrite decide_False by (intros H; apply Hcorrect in H; congruence).
    specialize (Hpresent eq_refl).
    destruct (guessed c guesses) eqn:Hg.
    + destruct (decide (c ∈ target)) as [Hct|Hct].
      * rewrite decide_True by (apply Hpresent; done).
        rewrite (bool_decide_eq_true_2 (c ∈ target)) by done. cbn [andb].
        by destruct (bool_decide (c ∈ alphabet)).
      * rewrite decide_False by (intros H; apply Hpresent in H; tauto).
        rewrite (bool_decide_eq_false_2 (c ∈ target)) by done. cbn [andb].
        rewrite decide_True.
        -- by destruct (bool_decide (c ∈ alphabet)).
        -- destruct (Hany eq_refl) as [H|[H|H]]; [|apply Hpresent in H; tauto|done].
           apply Hcorrect in H. congruence.
    + cbn [andb]. rewrite !decide_False by (by apply Hnone).
      by destruct (bool_decide (c ∈ alphabet)).
Qed.

End KeyboardFacts.

Lemma keyboard_shows_best_status_witness :
  exists letterStatus,
    LetterStatus.getLetterStatus asciiLower [js "speed"; js "arise"] (js "erase")
    = Some letterStatus /\
    letterStatus !! 101%N = Some LetterStatus.Correct /\
    letterStatus !! 115%N = Some LetterStatus.Correct /\
    letterStatus !! 112%N = Some LetterStatus.Absent /\
    letterStatus !! 122%N = Some LetterStatus.Unknown.
Proof.
  destruct (keyboard_shows_best_status asciiLower [js "speed"; js "arise"] (js "erase"))
    as (m & Hm & Hc).
  - reflexivity.
  - repeat constructor.
  - exists m. split; [exact Hm|]. rewrite !Hc. vm_compute. repeat split.
Defined.
